(** * Veritas: retrieval-and-grounding core

    A shallow embedding of [lib/levenshtein.py] (edit distance, similarity
    ratio, alignment of a generated answer against source sentences, the
    grounded-response builder), of [lib/bm25.py] (the BM25+ page ranker), of
    the page-selection step of [VeritasCrewBuilder.build] in
    [lib/agents.py], of the sentence extraction of [lib/pdf_parser.py] and
    of the deterministic steps of [Veritas.answer_question] in
    [veritas.py], together with the properties stated about them.

    Conventions.
    - A Python [str] is a sequence of Unicode code points: [pystr := list N].
      Literals are written [py "..."] and decoded from UTF-8.
    - A Python exception is a value [Raise e] of the result monad [Res].
    - The similarity ratio only needs the field operations on integers, so
      [float] is modelled by exact rationals [Q] there and the model runs.
      The BM25+ scores go through [math.log], so [float] is modelled by the
      real numbers [R] there. Rounding is not modelled in either. *)

From Stdlib Require Import Reals QArith Qminmax Qreals Lra Lia Lqa String Ascii List
  Permutation Sorted.
From stdpp Require Import base option list gmap strings sorting.

(** ** Python prelude *)

Module Py.

Definition pychar := N.
Definition pystr := list pychar.

(** Decoding of the UTF-8 bytes of a literal into code points. *)
Fixpoint utf8_decode (bs : list N) : pystr :=
  match bs with
  | [] => []
  | b :: rest =>
    if (b <? 128)%N then b :: utf8_decode rest
    else if (b <? 224)%N then
      match rest with
      | c1 :: r => (N.shiftl (N.land b 31) 6 + N.land c1 63)%N :: utf8_decode r
      | _ => []
      end
    else if (b <? 240)%N then
      match rest with
      | c1 :: c2 :: r =>
        (N.shiftl (N.land b 15) 12 + N.shiftl (N.land c1 63) 6 + N.land c2 63)%N
          :: utf8_decode r
      | _ => []
      end
    else
      match rest with
      | c1 :: c2 :: c3 :: r =>
        (N.shiftl (N.land b 7) 18 + N.shiftl (N.land c1 63) 12
         + N.shiftl (N.land c2 63) 6 + N.land c3 63)%N :: utf8_decode r
      | _ => []
      end
  end.

Definition py (s : string) : pystr :=
  utf8_decode (map N_of_ascii (list_ascii_of_string s)).

(** Exceptions and the result monad. *)
Inductive exn := ZeroDivisionError | IndexError | ValueError.

Inductive Res (A : Type) : Type :=
| Ok (a : A)
| Raise (e : exn).
Arguments Ok {A} a.
Arguments Raise {A} e.

#[export] Instance Res_ret : MRet Res := @Ok.
#[export] Instance Res_bind : MBind Res := λ A B f m,
  match m with Ok a => f a | Raise e => Raise e end.

(** [for x in l: s = body x s] *)
Fixpoint for_ {A S : Type} (l : list A) (body : A → S → Res S) (s : S) : Res S :=
  match l with
  | [] => Ok s
  | x :: l' => s' ← body x s; for_ l' body s'
  end.

(** [[f(x) for x in l]] for an [f] that may raise. *)
Fixpoint map_res {A B : Type} (f : A → Res B) (l : list A) : Res (list B) :=
  match l with
  | [] => Ok []
  | x :: l' => y ← f x; ys ← map_res f l'; Ok (y :: ys)
  end.

(** [enumerate(l)] *)
Definition enumerate {A : Type} (l : list A) : list (nat * A) :=
  zip (seq 0 (length l)) l.

(** [l[i]] for a non-negative index. *)
Definition getitem {A : Type} (l : list A) (i : nat) : Res A :=
  match l !! i with
  | Some x => Ok x
  | None => Raise IndexError
  end.

(** [l[i]] for an [int] index: a negative index counts from the end. *)
Definition getitem_int {A : Type} (l : list A) (i : Z) : Res A :=
  if (i <? 0)%Z then
    if (i + Z.of_nat (length l) <? 0)%Z then Raise IndexError
    else getitem l (Z.to_nat (i + Z.of_nat (length l)))
  else getitem l (Z.to_nat i).

(** [l[i] = x] *)
Definition setitem {A : Type} (l : list A) (i : nat) (x : A) : Res (list A) :=
  if decide (i < length l) then Ok (<[i:=x]> l) else Raise IndexError.

(** [str.isspace] on one code point (the Unicode White_Space set used by
    CPython, also the class [\s] of [re] on [str] patterns). *)
Definition isspace (c : pychar) : bool :=
  ((9 <=? c) && (c <=? 13) || (28 <=? c) && (c <=? 32) || (c =? 133)
   || (c =? 160) || (c =? 5760) || (8192 <=? c) && (c <=? 8202)
   || (c =? 8232) || (c =? 8233) || (c =? 8239) || (c =? 8287)
   || (c =? 12288))%N.

Fixpoint lstrip (s : pystr) : pystr :=
  match s with
  | c :: s' => if isspace c then lstrip s' else s
  | [] => []
  end.

(** [s.strip()] *)
Definition strip (s : pystr) : pystr := rev (lstrip (rev (lstrip s))).

(** [re.sub(r'\s+', ' ', text)]; [in_run] tells that the previous character
    was white space. *)
Fixpoint collapse_spaces (in_run : bool) (s : pystr) : pystr :=
  match s with
  | [] => []
  | c :: s' =>
    if isspace c then
      if in_run then collapse_spaces true s' else 32%N :: collapse_spaces true s'
    else c :: collapse_spaces false s'
  end.

(** [s.split(sep)] for a one-character separator. *)
Fixpoint split_on (sep : pychar) (s : pystr) : list pystr :=
  match s with
  | [] => [[]]
  | c :: s' =>
    match split_on sep s' with
    | w :: ws => if (c =? sep)%N then [] :: w :: ws else (c :: w) :: ws
    | [] => [[c]]
    end
  end.

(** [sep.join(parts)] *)
Fixpoint str_join (sep : pystr) (parts : list pystr) : pystr :=
  match parts with
  | [] => []
  | [p] => p
  | p :: ps => p ++ sep ++ str_join sep ps
  end.

(** [string.punctuation] *)
Definition punctuation : pystr :=
  [33; 34; 35; 36; 37; 38; 39; 40; 41; 42; 43; 44; 45; 46; 47; 58; 59; 60; 61;
   62; 63; 64; 91; 92; 93; 94; 95; 96; 123; 124; 125; 126]%N.

(** What Python takes from the Unicode character database: [str.lower],
    the class [\w] of [re], [str.isdigit]. *)
Class UnicodeData := {
  lower : pystr → pystr;
  isword : pychar → bool;
  isdigit : pystr → bool
}.

(** Truth value of a [str]-or-[None]. *)
Definition truthy (o : option pystr) : bool :=
  match o with
  | Some (_ :: _) => true
  | _ => false
  end.

End Py.
Export Py.

(** ** [lib/levenshtein.py] *)

Module Levenshtein.

(** *** Edit distance *)

(** [min(a, b, c)] *)
Definition min3 (a b c : nat) : nat := a `min` (b `min` c).

(** Body of the loop on [j]: fills [current_row[j]]. *)
Definition inner_body (s1 s2 : pystr) (i : nat) (previous_row : list nat)
    (j : nat) (current_row : list nat) : Res (list nat) :=
  p_j ← getitem previous_row j;
  let deletion := p_j + 1 in
  c_j1 ← getitem current_row (j - 1);
  let insertion := c_j1 + 1 in
  p_j1 ← getitem previous_row (j - 1);
  a ← getitem s1 (i - 1);
  b ← getitem s2 (j - 1);
  let substitution := p_j1 + (if decide (a = b) then 0 else 1) in
  setitem current_row j (min3 deletion insertion substitution).

(** Body of the loop on [i]: fills one row, then swaps the two rows. *)
Definition outer_body (s1 s2 : pystr) (i : nat) (rows : list nat * list nat)
    : Res (list nat * list nat) :=
  let '(previous_row, current_row) := rows in
  current_row ← setitem current_row 0 i;
  current_row ← for_ (seq 1 (length s2)) (inner_body s1 s2 i previous_row) current_row;
  Ok (current_row, previous_row).

Definition levenshtein_distance (s1 s2 : pystr) : Res nat :=
  if decide (s1 = s2) then Ok 0
  else if decide (length s1 = 0) then Ok (length s2)
  else if decide (length s2 = 0) then Ok (length s1)
  else
    let previous_row := seq 0 (length s2 + 1) in
    let current_row := replicate (length s2 + 1) 0 in
    rows ← for_ (seq 1 (length s1)) (outer_body s1 s2) (previous_row, current_row);
    getitem rows.1 (length s2).

(** The full table the two rows roll over: [lev s1 s2 i j] is the cell of
    row [i] and column [j], the distance between the first [i] characters of
    [s1] and the first [j] characters of [s2]. *)
Fixpoint lev (s1 s2 : pystr) (i : nat) : nat → nat :=
  match i with
  | 0 => λ j, j
  | S i' =>
    fix row (j : nat) : nat :=
      match j with
      | 0 => S i'
      | S j' =>
        min3 (lev s1 s2 i' (S j') + 1) (row j' + 1)
             (lev s1 s2 i' j' + (if decide (s1 !! i' = s2 !! j') then 0 else 1))
      end
  end.

(** *** Similarity ratio *)

Definition Qlt_bool (x y : Q) : bool := negb (Qle_bool y x).

Definition levenshtein_ratio (s1 s2 : pystr) : Res Q :=
  distance ← levenshtein_distance s1 s2;
  let max_len := length s1 `max` length s2 in
  if decide (max_len = 0) then Ok 1%Q
  else Ok (1 - inject_Z (Z.of_nat distance) / inject_Z (Z.of_nat max_len))%Q.

(** *** Closest candidate *)

(** [np.argmax] on a non-empty list: index of the first occurrence of the
    maximum. *)
Fixpoint argmax_from (best_idx : nat) (best : Q) (i : nat) (l : list Q) : nat :=
  match l with
  | [] => best_idx
  | x :: l' =>
    if Qlt_bool best x then argmax_from i x (S i) l'
    else argmax_from best_idx best (S i) l'
  end.

Definition argmax (l : list Q) : Res nat :=
  match l with
  | [] => Raise ValueError
  | x :: l' => Ok (argmax_from 0 x 1 l')
  end.

Definition find_closest_text (text : pystr) (candidates : list pystr) (threshold : Q)
    : Res (Z * Q) :=
  match candidates with
  | [] => Ok ((-1)%Z, 0%Q)
  | _ =>
    scores ← map_res (levenshtein_ratio text) candidates;
    max_score_idx ← argmax scores;
    max_score ← getitem scores max_score_idx;
    if Qle_bool threshold max_score then Ok (Z.of_nat max_score_idx, max_score)
    else Ok ((-1)%Z, max_score)
  end.

(** *** Text clean-up *)

(** [old in s at position 0] *)
Definition startswith (s old : pystr) : bool := bool_decide (old `prefix_of` s).

(** [s.replace(old, new)] for a non-empty [old]: occurrences are replaced
    from left to right without overlap; [skip] counts the characters of a
    replaced occurrence still to be passed over. *)
Fixpoint replace_from (old new : pystr) (skip : nat) (s : pystr) : pystr :=
  match s with
  | [] => []
  | c :: s' =>
    match skip with
    | S k => replace_from old new k s'
    | 0 =>
      if startswith s old then new ++ replace_from old new (length old - 1) s'
      else c :: replace_from old new 0 s'
    end
  end.

Definition replace (old new s : pystr) : pystr := replace_from old new 0 s.

(** The table [replacements] of [clean_text], in insertion order. Code point
    92 is the backslash, 34 the double quote, 39 the apostrophe. *)
Definition replacements : list (pystr * pystr) :=
  [ (py "\n", py " "); (py "\t", py " "); (py "\r", []);
    ([92; 34]%N, [34]%N); ([92; 39]%N, [39]%N); (py "\\", py "\");
    (py "\u00e9", py "é"); (py "\u00e8", py "è"); (py "\u00ea", py "ê");
    (py "\u00e0", py "à"); (py "\u00e2", py "â"); (py "\u00e7", py "ç");
    (py "\u00f4", py "ô"); (py "\u00fb", py "û"); (py "\u00ee", py "î");
    (py "\u00ef", py "ï"); (py "\u00fc", py "ü"); (py "\u0153", py "œ");
    (py "\u2019", [39]%N); (py "\u2026", py "...") ].

(** [[0-9a-fA-F]] *)
Definition ishex (c : pychar) : bool :=
  ((48 <=? c) && (c <=? 57) || (97 <=? c) && (c <=? 102)
   || (65 <=? c) && (c <=? 70))%N.

(** [re.sub(r'\\u[0-9a-fA-F]{4}', '', text)] *)
Fixpoint drop_unicode_escapes (skip : nat) (s : pystr) : pystr :=
  match s with
  | [] => []
  | c :: s' =>
    match skip with
    | S k => drop_unicode_escapes k s'
    | 0 =>
      match s with
      | 92%N :: 117%N :: h1 :: h2 :: h3 :: h4 :: _ =>
        if ishex h1 && ishex h2 && ishex h3 && ishex h4
        then drop_unicode_escapes 5 s'
        else c :: drop_unicode_escapes 0 s'
      | _ => c :: drop_unicode_escapes 0 s'
      end
    end
  end.

(** [[,.;:!?)]] *)
Definition ispunct_close (c : pychar) : bool :=
  bool_decide (c ∈ py ",.;:!?)").

(** [re.sub(r'\s+([,.;:!?)])', r'\1', text)]: a run of white space that
    ends at one of these punctuation marks is removed. *)
Fixpoint drop_space_before_punct (s : pystr) : pystr :=
  match s with
  | [] => []
  | c :: s' =>
    if isspace c && from_option ispunct_close false (head (lstrip s'))
    then drop_space_before_punct s'
    else c :: drop_space_before_punct s'
  end.

(** [re.sub(r'([,.;:!?)])(?!\s|$)', r'\1 ', text)] *)
Fixpoint add_space_after_punct (s : pystr) : pystr :=
  match s with
  | [] => []
  | c :: s' =>
    if ispunct_close c && from_option (λ d, negb (isspace d)) false (head s')
    then c :: 32%N :: add_space_after_punct s'
    else c :: add_space_after_punct s'
  end.

Definition clean_text (text : pystr) : pystr :=
  let text := foldl (λ text r, replace r.1 r.2 text) text replacements in
  let text := drop_unicode_escapes 0 text in
  let text := collapse_spaces false text in
  let text := drop_space_before_punct text in
  let text := add_space_after_punct text in
  strip text.

(** *** Alignment *)

(** The sentence splitter of NLTK; [None] when anything in the [try] block
    raises. *)
Class SentenceTokenizer := sent_tokenize : pystr → option (list pystr).

Record AlignmentRecord := {
  generated : pystr;
  source : option pystr;
  similarity : Q;
  aligned : bool
}.

(** [[s.strip() for s in l if len(s.strip()) > 10]] *)
Definition long_sentences (l : list pystr) : list pystr :=
  strip <$> filter (λ s, 10 < length (strip s)) l.

(** The scan of the [else] branch: first best strictly positive score. *)
Definition best_body (resp_sent : pystr) (x : nat * pystr) (best : Z * Q)
    : Res (Z * Q) :=
  current_score ← levenshtein_ratio resp_sent x.2;
  if Qlt_bool best.2 current_score then Ok (Z.of_nat x.1, current_score)
  else Ok best.

(** One iteration of the loop over the sentences of the response. *)
Definition align_sentence (source_sentences : list pystr) (threshold : Q)
    (resp_sent : pystr) : Res AlignmentRecord :=
  '(idx, score) ← find_closest_text resp_sent source_sentences threshold;
  if (0 <=? idx)%Z then
    src ← getitem_int source_sentences idx;
    Ok {| generated := resp_sent; source := Some src;
          similarity := score; aligned := true |}
  else
    '(best_idx, best_score) ←
      for_ (enumerate source_sentences) (best_body resp_sent) ((-1)%Z, 0%Q);
    if (0 <=? best_idx)%Z && Qle_bool 0.4 best_score then
      src ← getitem_int source_sentences best_idx;
      Ok {| generated := resp_sent; source := Some src;
            similarity := best_score; aligned := false |}
    else
      Ok {| generated := resp_sent; source := None;
            similarity := if (0 <=? best_idx)%Z then best_score else 0%Q;
            aligned := false |}.

Definition align_response `{SentenceTokenizer} (response : pystr)
    (source_sentences : list pystr) (threshold : Q) : Res (list AlignmentRecord) :=
  match response, source_sentences with
  | [], _ | _, [] => Ok []
  | _, _ =>
    let response := clean_text response in
    let response_sentences :=
      match sent_tokenize response with
      | Some sentences => sentences
      | None => long_sentences (split_on 46%N response)
      end in
    let response_sentences := long_sentences response_sentences in
    map_res (align_sentence source_sentences threshold) response_sentences
  end.

(** *** Grounded response *)

Definition refusal : pystr :=
  py "Impossible de répondre à cette question en se basant uniquement sur le document fourni.".

(** Insertion of [x] in a list sorted by decreasing similarity, before the
    first element whose similarity is not greater: with [foldr] this is the
    stable [sort(key=..., reverse=True)]. *)
Fixpoint insert_desc (x : pystr * Q) (l : list (pystr * Q)) : list (pystr * Q) :=
  match l with
  | [] => [x]
  | y :: l' => if Qlt_bool x.2 y.2 then y :: insert_desc x l' else x :: y :: l'
  end.

Definition sort_desc (l : list (pystr * Q)) : list (pystr * Q) :=
  foldr insert_desc [] l.

(** [[r['source'] for r in results if r['aligned'] and r['source']]] *)
Definition aligned_sources (results : list AlignmentRecord) : list pystr :=
  omap (λ r, if aligned r && truthy (source r) then source r else None) results.

(** The list [best_matches] before it is sorted. *)
Definition best_matches (results : list AlignmentRecord) : list (pystr * Q) :=
  omap (λ r, if truthy (source r) && Qle_bool 0.3 (similarity r)
             then (λ s, (s, similarity r)) <$> source r else None) results.

(** The sentences the answer is built from. *)
Definition answer_parts (results : list AlignmentRecord) : list pystr :=
  match aligned_sources results with
  | [] => fst <$> take 5 (sort_desc (best_matches results))
  | aligned_parts => aligned_parts
  end.

Definition build_factual_response (results : list AlignmentRecord) : pystr :=
  match answer_parts results with
  | [] => refusal
  | aligned_parts => str_join (py ". ") aligned_parts ++ py "."
  end.

End Levenshtein.

(** ** [lib/bm25.py] *)

Module BM25.

(** The parts of NLTK the ranker calls: [word_tokenize(text,
    language='french')], [stopwords.words('french')] and
    [SnowballStemmer('french').stem]. *)
Class Nltk := {
  word_tokenize : pystr → list pystr;
  stop_words : gset pystr;
  stem : pystr → pystr
}.

(** [np.argsort] with its default kind, which is not stable: only its
    contract [argsort_spec] is known. *)
Class Numpy := argsort : list R → list nat.

Definition argsort_spec (argsort : list R → list nat) : Prop :=
  ∀ scores : list R,
    Permutation (argsort scores) (seq 0 (length scores)) ∧
    StronglySorted (λ i j, (nth i scores 0 <= nth j scores 0)%R) (argsort scores).

(** A stable instance, by insertion. *)
Fixpoint insert_idx (scores : list R) (i : nat) (l : list nat) : list nat :=
  match l with
  | [] => [i]
  | j :: l' =>
    if Rle_dec (nth i scores 0%R) (nth j scores 0%R) then i :: j :: l'
    else j :: insert_idx scores i l'
  end.

Definition insertion_argsort (scores : list R) : list nat :=
  foldr (insert_idx scores) [] (seq 0 (length scores)).

Record BM25Ranker := {
  k1 : R;
  b : R;
  delta : R;
  doc_freqs : gmap pystr nat;
  idf : gmap pystr R;
  doc_lens : list nat;
  avg_doc_len : R;
  total_docs : nat;
  corpus_terms : gset pystr
}.

(** The entries of [self.domain_terms], in the order of the source. *)
Definition domain_table : list (pystr * Q) :=
  [ (py "durée", 3.0); (py "conservation", 3.0); (py "délai", 3.0);
    (py "stockage", 2.5); (py "archivage", 2.5); (py "effacement", 3.0);
    (py "suppression", 2.5); (py "rétention", 3.0); (py "temporaire", 2.0);
    (py "permanent", 2.0); (py "période", 2.0); (py "temps", 2.0);
    (py "limité", 2.0); (py "illimité", 2.0); (py "ans", 2.5);
    (py "mois", 2.5); (py "jours", 2.5);
    (py "rgpd", 2.0); (py "gdpr", 2.0); (py "règlement", 1.5);
    (py "protection", 1.5); (py "donnée", 2.0); (py "personnelle", 2.0);
    (py "régulation", 1.5); (py "loi", 1.5); (py "article", 1.5);
    (py "paragraphe", 1.2); (py "alinéa", 1.2); (py "disposition", 1.2);
    (py "minimisation", 2.0); (py "finalité", 2.0); (py "limitation", 2.5);
    (py "proportionnalité", 2.0); (py "nécessaire", 2.0); (py "pertinent", 1.5);
    (py "adéquat", 1.5); (py "exactitude", 1.5);
    (py "responsable", 1.5); (py "traitement", 1.5); (py "obligation", 1.5);
    (py "conformité", 1.5); (py "registre", 2.0); (py "documentation", 1.5);
    (py "mesure", 1.5); (py "technique", 1.0); (py "organisationnel", 1.0);
    (py "sécurité", 1.0);
    (py "archive", 2.0); (py "statistique", 1.5); (py "recherche", 1.5);
    (py "historique", 1.5); (py "scientifique", 1.5); (py "intérêt", 1.5);
    (py "public", 1.5); (py "légal", 1.5) ]%Q.

(** [self.domain_terms] *)
Definition domain_terms : gmap pystr Q := list_to_map domain_table.

(** [BM25Ranker(k1, b, delta)] *)
Definition init (k1 b delta : R) : BM25Ranker :=
  {| k1 := k1; b := b; delta := delta; doc_freqs := ∅; idf := ∅;
     doc_lens := []; avg_doc_len := 0; total_docs := 0; corpus_terms := ∅ |}.

(** [BM25Ranker()] *)
Definition default_ranker : BM25Ranker := init 1.5 0.75 1.0.

(** Assignments to the attributes of [self]. *)
Definition set_doc_freqs (v : gmap pystr nat) (self : BM25Ranker) : BM25Ranker :=
  {| k1 := k1 self; b := b self; delta := delta self; doc_freqs := v;
     idf := idf self; doc_lens := doc_lens self; avg_doc_len := avg_doc_len self;
     total_docs := total_docs self; corpus_terms := corpus_terms self |}.
Definition set_idf (v : gmap pystr R) (self : BM25Ranker) : BM25Ranker :=
  {| k1 := k1 self; b := b self; delta := delta self; doc_freqs := doc_freqs self;
     idf := v; doc_lens := doc_lens self; avg_doc_len := avg_doc_len self;
     total_docs := total_docs self; corpus_terms := corpus_terms self |}.
Definition set_doc_lens (v : list nat) (self : BM25Ranker) : BM25Ranker :=
  {| k1 := k1 self; b := b self; delta := delta self; doc_freqs := doc_freqs self;
     idf := idf self; doc_lens := v; avg_doc_len := avg_doc_len self;
     total_docs := total_docs self; corpus_terms := corpus_terms self |}.
Definition set_avg_doc_len (v : R) (self : BM25Ranker) : BM25Ranker :=
  {| k1 := k1 self; b := b self; delta := delta self; doc_freqs := doc_freqs self;
     idf := idf self; doc_lens := doc_lens self; avg_doc_len := v;
     total_docs := total_docs self; corpus_terms := corpus_terms self |}.
Definition set_total_docs (v : nat) (self : BM25Ranker) : BM25Ranker :=
  {| k1 := k1 self; b := b self; delta := delta self; doc_freqs := doc_freqs self;
     idf := idf self; doc_lens := doc_lens self; avg_doc_len := avg_doc_len self;
     total_docs := v; corpus_terms := corpus_terms self |}.
Definition set_corpus_terms (v : gset pystr) (self : BM25Ranker) : BM25Ranker :=
  {| k1 := k1 self; b := b self; delta := delta self; doc_freqs := doc_freqs self;
     idf := idf self; doc_lens := doc_lens self; avg_doc_len := avg_doc_len self;
     total_docs := total_docs self; corpus_terms := v |}.

(** Methods that assign to [self] and may raise: the ranker is threaded
    through, and is kept as it is at the point where an exception is raised. *)
Definition M (A : Type) : Type := BM25Ranker → BM25Ranker * Res A.

#[export] Instance M_ret : MRet M := λ A a self, (self, Ok a).
#[export] Instance M_bind : MBind M := λ A B f m self,
  match m self with
  | (self', Ok a) => f a self'
  | (self', Raise e) => (self', Raise e)
  end.

Definition lift {A : Type} (r : Res A) : M A := λ self, (self, r).
Definition read {A : Type} (f : BM25Ranker → A) : M A := λ self, (self, Ok (f self)).
Definition assign (f : BM25Ranker → BM25Ranker) : M unit := λ self, (f self, Ok tt).

(** [for x in l: s = body x s], in [M]. *)
Fixpoint for_M {A S : Type} (l : list A) (body : A → S → M S) (s : S) : M S :=
  match l with
  | [] => mret s
  | x :: l' => s' ← body x s; for_M l' body s'
  end.

(** [x / y] on floats *)
Definition truediv (x y : R) : Res R :=
  if Req_dec_T y 0 then Raise ZeroDivisionError else Ok (x / y)%R.

(** [math.log(x)] *)
Definition log (x : R) : Res R :=
  if Rlt_dec 0 x then Ok (ln x) else Raise ValueError.

Section Methods.
Context {unicode : UnicodeData} {nltk : Nltk} {numpy : Numpy}.

(** [[tokens[i] + '_' + tokens[i+1] for i in range(len(tokens) - 1)]] *)
Fixpoint bigrams (tokens : list pystr) : list pystr :=
  match tokens with
  | t1 :: (t2 :: _) as rest => (t1 ++ py "_" ++ t2) :: bigrams rest
  | _ => []
  end.

Definition _preprocess_text (text : pystr) (use_stemming : bool) : list pystr :=
  let text := collapse_spaces false (lower text) in
  let text := (λ c, if negb (isword c || isspace c) then 32%N else c) <$> text in
  let tokens := word_tokenize text in
  let tokens :=
    filter (λ token : pystr,
              (token ∉ stop_words) ∧ 1 < length token ∧ isdigit token = false
              ∧ ¬ Forall (λ c, c ∈ punctuation) token) tokens in
  let tokens := if use_stemming then stem <$> tokens else tokens in
  tokens ++ bigrams tokens.

(** Body of the loop of [_calculate_idf]. *)
Definition idf_body (term : pystr) (_ : unit) : M unit :=
  doc_freq ← read (λ self, default 0 (doc_freqs self !! term));
  total_docs ← read total_docs;
  q ← lift (truediv (INR total_docs - INR doc_freq + 0.5) (INR doc_freq + 0.5));
  v ← lift (log (q + 1.0));
  assign (λ self, set_idf (<[term := v]> (idf self)) self);;
  match domain_terms !! term with
  | Some w =>
    v ← read (λ self, default 0%R (idf self !! term));
    assign (λ self, set_idf (<[term := (v * Q2R w)%R]> (idf self)) self)
  | None => mret tt
  end.

Definition _calculate_idf : M unit :=
  terms ← read (λ self, elements (corpus_terms self));
  for_M terms idf_body tt.

(** [Counter(page_terms)] *)
Definition Counter (l : list pystr) : gmap pystr nat :=
  foldl (λ m t, <[t := default 0 (m !! t) + 1]> m) ∅ l.

(** Body of the loop of [_calculate_page_score]. *)
Definition score_body (self : BM25Ranker) (term_freqs : gmap pystr nat)
    (norm_doc_len : R) (query_terms : list pystr) (term : pystr) (score : R) : Res R :=
  match idf self !! term with
  | Some idf_t =>
    let tf := INR (default 0 (term_freqs !! term)) in
    frac ← truediv (tf * (k1 self + 1))
                   (tf + k1 self * (1 - b self + b self * norm_doc_len));
    let term_score := (idf_t * (frac + delta self))%R in
    let term_score :=
      if bool_decide (term ∈ query_terms) then (term_score * 1.2)%R else term_score in
    Ok (score + term_score)%R
  | None => Ok score
  end.

Definition _calculate_page_score (self : BM25Ranker) (page_terms query_terms : list pystr)
    (page_index : nat) : Res R :=
  let term_freqs := Counter page_terms in
  doc_len ← getitem (doc_lens self) page_index;
  norm_doc_len ← truediv (INR doc_len) (avg_doc_len self);
  for_ query_terms (score_body self term_freqs norm_doc_len query_terms) 0%R.

Definition expansion_map : list (pystr * list pystr) :=
  [ (py "durée", [py "temps"; py "période"; py "délai"]);
    (py "conservation", [py "stockage"; py "rétention"; py "archivage"]);
    (py "effacement", [py "suppression"; py "destruction"; py "élimination"]);
    (py "rgpd", [py "gdpr"; py "règlement"; py "protection"]);
    (py "limitation", [py "restriction"; py "bornage"; py "plafonnement"]) ].

Definition _expand_query (query_terms : list pystr) : list pystr :=
  foldl (λ expanded_terms term,
    let term_stem := if bool_decide (term ∈ dom domain_terms) then stem term else term in
    foldl (λ expanded_terms entry,
      if bool_decide (term = entry.1) || bool_decide (term_stem = stem entry.1)
      then expanded_terms ++ entry.2 else expanded_terms)
      expanded_terms expansion_map)
    query_terms query_terms.

(** Body of the loop over [unique_terms] in [fit]. *)
Definition count_term (term : pystr) (term_doc_freqs : gmap pystr nat)
    : M (gmap pystr nat) :=
  assign (λ self, set_corpus_terms ({[term]} ∪ corpus_terms self) self);;
  mret (<[term := default 0 (term_doc_freqs !! term) + 1]> term_doc_freqs).

(** Body of the loop over [pages] in [fit]. *)
Definition fit_page (page : pystr) (acc : gmap pystr nat * list (list pystr))
    : M (gmap pystr nat * list (list pystr)) :=
  let '(term_doc_freqs, tokenized_pages) := acc in
  let page_terms := _preprocess_text page true in
  let tokenized_pages := tokenized_pages ++ [page_terms] in
  assign (λ self, set_doc_lens (doc_lens self ++ [length page_terms]) self);;
  let unique_terms : gset pystr := list_to_set page_terms in
  term_doc_freqs ← for_M (elements unique_terms) count_term term_doc_freqs;
  mret (term_doc_freqs, tokenized_pages).

Definition fit (pages : list pystr) : M (list (list pystr)) :=
  assign (set_total_docs (length pages));;
  assign (set_doc_lens []);;
  '(term_doc_freqs, tokenized_pages) ← for_M pages fit_page (∅, []);
  doc_lens ← read doc_lens;
  total_docs ← read total_docs;
  avg ← lift (truediv (INR (sum_list doc_lens)) (INR (1 `max` total_docs)));
  assign (set_avg_doc_len avg);;
  assign (set_doc_freqs term_doc_freqs);;
  _calculate_idf;;
  mret tokenized_pages.

(** [max(scores)] on a non-empty list. *)
Definition max_list (scores : list R) : Res R :=
  match scores with
  | [] => Raise ValueError
  | x :: l => Ok (foldl Rmax x l)
  end.

(** [l[:k]] *)
Definition take_int {A : Type} (k : Z) (l : list A) : list A :=
  if (k <? 0)%Z then take (Z.to_nat (Z.of_nat (length l) + k)) l
  else take (Z.to_nat k) l.

(** [[idx for idx in l if scores[idx] > threshold]] *)
Fixpoint above (scores : list R) (threshold : R) (l : list nat) : Res (list nat) :=
  match l with
  | [] => Ok []
  | idx :: l' =>
    score ← getitem scores idx;
    rest ← above scores threshold l';
    Ok (if Rlt_dec threshold score then idx :: rest else rest)
  end.

(** The loop that fills [scores]. *)
Definition page_scores (self : BM25Ranker) (tokenized_pages : list (list pystr))
    (expanded_query_terms : list pystr) : Res (list R) :=
  map_res (λ x : nat * list pystr,
             _calculate_page_score self x.2 expanded_query_terms x.1)
          (enumerate tokenized_pages).

(** The part of [rank_pages] after [fit]: it only reads [self]. *)
Definition rank_tokenized (self : BM25Ranker) (tokenized_pages : list (list pystr))
    (query : pystr) (top_k : option Z) : Res (list nat) :=
  let query_terms := _preprocess_text query true in
  let expanded_query_terms := _expand_query query_terms in
  scores ← page_scores self tokenized_pages expanded_query_terms;
  let ranked_indices := rev (argsort scores) in
  threshold ← match scores with
               | [] => Ok 0%R
               | _ => m ← max_list scores; Ok (m * 0.1)%R
               end;
  ranked_indices ← above scores threshold ranked_indices;
  match top_k with
  | Some k =>
    if (k <? Z.of_nat (length ranked_indices))%Z then Ok (take_int k ranked_indices)
    else Ok ranked_indices
  | None => Ok ranked_indices
  end.

Definition rank_pages (pages : list pystr) (query : pystr) (top_k : option Z)
    : M (list nat) :=
  match pages with
  | [] => mret []
  | _ =>
    tokenized_pages ← fit pages;
    self ← read (λ self, self);
    lift (rank_tokenized self tokenized_pages query top_k)
  end.

End Methods.

End BM25.

(** ** [lib/agents.py]: page selection in [VeritasCrewBuilder.build] *)

Module Agents.
Import BM25.

Section Build.
Context {unicode : UnicodeData} {nltk : Nltk} {numpy : Numpy}.

(** The statement that computes [top_pages_indices]; [self.bm25_ranker] is
    the state and [BM25_TOP_K] the configured value. *)
Definition top_pages_indices (BM25_TOP_K : Z) (pages : list pystr)
    (search_query : pystr) : M (list nat) :=
  if (Z.of_nat (length pages) <=? BM25_TOP_K)%Z then mret (seq 0 (length pages))
  else rank_pages pages search_query (Some BM25_TOP_K).

End Build.

End Agents.

(** ** A small backend to run the model

    ASCII letters only, words split on white space, a few French stop
    words, the identity as stemmer, no sentence tokenizer (so that
    [align_response] takes its fallback and splits on full stops), and
    the stable [insertion_argsort]. *)

Module Plain.
Import Levenshtein BM25.

Definition ascii_lower (s : pystr) : pystr :=
  (λ c, if (65 <=? c) && (c <=? 90) then c + 32 else c)%N <$> s.

Definition ascii_isword (c : pychar) : bool :=
  ((48 <=? c) && (c <=? 57) || (65 <=? c) && (c <=? 90)
   || (97 <=? c) && (c <=? 122) || (c =? 95))%N.

Definition ascii_isdigit (s : pystr) : bool :=
  match s with
  | [] => false
  | _ => forallb (λ c, (48 <=? c) && (c <=? 57))%N s
  end.

(** Words separated by white space; [cur] is the current word, reversed. *)
Fixpoint words_from (cur : pystr) (s : pystr) : list pystr :=
  match s with
  | [] => match cur with [] => [] | _ => [rev cur] end
  | c :: s' =>
    if isspace c then
      match cur with
      | [] => words_from [] s'
      | _ => rev cur :: words_from [] s'
      end
    else words_from (c :: cur) s'
  end.

Definition unicode : UnicodeData :=
  {| lower := ascii_lower; isword := ascii_isword; isdigit := ascii_isdigit |}.

Definition nltk : Nltk :=
  {| word_tokenize := words_from [];
     stop_words := list_to_set [py "le"; py "la"; py "les"; py "de"; py "des"; py "et"];
     stem := λ token, token |}.

Definition numpy : Numpy := insertion_argsort.

Definition sentences : SentenceTokenizer := λ _, None.

End Plain.

(** ** [lib/pdf_parser.py] *)

Module PdfParser.
Import Levenshtein.

(** [ftfy.fix_text] and [unidecode]. *)
Class TextRepair := {
  fix_text : pystr → pystr;
  unidecode : pystr → pystr
}.

(** The table [replacements] of [clean_text]: the no-break space and the
    narrow no-break space. *)
Definition space_replacements : list (pystr * pystr) :=
  [ ([160]%N, py " "); ([8239]%N, py " ") ].

(** [clean_text(text, preserve_accents)] of [pdf_parser.py] *)
Definition clean_text `{TextRepair} (text : pystr) (preserve_accents : bool) : pystr :=
  let text := fix_text text in
  let text := collapse_spaces false text in
  let text :=
    if preserve_accents
    then foldl (λ text r, replace r.1 r.2 text) text space_replacements
    else unidecode text in
  strip text.

(** A [dict] with [int] keys, in insertion order. *)
Definition dict (V : Type) : Type := list (Z * V).

(** [d[k] = v]: an existing key keeps its place. *)
Fixpoint dict_set {V : Type} (d : dict V) (k : Z) (v : V) : dict V :=
  match d with
  | [] => [(k, v)]
  | (k', v') :: d' => if decide (k' = k) then (k, v) :: d' else (k', v') :: dict_set d' k v
  end.

(** [d.get(k)] *)
Fixpoint dict_get {V : Type} (d : dict V) (k : Z) : option V :=
  match d with
  | [] => None
  | (k', v') :: d' => if decide (k' = k) then Some v' else dict_get d' k
  end.

(** [for x in l: s = body x s], where [None] is an exception that leaves
    the function. *)
Fixpoint for_opt {A S : Type} (l : list A) (body : A → S → option S) (s : S) : option S :=
  match l with
  | [] => Some s
  | x :: l' => s' ← body x s; for_opt l' body s'
  end.

(** The loop that fills [unique_sentences]. *)
Definition unique_sentences (sentences : list pystr) : list pystr :=
  foldl (λ unique_sentences s,
           if bool_decide (s ∈ unique_sentences) then unique_sentences
           else unique_sentences ++ [s])
        [] sentences.

(** Body of the loop of [split_pages_into_sentences]; [sent_tokenize] is
    not guarded here. *)
Definition split_page `{SentenceTokenizer} (x : nat * pystr)
    (sentences_by_page : dict (list pystr)) : option (dict (list pystr)) :=
  sentences ← sent_tokenize x.2;
  let sentences := long_sentences sentences in
  Some (dict_set sentences_by_page (Z.of_nat x.1) (unique_sentences sentences)).

Definition split_pages_into_sentences `{SentenceTokenizer} (pages : list pystr)
    : option (dict (list pystr)) :=
  for_opt (enumerate pages) split_page [].

(** [extract_text_by_page], from the texts [page.extract_text()] of the
    pages of the reader. *)
Definition extract_text_by_page `{TextRepair} (extracted : list pystr) : list pystr :=
  (λ text, clean_text text true) <$> filter (λ text, strip text ≠ []) extracted.

(** [extract_all_sentences], from the same texts. *)
Definition extract_all_sentences `{TextRepair} `{SentenceTokenizer}
    (extracted : list pystr) : option (list pystr * dict (list pystr)) :=
  let pages := extract_text_by_page extracted in
  sentences_by_page ← split_pages_into_sentences pages;
  let all_sentences := foldl (λ all_sentences kv, all_sentences ++ kv.2) [] sentences_by_page in
  Some (all_sentences, sentences_by_page).

End PdfParser.

(** ** [veritas.py]: the deterministic steps of [Veritas.answer_question] *)

Module Veritas.
Import Levenshtein PdfParser.

(** Step 2: the sentences of the selected pages. *)
Definition collect_sentences (sentences_by_page : dict (list pystr))
    (selected_pages_indices : list Z) : list pystr :=
  foldl (λ all_sentences page_idx,
           match dict_get sentences_by_page page_idx with
           | Some sentences => all_sentences ++ sentences
           | None => all_sentences
           end)
        [] selected_pages_indices.

(** Step 5: alignment of the raw answer and construction of the answer;
    the pair is [(factual_answer, alignment_results)]. *)
Definition factual_answer `{SentenceTokenizer} (raw_answer : pystr)
    (selected_sentences : list pystr) (MIN_SIMILARITY_THRESHOLD : Q)
    : Res (pystr * list AlignmentRecord) :=
  alignment_results ← align_response raw_answer selected_sentences MIN_SIMILARITY_THRESHOLD;
  Ok (build_factual_response alignment_results, alignment_results).

End Veritas.

(** ** A backend to run the PDF steps

    The identity for [ftfy.fix_text] and [unidecode], and a sentence
    splitter that cuts at full stops. *)

Module PlainText.
Import Levenshtein PdfParser.

Definition repair : TextRepair := {| fix_text := λ text, text; unidecode := λ text, text |}.

Definition full_stops : SentenceTokenizer := λ text, Some (split_on 46%N text).

End PlainText.

(** * Specification side

    The notions the statements are written with. *)

Module LevenshteinSpec.
Import Levenshtein.

(** The row [i] of the table, as one of the two rolling rows holds it. *)
Definition row_ok (s1 s2 : pystr) (i : nat) (row : list nat) : Prop :=
  length row = S (length s2) ∧ ∀ j, j ≤ length s2 → row !! j = Some (lev s1 s2 i j).

(** The value [levenshtein_ratio] returns. *)
Definition ratio (s1 s2 : pystr) : Q :=
  if decide (length s1 `max` length s2 = 0) then 1%Q
  else (1 - inject_Z (Z.of_nat (lev s1 s2 (length s1) (length s2)))
            / inject_Z (Z.of_nat (length s1 `max` length s2)))%Q.

(** The best ratio of a sentence against the source sentences, 0 when there
    is none. *)
Definition best_ratio (g : pystr) (sources : list pystr) : Q :=
  foldr Qmax 0%Q (ratio g <$> sources).

(** [v] is a greatest element of [l] *)
Definition is_max (v : Q) (l : list Q) : Prop :=
  v ∈ l ∧ Forall (λ y, (y <= v)%Q) l.

(** What a record says about its sentence, in the words of the alignment
    policy. *)
Definition record_ok (sources : list pystr) (threshold : Q) (r : AlignmentRecord) : Prop :=
  let best := best_ratio (generated r) sources in
  (0 <= similarity r <= 1)%Q ∧ (similarity r == best)%Q ∧
  (aligned r = true ↔ (threshold <= best)%Q) ∧
  (is_Some (source r) ↔ (threshold <= best)%Q ∨ (0.4 <= best)%Q) ∧
  (∀ src, source r = Some src →
     src ∈ sources ∧ (ratio (generated r) src == best)%Q) ∧
  (∀ s, s ∈ sources → (ratio (generated r) s <= best)%Q).

End LevenshteinSpec.

Module BuilderSpec.
Import Levenshtein.

(** A record the primary path keeps. *)
Definition grounded (r : AlignmentRecord) : bool := aligned r && truthy (source r).

(** A record the fallback path considers. *)
Definition qualifies (r : AlignmentRecord) : bool :=
  truthy (source r) && Qle_bool 0.3 (similarity r).

(** [insert_desc] and [sort_desc] on the records themselves. *)
Fixpoint insert_record (x : AlignmentRecord) (l : list AlignmentRecord) : list AlignmentRecord :=
  match l with
  | [] => [x]
  | y :: l' =>
    if Qlt_bool (similarity x) (similarity y) then y :: insert_record x l' else x :: y :: l'
  end.

Definition sort_records (l : list AlignmentRecord) : list AlignmentRecord :=
  foldr insert_record [] l.

(** The answer in the words of the claim: every record with [aligned = true]
    contributes its source; the fallback takes every record whose source is
    present. *)
Definition claimed_answer (results : list AlignmentRecord) : pystr :=
  match filter (λ r, aligned r = true) results with
  | (_ :: _) as chosen => str_join (py ". ") (omap source chosen) ++ py "."
  | [] =>
    match take 5 (sort_records
            (filter (λ r, is_Some (source r) ∧ Qle_bool 0.3 (similarity r) = true) results)) with
    | (_ :: _) as chosen => str_join (py ". ") (omap source chosen) ++ py "."
    | [] => refusal
    end
  end.

(** The pair [best_matches] keeps of a record. *)
Definition pair_of (r : AlignmentRecord) : pystr * Q :=
  (default [] (source r), similarity r).

(** [r1] comes before [r2] in decreasing similarity. *)
Definition sim_ge (r1 r2 : AlignmentRecord) : Prop := (similarity r2 <= similarity r1)%Q.

(** A record for the examples. *)
Definition record_of (src : option pystr) (sim : Q) (al : bool) : AlignmentRecord :=
  {| generated := py "Une phrase produite."; source := src; similarity := sim; aligned := al |}.

End BuilderSpec.

Module BM25Spec.
Import BM25.
Section Spec.
Context {ud : UnicodeData} {nltk : Nltk}.

(** The terms of a page, as [fit] computes them. *)
Definition page_terms (page : pystr) : list pystr := _preprocess_text page true.

(** Number of pages in which [t] occurs. *)
Definition doc_freq (pages : list pystr) (t : pystr) : nat :=
  length (filter (λ p, t ∈ page_terms p) pages).

(** All the terms of a corpus. *)
Definition terms_of (pages : list pystr) : gset pystr :=
  foldr (λ p acc, list_to_set (page_terms p) ∪ acc) ∅ pages.

(** The IDF of [t] in a corpus of [N] pages where it occurs in [df]. *)
Definition idf_value (N df : nat) (t : pystr) : R :=
  let v := ln ((INR N - INR df + 0.5) / (INR df + 0.5) + 1.0) in
  match domain_terms !! t with
  | Some w => (v * Q2R w)%R
  | None => v
  end.


(** Number of occurrences of [t] in a page. *)
Definition term_count (t : pystr) (terms : list pystr) : nat :=
  length (filter (λ x, x = t) terms).

(** The saturation denominator offset [k1 * (1 - b + b * norm_doc_len)]. *)
Definition saturation (self : BM25Ranker) (norm_doc_len : R) : R :=
  (k1 self * (1 - b self + b self * norm_doc_len))%R.

(** Every IDF weight of the table is non-negative. *)
Definition idf_nonneg (self : BM25Ranker) : Prop :=
  ∀ t v, idf self !! t = Some v → (0 <= v)%R.

(** The ranker after [fit pages]. *)
Definition fitted (self : BM25Ranker) (pages : list pystr) (m : gmap pystr R)
    (df : gmap pystr nat) : BM25Ranker :=
  {| k1 := k1 self; b := b self; delta := delta self;
     doc_freqs := df; idf := m;
     doc_lens := length <$> (page_terms <$> pages);
     avg_doc_len := (INR (sum_list (length <$> (page_terms <$> pages)))
                     / INR (1 `max` length pages))%R;
     total_docs := length pages;
     corpus_terms := terms_of pages ∪ corpus_terms self |}.

(** The IDF table only has keys in [corpus_terms]. *)
Definition idf_in_corpus (self : BM25Ranker) : Prop :=
  ∀ t, is_Some (idf self !! t) → t ∈ corpus_terms self.

(** The query terms the scores are computed for. *)
Definition expanded_query (query : pystr) : list pystr :=
  _expand_query (_preprocess_text query true).

End Spec.
End BM25Spec.

Module RankSpec.
Import BM25.

(** Page [i] scores at least as much as page [j]. *)
Definition score_ge (scores : list R) (i j : nat) : Prop :=
  (nth j scores 0 <= nth i scores 0)%R.

(** What the ranking policy promises about its result [l], given the
    scores of the pages. *)
Definition ranking_ok (scores : list R) (l : list nat) : Prop :=
  NoDup l ∧
  (∀ i, i ∈ l → i < length scores) ∧
  StronglySorted (score_ge scores) l ∧
  (∀ m, max_list scores = Ok m → ∀ i, i ∈ l → (m * 0.1 < nth i scores 0)%R) ∧
  (Forall (λ s, s = 0%R) scores → l = []).

End RankSpec.

Module TextSpec.

(** No two white-space characters in a row. *)
Definition no_double_space (s : pystr) : Prop :=
  ∀ s1 c d s2, s = s1 ++ c :: d :: s2 → ¬ (isspace c = true ∧ isspace d = true).

(** No white space at either end. *)
Definition no_outer_space (s : pystr) : Prop :=
  (∀ c, head s = Some c → isspace c = false) ∧
  (∀ c, last s = Some c → isspace c = false).

(** White space only as single plain spaces; [after_space] tells that the
    character before [s] is white space. *)
Fixpoint spaced (after_space : bool) (s : pystr) : Prop :=
  match s with
  | [] => True
  | c :: s' =>
    if isspace c then c = 32%N ∧ after_space = false ∧ spaced true s'
    else spaced false s'
  end.

(** Each of [,.;:!?)] is followed by white space or by nothing. *)
Fixpoint punct_spaced (s : pystr) : Prop :=
  match s with
  | [] => True
  | c :: s' =>
    (Levenshtein.ispunct_close c = true → ∀ d, head s' = Some d → isspace d = true)
    ∧ punct_spaced s'
  end.

End TextSpec.

Module ScoreSpec.
Import BM25 BM25Spec.

(** The BM25+ weight of one query term for a page with terms [page_terms]
    and normalised length [norm_doc_len]. *)
Definition term_weight (self : BM25Ranker) (page_terms : list pystr)
    (norm_doc_len : R) (t : pystr) : R :=
  match idf self !! t with
  | Some idf_t =>
    let tf := INR (term_count t page_terms) in
    (idf_t * (tf * (k1 self + 1) / (tf + saturation self norm_doc_len) + delta self))%R
  | None => 0%R
  end.

(** The BM25+ score: the sum of the weights of the query terms. *)
Definition bm25_plus (self : BM25Ranker) (page_terms : list pystr)
    (norm_doc_len : R) (query_terms : list pystr) : R :=
  foldr (λ t acc, (term_weight self page_terms norm_doc_len t + acc)%R) 0%R query_terms.

(** The sum of the IDF weights of the query terms that have one. *)
Definition query_idf (self : BM25Ranker) (query_terms : list pystr) : R :=
  foldr (λ t acc, (default 0%R (idf self !! t) + acc)%R) 0%R query_terms.

End ScoreSpec.

(** * Proofs *)

#[local] Set Warnings "-clear-no-such-hyp".

Module LevenshteinFacts.
Import Levenshtein LevenshteinSpec.

Lemma for_seq_inv {St : Type} (Inv : nat → St → Prop) (body : nat → St → Res St) n :
  ∀ a s,
    Inv a s →
    (∀ j s, a ≤ j < a + n → Inv j s → ∃ s', body j s = Ok s' ∧ Inv (S j) s') →
    ∃ s', for_ (seq a n) body s = Ok s' ∧ Inv (a + n) s'.
Proof.
  induction n as [|n IH]; intros a s Ha Hstep; simpl.
  - exists s. by rewrite Nat.add_0_r.
  - destruct (Hstep a s) as (s1 & -> & H1); [lia | done |]. simpl.
    destruct (IH (S a) s1) as (s2 & -> & H2); [done | |].
    + intros j t Hj. apply Hstep. lia.
    + exists s2. split; [done|]. by replace (a + S n) with (S a + n) by lia.
Qed.

Ltac res_step := cbn [mbind Res_bind mret Res_ret].

Lemma getitem_Some {A : Type} (l : list A) i x : l !! i = Some x → getitem l i = Ok x.
Proof. unfold getitem. by intros ->. Qed.

Lemma setitem_lt {A : Type} (l : list A) i x :
  i < length l → setitem l i x = Ok (<[i:=x]> l).
Proof. unfold setitem. intros. by rewrite decide_True. Qed.

Lemma lev_0_r s1 s2 i : lev s1 s2 i 0 = i.
Proof. by destruct i. Qed.

Lemma lev_S_S s1 s2 i j :
  lev s1 s2 (S i) (S j) =
  min3 (lev s1 s2 i (S j) + 1) (lev s1 s2 (S i) j + 1)
       (lev s1 s2 i j + (if decide (s1 !! i = s2 !! j) then 0 else 1)).
Proof. reflexivity. Qed.

Lemma lev_sym s1 s2 i : ∀ j, lev s1 s2 i j = lev s2 s1 j i.
Proof.
  induction i as [|i IHi]; intros j.
  - by rewrite lev_0_r.
  - induction j as [|j IHj]; [done|].
    rewrite !lev_S_S, IHj, !IHi. unfold min3.
    destruct (decide (s1 !! i = s2 !! j)), (decide (s2 !! j = s1 !! i)); try congruence; lia.
Qed.

Lemma lev_le_max s1 s2 i : ∀ j, lev s1 s2 i j ≤ i `max` j.
Proof.
  induction i as [|i IHi]; intros j; [simpl; lia|].
  induction j as [|j IHj]; [simpl; lia|].
  rewrite lev_S_S. unfold min3. specialize (IHi j).
  destruct (decide _); lia.
Qed.

Lemma lev_diag s i : lev s s i i = 0.
Proof.
  induction i as [|i IH]; [done|].
  rewrite lev_S_S, IH, decide_True by done. unfold min3. lia.
Qed.

Lemma inner_loop s1 s2 i prev cur :
  i < length s1 → row_ok s1 s2 i prev →
  length cur = S (length s2) → cur !! 0 = Some (S i) →
  ∃ cur', for_ (seq 1 (length s2)) (inner_body s1 s2 (S i) prev) cur = Ok cur'
          ∧ row_ok s1 s2 (S i) cur'.
Proof.
  intros Hi [Hlen Hprev] Hcur H0.
  destruct (for_seq_inv
    (λ j c, length c = S (length s2) ∧ ∀ j', j' < j → c !! j' = Some (lev s1 s2 (S i) j'))
    (inner_body s1 s2 (S i) prev) (length s2) 1 cur) as (cur' & Hrun & Hl & Hc).
  - split; [done|]. intros j' Hj'. by replace j' with 0 by lia.
  - intros j c Hj [Hcl Hc]. destruct j as [|j]; [lia|].
    destruct (lookup_lt_is_Some_2 s1 i Hi) as [a Ha].
    destruct (lookup_lt_is_Some_2 s2 j ltac:(lia)) as [b Hb].
    unfold inner_body. rewrite !Nat.sub_succ, !Nat.sub_0_r.
    rewrite (getitem_Some prev (S j) _ (Hprev (S j) ltac:(lia))). res_step.
    rewrite (getitem_Some c j _ (Hc j ltac:(lia))). res_step.
    rewrite (getitem_Some prev j _ (Hprev j ltac:(lia))). res_step.
    rewrite (getitem_Some s1 i _ Ha). res_step.
    rewrite (getitem_Some s2 j _ Hb). res_step.
    rewrite setitem_lt by lia. eexists. split; [done|]. split.
    + by rewrite length_insert.
    + intros j' Hj'. destruct (decide (j' = S j)) as [->|Hne].
      * rewrite list_lookup_insert_eq by lia. f_equal. rewrite lev_S_S.
        unfold pystr, pychar in *. rewrite Ha, Hb.
        destruct (decide (a = b)), (decide (Some a = Some b)); congruence.
      * rewrite list_lookup_insert_ne by done. apply Hc. lia.
  - exists cur'. split; [done|]. split; [done|]. intros j Hj. apply Hc. lia.
Qed.

Lemma outer_loop s1 s2 :
  ∃ rows, for_ (seq 1 (length s1)) (outer_body s1 s2)
               (seq 0 (length s2 + 1), replicate (length s2 + 1) 0) = Ok rows
          ∧ row_ok s1 s2 (length s1) rows.1.
Proof.
  destruct (for_seq_inv
    (λ i rows, ∃ i', i = S i' ∧ row_ok s1 s2 i' rows.1 ∧ length rows.2 = S (length s2))
    (outer_body s1 s2) (length s1) 1
    (seq 0 (length s2 + 1), replicate (length s2 + 1) 0)) as (rows & Hrun & i' & Hi' & Hrow & _).
  - exists 0. split; [done|]. cbn [fst snd]. rewrite length_replicate.
    split; [|lia]. split; [rewrite length_seq; lia|].
    intros j Hj. rewrite lookup_seq_lt by lia. done.
  - intros i [prev cur] Hi (i' & -> & Hprev & Hcur). simpl in *.
    unfold outer_body. rewrite setitem_lt by lia. simpl.
    destruct (inner_loop s1 s2 i' prev (<[0:=S i']> cur)) as (cur' & -> & Hcur');
      [lia | done | by rewrite length_insert | |].
    { apply list_lookup_insert_eq. lia. }
    simpl. eexists. split; [done|]. exists (S i'). split; [done|]. simpl.
    split; [done|]. apply Hprev.
  - exists rows. split; [done|]. by replace (length s1) with i' by lia.
Qed.

(** The two rolling rows compute the last cell of the table, and no index
    is out of range on the way. *)
Theorem levenshtein_distance_lev s1 s2 :
  levenshtein_distance s1 s2 = Ok (lev s1 s2 (length s1) (length s2)).
Proof.
  unfold levenshtein_distance.
  destruct (decide (s1 = s2)) as [->|Hne]; [by rewrite lev_diag|].
  destruct (decide (length s1 = 0)) as [->|H1]; [done|].
  destruct (decide (length s2 = 0)) as [->|H2]; [by rewrite lev_0_r|].
  destruct (outer_loop s1 s2) as (rows & -> & _ & Hrow). simpl.
  apply getitem_Some, Hrow. lia.
Qed.


Lemma levenshtein_ratio_eq s1 s2 : levenshtein_ratio s1 s2 = Ok (ratio s1 s2).
Proof.
  unfold levenshtein_ratio, ratio. rewrite levenshtein_distance_lev. res_step.
  by destruct (decide _).
Qed.

Lemma unit_fraction (d m : nat) :
  d ≤ m → 0 < m →
  (0 <= 1 - inject_Z (Z.of_nat d) / inject_Z (Z.of_nat m) <= 1)%Q.
Proof.
  intros Hd Hm.
  assert (0 < inject_Z (Z.of_nat m))%Q as Hpos.
  { change 0%Q with (inject_Z 0). rewrite <- Zlt_Qlt. lia. }
  assert (0 <= inject_Z (Z.of_nat d) / inject_Z (Z.of_nat m))%Q as H0.
  { apply Qle_shift_div_l; [done|]. rewrite Qmult_0_l.
    change 0%Q with (inject_Z 0). rewrite <- Zle_Qle. lia. }
  assert (inject_Z (Z.of_nat d) / inject_Z (Z.of_nat m) <= 1)%Q as H1.
  { apply Qle_shift_div_r; [done|]. rewrite Qmult_1_l. rewrite <- Zle_Qle. lia. }
  split; lra.
Qed.

Lemma ratio_bounds s1 s2 : (0 <= ratio s1 s2 <= 1)%Q.
Proof.
  unfold ratio. destruct (decide _) as [|Hm]; [split; discriminate|].
  apply unit_fraction; [apply lev_le_max | lia].
Qed.

Lemma ratio_refl s : (ratio s s == 1)%Q.
Proof.
  unfold ratio. destruct (decide _); [done|]. rewrite lev_diag.
  unfold Qdiv. change (inject_Z (Z.of_nat 0)) with 0%Q. rewrite Qmult_0_l. lra.
Qed.

End LevenshteinFacts.

Module LevenshteinClaims.
Import Levenshtein LevenshteinSpec LevenshteinFacts.
(** C7. For all strings: [distance(a, a) = 0]; the distance is symmetric;
    the distance from the empty string to [x] is [len(x)]; the ratio lies in [[0, 1]]; [ratio(a, a)] is
    1; the ratio of two empty strings is 1. None of these calls raises. *)
Theorem levenshtein_properties (a b x : pystr) :
  levenshtein_distance a a = Ok 0 ∧
  levenshtein_distance a b = levenshtein_distance b a ∧
  levenshtein_distance [] x = Ok (length x) ∧
  (∃ r, levenshtein_ratio a b = Ok r ∧ (0 <= r <= 1)%Q) ∧
  (∃ r, levenshtein_ratio a a = Ok r ∧ (r == 1)%Q) ∧
  levenshtein_ratio [] [] = Ok 1%Q.
Proof.
  repeat split.
  - unfold levenshtein_distance. by rewrite decide_True.
  - by rewrite !levenshtein_distance_lev, lev_sym.
  - by rewrite levenshtein_distance_lev.
  - exists (ratio a b). split; [apply levenshtein_ratio_eq | apply ratio_bounds].
  - exists (ratio a a). split; [apply levenshtein_ratio_eq | apply ratio_refl].
Qed.
End LevenshteinClaims.

Module AlignFacts.
Import Levenshtein LevenshteinSpec LevenshteinFacts.

Lemma map_res_total {A B : Type} (f : A → Res B) (g : A → B) l :
  (∀ x, f x = Ok (g x)) → map_res f l = Ok (g <$> l).
Proof.
  intros Hf. induction l as [|x l IH]; [done|].
  simpl. rewrite Hf. res_step. rewrite IH. done.
Qed.

Lemma Qlt_bool_iff x y : Qlt_bool x y = true ↔ (x < y)%Q.
Proof.
  unfold Qlt_bool. rewrite negb_true_iff, <- not_true_iff_false, Qle_bool_iff.
  split; [apply Qnot_le_lt | apply Qlt_not_le].
Qed.

Lemma Qlt_bool_false x y : Qlt_bool x y = false ↔ (y <= x)%Q.
Proof.
  unfold Qlt_bool. rewrite negb_false_iff. apply Qle_bool_iff.
Qed.

Lemma argmax_from_spec l : ∀ best_idx best i,
  let k := argmax_from best_idx best i l in
  (k = best_idx ∧ Forall (λ y, (y <= best)%Q) l) ∨
  (∃ j m, k = i + j ∧ l !! j = Some m ∧ (best < m)%Q ∧ Forall (λ y, (y <= m)%Q) l).
Proof.
  induction l as [|x l IH]; intros best_idx best i; simpl.
  - left. done.
  - destruct (Qlt_bool best x) eqn:E.
    + apply Qlt_bool_iff in E. right.
      destruct (IH i x (S i)) as [[-> Hall]|(j & m & -> & Hj & Hlt & Hall)].
      * exists 0, x. rewrite Nat.add_0_r. repeat split; try done.
        constructor; [apply Qle_refl | done].
      * exists (S j), m. repeat split; [lia | done | lra |].
        constructor; [lra | done].
    + apply Qlt_bool_false in E.
      destruct (IH best_idx best (S i)) as [[-> Hall]|(j & m & -> & Hj & Hlt & Hall)].
      * left. split; [done|]. by constructor.
      * right. exists (S j), m. repeat split; [lia | done | done |].
        constructor; [lra | done].
Qed.

Lemma argmax_spec x l :
  ∃ k v, argmax (x :: l) = Ok k ∧ (x :: l) !! k = Some v ∧ is_max v (x :: l).
Proof.
  simpl. destruct (argmax_from_spec l 0 x 1) as [[-> Hall]|(j & m & -> & Hj & Hlt & Hall)].
  - exists 0, x. repeat split; try done; [left | constructor; [apply Qle_refl | done]].
  - exists (1 + j), m. repeat split; try done.
    + right. by eapply list_elem_of_lookup_2.
    + constructor; [lra | done].
Qed.

Lemma is_max_best_ratio v l :
  is_max v l → (0 <= v)%Q → (v == foldr Qmax 0 l)%Q.
Proof.
  intros [Hin Hall] H0. apply Qle_antisym.
  - clear Hall. induction l as [|y l IH]; [by apply elem_of_nil in Hin|].
    apply elem_of_cons in Hin as [->|Hin]; simpl.
    + apply Q.le_max_l.
    + eapply Qle_trans; [by apply IH | apply Q.le_max_r].
  - clear Hin. induction Hall as [|x l Hx Hall IH]; simpl; [done|].
    apply Q.max_lub; [done | apply IH].
Qed.

Lemma best_body_eq g x best :
  best_body g x best =
  Ok (if Qlt_bool best.2 (ratio g x.2) then (Z.of_nat x.1, ratio g x.2) else best).
Proof.
  unfold best_body. rewrite levenshtein_ratio_eq. res_step. by destruct (Qlt_bool _ _).
Qed.

(** the explicit scan of the [else] branch *)
Lemma scan_spec g (sources : list pystr) : ∀ (i : nat) (bi : Z) (bs : Q),
  ∃ bi' bs',
    for_ (zip (seq i (length sources)) sources) (best_body g) (bi, bs) = Ok (bi', bs') ∧
    ((bi' = bi ∧ bs' = bs ∧ Forall (λ y, (y <= bs)%Q) (ratio g <$> sources)) ∨
     (∃ j src, bi' = Z.of_nat (i + j) ∧ sources !! j = Some src ∧ bs' = ratio g src
               ∧ (bs < bs')%Q ∧ Forall (λ y, (y <= bs')%Q) (ratio g <$> sources))).
Proof.
  induction sources as [|s sources IH]; intros i bi bs.
  - exists bi, bs. split; [done|]. left. done.
  - cbn [length seq zip_with for_ fmap list_fmap]. rewrite best_body_eq. res_step. cbn [fst snd].
    destruct (Qlt_bool bs (ratio g s)) eqn:E; res_step.
    + apply Qlt_bool_iff in E.
      destruct (IH (S i) (Z.of_nat i) (ratio g s)) as (bi' & bs' & -> & Hcase).
      exists bi', bs'. split; [done|]. right.
      destruct Hcase as [(-> & -> & Hall)|(j & src & -> & Hj & -> & Hlt & Hall)].
      * exists 0, s. rewrite Nat.add_0_r. repeat split; try done.
        constructor; [apply Qle_refl | done].
      * exists (S j), src. repeat split; try done; [f_equal; lia | lra |].
        constructor; [lra | done].
    + apply Qlt_bool_false in E.
      destruct (IH (S i) bi bs) as (bi' & bs' & -> & Hcase).
      exists bi', bs'. split; [done|].
      destruct Hcase as [(-> & -> & Hall)|(j & src & -> & Hj & -> & Hlt & Hall)].
      * left. repeat split; try done. by constructor.
      * right. exists (S j), src. repeat split; try done; [f_equal; lia |].
        constructor; [lra | done].
Qed.

Lemma best_ratio_bounds g sources : (0 <= best_ratio g sources <= 1)%Q.
Proof.
  unfold best_ratio. induction sources as [|s l IH]; simpl; [split; discriminate|].
  pose proof (ratio_bounds g s). split.
  - eapply Qle_trans; [apply IH | apply Q.le_max_r].
  - apply Q.max_lub; [apply H | apply IH].
Qed.

Lemma getitem_int_nat {A : Type} (l : list A) (j : nat) x :
  l !! j = Some x → getitem_int l (Z.of_nat j) = Ok x.
Proof.
  intros Hj. unfold getitem_int.
  destruct (Z.ltb_spec (Z.of_nat j) 0); [lia|].
  rewrite Nat2Z.id. by apply getitem_Some.
Qed.

Lemma find_closest_text_spec text candidates threshold :
  candidates ≠ [] →
  ∃ k v, find_closest_text text candidates threshold
           = Ok (if Qle_bool threshold v then Z.of_nat k else (-1)%Z, v)
         ∧ (ratio text <$> candidates) !! k = Some v
         ∧ is_max v (ratio text <$> candidates).
Proof.
  intros Hne. destruct candidates as [|s0 cands]; [done|].
  unfold find_closest_text.
  rewrite (map_res_total _ (ratio text)) by apply levenshtein_ratio_eq. res_step.
  destruct (argmax_spec (ratio text s0) (ratio text <$> cands)) as (k & v & Hk & Hv & Hmax).
  change (ratio text s0 :: (ratio text <$> cands)) with (ratio text <$> s0 :: cands) in *.
  rewrite Hk. res_step. rewrite (getitem_Some _ _ _ Hv). res_step.
  exists k, v. split; [by destruct (Qle_bool _ _)|done].
Qed.

Lemma best_ratio_upper g sources s :
  s ∈ sources → (ratio g s <= best_ratio g sources)%Q.
Proof.
  unfold best_ratio. induction sources as [|x l IH]; [by intros ?%elem_of_nil|].
  intros [->|Hin]%elem_of_cons; cbn [fmap list_fmap foldr].
  - apply Q.le_max_l.
  - eapply Qle_trans; [by apply IH | apply Q.le_max_r].
Qed.

Lemma align_sentence_spec sources threshold g :
  sources ≠ [] →
  ∃ r, align_sentence sources threshold g = Ok r ∧ generated r = g
       ∧ record_ok sources threshold r.
Proof.
  intros Hne. unfold align_sentence.
  destruct (find_closest_text_spec g sources threshold Hne) as (k & v & -> & Hv & Hmax).
  res_step. set (srcs := sources) in *.
  assert (0 <= v <= 1)%Q as Hv01.
  { apply list_elem_of_lookup_2, list_elem_of_fmap in Hv as (y & -> & _). apply ratio_bounds. }
  assert (v == best_ratio g srcs)%Q as Hbest.
  { apply is_max_best_ratio; [done | apply Hv01]. }
  assert (∀ s, s ∈ srcs → (ratio g s <= v)%Q) as Hup.
  { intros s Hs. destruct Hmax as [_ Hall]. rewrite Forall_forall in Hall.
    apply Hall, list_elem_of_fmap. by exists s. }
  destruct (Qle_bool threshold v) eqn:Ethr; res_step.
  - apply Qle_bool_iff in Ethr.
    destruct (Z.leb_spec 0 (Z.of_nat k)); [|lia].
    rewrite list_lookup_fmap in Hv. destruct (srcs !! k) as [src|] eqn:Hsrc; [|done].
    injection Hv as <-.
    rewrite (getitem_int_nat _ _ _ Hsrc). res_step.
    eexists. split; [done|]. split; [done|]. unfold record_ok. simpl.
    rewrite <- Hbest. split_and!; try done; try apply Hv01; try exact Hup; try (intros s Hs; rewrite <- Hbest; by apply Hup).
    + split; [intros _; left; done | by eexists].
    + intros ? [= <-]. split; [by eapply list_elem_of_lookup_2 | done].
  - apply not_true_iff_false in Ethr. rewrite Qle_bool_iff in Ethr.
    apply Qnot_le_lt in Ethr.
    change (0 <=? -1)%Z with false. cbv iota.
    destruct (scan_spec g srcs 0 (-1)%Z 0%Q) as (bi & bs & Hrun & Hcase).
    unfold enumerate. rewrite Hrun. res_step.
    destruct Hcase as [(-> & -> & Hall)|(j & src & -> & Hj & -> & Hlt & Hall)].
    + change (0 <=? -1)%Z with false. cbn [andb]. cbv iota.
      assert (v == 0)%Q as Hv0.
      { apply Qle_antisym; [|apply Hv01]. destruct Hmax as [Hin _].
        rewrite Forall_forall in Hall. by apply Hall. }
      eexists. split; [done|]. split; [done|]. unfold record_ok. simpl.
      rewrite <- Hbest, Hv0. split_and!; try done; try (intros s Hs; rewrite <- Hv0; by apply Hup); try (intros s Hs; rewrite <- Hbest; by apply Hup).
      * split; [done | intros ?; lra].
      * split; [intros [? [=]] | intros [?|?]; lra].
    + simpl (0 + j) in *.
      destruct (Z.leb_spec 0 (Z.of_nat j)); [|lia]. cbn [andb].
      assert (ratio g src == v)%Q as Hsv.
      { destruct Hmax as [Hin Hall']. apply Qle_antisym.
        - rewrite Forall_forall in Hall'. apply Hall'.
          apply list_elem_of_fmap. exists src. split; [done|]. by eapply list_elem_of_lookup_2.
        - rewrite Forall_forall in Hall. by apply Hall. }
      destruct (Qle_bool 0.4 (ratio g src)) eqn:E04.
      * apply Qle_bool_iff in E04.
        rewrite (getitem_int_nat _ _ _ Hj). res_step.
        eexists. split; [done|]. split; [done|]. unfold record_ok. simpl.
        rewrite <- Hbest. split_and!; try done; try (rewrite Hsv; apply Hv01); try exact Hup; try (intros s Hs; rewrite <- Hbest; by apply Hup).
        -- split; [done | intros ?; lra].
        -- split; [intros _; right; lra | by eexists].
        -- intros ? [= <-]. split; [by eapply list_elem_of_lookup_2 | by rewrite <- Hbest].
      * apply not_true_iff_false in E04. rewrite Qle_bool_iff in E04.
        apply Qnot_le_lt in E04.
        eexists. split; [done|]. split; [done|]. unfold record_ok. simpl.
        rewrite <- Hbest. split_and!; try done; try (rewrite Hsv; apply Hv01); try exact Hup; try (intros s Hs; rewrite <- Hbest; by apply Hup).
        -- split; [done | intros ?; lra].
        -- split; [intros [? [=]] | intros [?|?]; lra].
Qed.

End AlignFacts.

Module BuilderFacts.
Import Levenshtein LevenshteinSpec LevenshteinFacts AlignFacts BuilderSpec.

Lemma truthy_Some o : truthy o = true → ∃ s, o = Some s ∧ s ≠ [].
Proof. destruct o as [[|c s]|]; try done. intros _. by eexists. Qed.

Lemma aligned_sources_spec rs :
  Some <$> aligned_sources rs = source <$> filter (λ r, grounded r) rs.
Proof.
  unfold aligned_sources. induction rs as [|r rs IH]; [done|].
  cbn [omap list_omap]. destruct (decide (grounded r)) as [Hg|Hg].
  - rewrite filter_cons_True by done. apply Is_true_true in Hg.
    unfold grounded in Hg. rewrite Hg.
    apply andb_true_iff in Hg as [_ (s & Hs & _)%truthy_Some]. rewrite Hs.
    cbn [fmap list_fmap]. by rewrite IH, Hs.
  - rewrite filter_cons_False by done. apply Is_true_false in Hg.
    unfold grounded in Hg. by rewrite Hg.
Qed.

Lemma best_matches_spec rs :
  best_matches rs = pair_of <$> filter (λ r, qualifies r) rs.
Proof.
  unfold best_matches. induction rs as [|r rs IH]; [done|].
  cbn [omap list_omap]. destruct (decide (qualifies r)) as [Hg|Hg].
  - rewrite filter_cons_True by done. apply Is_true_true in Hg.
    unfold qualifies in Hg. rewrite Hg.
    apply andb_true_iff in Hg as [(s & Hs & _)%truthy_Some _].
    cbn [fmap list_fmap]. unfold pair_of at 1. rewrite Hs. simpl. by rewrite IH.
  - rewrite filter_cons_False by done. apply Is_true_false in Hg.
    unfold qualifies in Hg. by rewrite Hg.
Qed.

Lemma insert_desc_records x l :
  insert_desc (pair_of x) (pair_of <$> l) = pair_of <$> insert_record x l.
Proof.
  induction l as [|y l IH]; [done|]. cbn [fmap list_fmap insert_desc insert_record].
  change ((pair_of x).2) with (similarity x). change ((pair_of y).2) with (similarity y).
  destruct (Qlt_bool (similarity x) (similarity y)); [|done].
  cbn [fmap list_fmap]. by rewrite <- IH.
Qed.

Lemma sort_desc_records l : sort_desc (pair_of <$> l) = pair_of <$> sort_records l.
Proof.
  unfold sort_desc, sort_records. induction l as [|x l IH]; [done|].
  cbn [fmap list_fmap foldr]. by rewrite IH, insert_desc_records.
Qed.

Lemma insert_record_perm x l : Permutation (insert_record x l) (x :: l).
Proof.
  induction l as [|y l IH]; [done|]. simpl.
  destruct (Qlt_bool _ _); [|done]. rewrite IH. apply perm_swap.
Qed.

Lemma sort_records_perm l : Permutation (sort_records l) l.
Proof.
  unfold sort_records. induction l as [|x l IH]; [done|]. simpl.
  by rewrite insert_record_perm, IH.
Qed.

Lemma insert_record_sorted x l :
  StronglySorted sim_ge l → StronglySorted sim_ge (insert_record x l).
Proof.
  induction 1 as [|y l Hs IH Hy]; simpl; [repeat constructor|].
  destruct (Qlt_bool (similarity x) (similarity y)) eqn:E.
  - apply Qlt_bool_iff in E. constructor; [done|].
    rewrite insert_record_perm. constructor; [unfold sim_ge; lra | done].
  - apply Qlt_bool_false in E. constructor; [by constructor|].
    constructor; [done|]. eapply Forall_impl; [exact Hy|].
    unfold sim_ge. intros z Hz. lra.
Qed.

Lemma sort_records_sorted l : StronglySorted sim_ge (sort_records l).
Proof.
  unfold sort_records. induction l as [|x l IH]; simpl; [constructor|].
  by apply insert_record_sorted.
Qed.

(** Stability: records of one similarity keep their order. *)
Lemma insert_record_stable q x l :
  StronglySorted sim_ge l →
  filter (λ r, Qeq_bool (similarity r) q = true) (insert_record x l) =
  filter (λ r, Qeq_bool (similarity r) q = true) (x :: l).
Proof.
  induction 1 as [|y l Hs IH Hy]; [done|]. simpl.
  destruct (Qlt_bool (similarity x) (similarity y)) eqn:E; [|done].
  apply Qlt_bool_iff in E. rewrite !filter_cons, IH, !filter_cons.
  destruct (decide (Qeq_bool (similarity y) q = true)) as [Hyq|Hyq]; [|done].
  destruct (decide (Qeq_bool (similarity x) q = true)) as [Hxq|Hxq]; [|done].
  apply Qeq_bool_iff in Hyq, Hxq. rewrite Hyq, Hxq in E. lra.
Qed.

Lemma sort_records_stable q l :
  filter (λ r, Qeq_bool (similarity r) q = true) (sort_records l) =
  filter (λ r, Qeq_bool (similarity r) q = true) l.
Proof.
  unfold sort_records. induction l as [|x l IH]; [done|]. simpl.
  rewrite insert_record_stable by apply sort_records_sorted.
  rewrite !filter_cons. by rewrite IH.
Qed.

Lemma sources_of_qualifying l :
  Forall (λ r, qualifies r) l →
  Some <$> (fst <$> (pair_of <$> l)) = source <$> l.
Proof.
  induction 1 as [|r l Hr _ IH]; [done|]. cbn [fmap list_fmap]. rewrite <- IH. f_equal.
  unfold qualifies in Hr. apply Is_true_true, andb_true_iff in Hr as [(s & Hs & _)%truthy_Some _].
  unfold pair_of. by rewrite Hs.
Qed.

(** The fallback parts, on records. *)
Lemma fallback_parts rs :
  Some <$> (fst <$> take 5 (sort_desc (best_matches rs)))
  = source <$> take 5 (sort_records (filter (λ r, qualifies r) rs)).
Proof.
  rewrite best_matches_spec, sort_desc_records, <- fmap_take.
  apply sources_of_qualifying. apply Forall_take.
  rewrite sort_records_perm. apply Forall_forall. intros r Hr.
  by apply list_elem_of_filter in Hr as [? _].
Qed.

Lemma answer_parts_primary rs :
  filter (λ r, grounded r) rs ≠ [] →
  Some <$> answer_parts rs = source <$> filter (λ r, grounded r) rs.
Proof.
  intros Hne. unfold answer_parts. pose proof (aligned_sources_spec rs) as Hs.
  destruct (aligned_sources rs) as [|p ps]; [|done].
  symmetry in Hs. by apply fmap_nil_inv in Hs.
Qed.

Lemma answer_parts_fallback rs :
  filter (λ r, grounded r) rs = [] →
  Some <$> answer_parts rs =
  source <$> take 5 (sort_records (filter (λ r, qualifies r) rs)).
Proof.
  intros Hnil. unfold answer_parts.
  pose proof (aligned_sources_spec rs) as Hs. rewrite Hnil in Hs.
  destruct (aligned_sources rs); [|done]. apply fallback_parts.
Qed.

Lemma build_of_parts rs :
  build_factual_response rs =
  match answer_parts rs with
  | [] => refusal
  | parts => str_join (py ". ") parts ++ py "."
  end.
Proof. reflexivity. Qed.

End BuilderFacts.

Module BM25Facts.
Import BM25 BM25Spec LevenshteinSpec LevenshteinFacts.

Ltac m_step :=
  cbn [mbind M_bind mret M_ret]; unfold lift, read, assign; cbn [mbind M_bind mret M_ret].

Ltac ranker_simpl :=
  unfold set_doc_freqs, set_idf, set_doc_lens, set_avg_doc_len, set_total_docs,
    set_corpus_terms;
  cbn [k1 b delta doc_freqs idf doc_lens avg_doc_len total_docs corpus_terms].

Lemma bind_run {A B : Type} (m : M A) (f : A → M B) self :
  (m ≫= f) self =
  match m self with
  | (self', Ok a) => f a self'
  | (self', Raise e) => (self', Raise e)
  end.
Proof. reflexivity. Qed.

Lemma ret_run {A : Type} (a : A) (self : BM25Ranker) : (mret a : M A) self = (self, Ok a).
Proof. reflexivity. Qed.

Section Fit.
Context {ud : UnicodeData} {nltk : Nltk}.

Lemma count_terms_run l : ∀ tdf self,
  ∃ tdf',
    for_M l count_term tdf self
      = (set_corpus_terms (list_to_set l ∪ corpus_terms self) self, Ok tdf')
    ∧ (NoDup l → ∀ t, default 0 (tdf' !! t)
               = default 0 (tdf !! t) + (if decide (t ∈ l) then 1 else 0)).
Proof.
  induction l as [|x l IH]; intros tdf self.
  - exists tdf. split.
    + cbn [for_M]. rewrite ret_run. destruct self; ranker_simpl. do 2 f_equal. set_solver.
    + intros _ t. rewrite decide_False by set_solver. lia.
  - cbn [for_M]. rewrite bind_run. unfold count_term at 1. rewrite bind_run.
    unfold assign. rewrite ret_run.
    destruct (IH (<[x:=default 0 (tdf !! x) + 1]> tdf)
                 (set_corpus_terms ({[x]} ∪ corpus_terms self) self)) as (tdf' & -> & Htdf).
    exists tdf'. split.
    + destruct self; ranker_simpl. do 2 f_equal. set_solver.
    + intros [Hx Hnd]%NoDup_cons t. rewrite (Htdf Hnd t).
      destruct (decide (t = x)) as [->|Hne].
      * rewrite lookup_insert_eq. cbn. rewrite decide_False by done.
        rewrite decide_True by set_solver. lia.
      * rewrite lookup_insert_ne by done.
        destruct (decide (t ∈ l)).
        -- rewrite decide_True by set_solver. done.
        -- rewrite decide_False by set_solver. done.
Qed.


Lemma fit_page_run page tdf toks self :
  ∃ tdf',
    fit_page page (tdf, toks) self
      = (set_corpus_terms (list_to_set (page_terms page) ∪ corpus_terms self)
           (set_doc_lens (doc_lens self ++ [length (page_terms page)]) self),
         Ok (tdf', toks ++ [page_terms page]))
    ∧ ∀ t, default 0 (tdf' !! t)
           = default 0 (tdf !! t) + (if decide (t ∈ page_terms page) then 1 else 0).
Proof.
  unfold fit_page. fold (page_terms page). rewrite bind_run. unfold assign.
  rewrite bind_run.
  destruct (count_terms_run (elements (list_to_set (page_terms page) : gset pystr)) tdf
              (set_doc_lens (doc_lens self ++ [length (page_terms page)]) self))
    as (tdf' & -> & Htdf).
  rewrite ret_run. exists tdf'. split.
  - rewrite list_to_set_elements_L. done.
  - intros t. rewrite (Htdf (NoDup_elements _) t).
    destruct (decide (t ∈ page_terms page)).
    + rewrite decide_True; [done|]. apply elem_of_elements. set_solver.
    + rewrite decide_False; [done|]. rewrite elem_of_elements. set_solver.
Qed.

Lemma doc_freq_cons p pages t :
  doc_freq (p :: pages) t = (if decide (t ∈ page_terms p) then 1 else 0) + doc_freq pages t.
Proof.
  unfold doc_freq. rewrite filter_cons. by destruct (decide _).
Qed.

Lemma fit_loop_run pages : ∀ tdf toks self,
  ∃ tdf',
    for_M pages fit_page (tdf, toks) self
      = (set_corpus_terms (terms_of pages ∪ corpus_terms self)
           (set_doc_lens (doc_lens self ++ (length <$> (page_terms <$> pages))) self),
         Ok (tdf', toks ++ (page_terms <$> pages)))
    ∧ ∀ t, default 0 (tdf' !! t) = default 0 (tdf !! t) + doc_freq pages t.
Proof.
  induction pages as [|p pages IH]; intros tdf toks self.
  - exists tdf. split.
    + cbn [for_M fmap list_fmap terms_of foldr]. rewrite ret_run, !app_nil_r.
      destruct self; ranker_simpl. do 2 f_equal; first [done | set_solver].
    + intros t. unfold doc_freq. cbn. lia.
  - cbn [for_M]. rewrite bind_run.
    destruct (fit_page_run p tdf toks self) as (tdf1 & -> & H1).
    destruct (IH tdf1 (toks ++ [page_terms p])
      (set_corpus_terms (list_to_set (page_terms p) ∪ corpus_terms self)
         (set_doc_lens (doc_lens self ++ [length (page_terms p)]) self)))
      as (tdf' & -> & H2).
    exists tdf'. split.
    + cbn [fmap list_fmap terms_of foldr]. rewrite <- !app_assoc. cbn [app].
      fold (terms_of pages).
      destruct self; ranker_simpl. do 2 f_equal; first [by rewrite <- app_assoc | set_solver].
    + intros t. rewrite H2, H1, doc_freq_cons. lia.
Qed.

Lemma doc_freq_le pages t : doc_freq pages t ≤ length pages.
Proof. unfold doc_freq. apply length_filter. Qed.


Lemma truediv_ok x y : y ≠ 0%R → truediv x y = Ok (x / y)%R.
Proof. intros Hy. unfold truediv. by destruct (Req_dec_T y 0). Qed.

Lemma truediv_zero x : truediv x 0 = Raise ZeroDivisionError.
Proof. unfold truediv. by destruct (Req_dec_T 0 0). Qed.

Lemma log_ok x : (0 < x)%R → log x = Ok (ln x).
Proof. intros Hx. unfold log. by destruct (Rlt_dec 0 x). Qed.

Lemma idf_arg_pos (N df : nat) :
  df ≤ N → (0 < (INR N - INR df + 0.5) / (INR df + 0.5) + 1.0)%R.
Proof.
  intros Hle. apply le_INR in Hle. pose proof (pos_INR df).
  assert (0 < (INR N - INR df + 0.5) / (INR df + 0.5))%R; [|Lra.lra].
  apply Rdiv_lt_0_compat; Lra.lra.
Qed.

Lemma set_idf_set_idf m1 m2 self : set_idf m2 (set_idf m1 self) = set_idf m2 self.
Proof. by destruct self. Qed.

Lemma idf_body_run term self :
  default 0 (doc_freqs self !! term) ≤ total_docs self →
  idf_body term tt self =
  (set_idf (<[term := idf_value (total_docs self)
                        (default 0 (doc_freqs self !! term)) term]> (idf self)) self,
   Ok tt).
Proof.
  intros Hle. unfold idf_body, read, lift, assign. rewrite !bind_run.
  pose proof (pos_INR (default 0 (doc_freqs self !! term))).
  rewrite truediv_ok by Lra.lra. rewrite !bind_run.
  rewrite log_ok by by apply idf_arg_pos. rewrite !bind_run.
  unfold idf_value. destruct (domain_terms !! term) as [w|].
  - rewrite bind_run. cbn [idf set_idf]. rewrite lookup_insert_eq. cbn [default].
    rewrite set_idf_set_idf, insert_insert_eq. done.
  - by rewrite ret_run.
Qed.

Lemma calculate_idf_loop l : ∀ self,
  (∀ t, default 0 (doc_freqs self !! t) ≤ total_docs self) →
  ∃ m, for_M l idf_body tt self = (set_idf m self, Ok tt)
       ∧ ∀ t, m !! t =
              if decide (t ∈ l)
              then Some (idf_value (total_docs self) (default 0 (doc_freqs self !! t)) t)
              else idf self !! t.
Proof.
  induction l as [|x l IH]; intros self Hdf.
  - exists (idf self). split; [by destruct self|].
    intros t. rewrite decide_False; [done|]. apply not_elem_of_nil.
  - cbn [for_M]. rewrite bind_run, idf_body_run by done.
    destruct (IH (set_idf (<[x := idf_value (total_docs self)
                    (default 0 (doc_freqs self !! x)) x]> (idf self)) self)) as (m & -> & Hm).
    { intros t. by destruct self. }
    exists m. split; [by rewrite set_idf_set_idf|].
    intros t. rewrite Hm. replace (total_docs (set_idf _ self)) with (total_docs self) by by destruct self.
    replace (doc_freqs (set_idf _ self)) with (doc_freqs self) by by destruct self.
    replace (idf (set_idf _ self)) with (<[x:=idf_value (total_docs self) (default 0 (doc_freqs self !! x)) x]> (idf self)) by by destruct self.
    destruct (decide (t ∈ l)) as [Hl|Hl].
    + rewrite decide_True; [done|]. by right.
    + destruct (decide (t = x)) as [->|Hne].
      * rewrite lookup_insert_eq, decide_True; [done|]. by left.
      * rewrite lookup_insert_ne by done. rewrite decide_False; [done|].
        by intros [?|?]%elem_of_cons.
Qed.

Lemma calculate_idf_run self :
  (∀ t, default 0 (doc_freqs self !! t) ≤ total_docs self) →
  ∃ m, _calculate_idf self = (set_idf m self, Ok tt)
       ∧ ∀ t, m !! t =
              if decide (t ∈ corpus_terms self)
              then Some (idf_value (total_docs self) (default 0 (doc_freqs self !! t)) t)
              else idf self !! t.
Proof.
  intros Hdf. unfold _calculate_idf, read. rewrite bind_run.
  destruct (calculate_idf_loop (elements (corpus_terms self)) self Hdf) as (m & -> & Hm).
  exists m. split; [done|]. intros t. rewrite Hm.
  destruct (decide (t ∈ corpus_terms self)).
  - rewrite decide_True; [done|]. by apply elem_of_elements.
  - rewrite decide_False; [done|]. by rewrite elem_of_elements.
Qed.

(** [fit] never raises; it returns the terms of the pages and leaves the
    ranker as [fitted] describes it. The terms of earlier corpora stay in
    [corpus_terms], and get a weight in the IDF table. *)
Theorem fit_run pages self :
  ∃ m df,
    fit pages self = (fitted self pages m df, Ok (page_terms <$> pages))
    ∧ (∀ t, default 0 (df !! t) = doc_freq pages t)
    ∧ (∀ t, m !! t =
            if decide (t ∈ terms_of pages ∪ corpus_terms self)
            then Some (idf_value (length pages) (doc_freq pages t) t)
            else idf self !! t).
Proof.
  unfold fit, assign, read, lift. rewrite !bind_run.
  destruct (fit_loop_run pages ∅ [] (set_doc_lens [] (set_total_docs (length pages) self)))
    as (df & -> & Hdf).
  rewrite !bind_run. rewrite truediv_ok.
  2:{ apply not_0_INR. lia. }
  rewrite !bind_run.
  match goal with |- context [_calculate_idf ?s] =>
    destruct (calculate_idf_run s) as (m & -> & Hm) end.
  { intros t. destruct self. cbn. rewrite Hdf, lookup_empty. cbn. apply doc_freq_le. }
  rewrite ret_run. exists m, df. split; [|split].
  - destruct self. unfold fitted. cbn. done.
  - intros t. rewrite Hdf, lookup_empty. done.
  - intros t. rewrite Hm. destruct self. cbn. rewrite Hdf, lookup_empty. done.
Qed.

End Fit.

Section Scoring.
Context {ud : UnicodeData} {nltk : Nltk}.

Lemma Counter_fold l : ∀ (m : gmap pystr nat) t,
  default 0 (foldl (λ m t, <[t := default 0 (m !! t) + 1]> m) m l !! t)
  = default 0 (m !! t) + term_count t l.
Proof.
  unfold term_count.
  induction l as [|x l IH]; intros m t; [cbn; lia|].
  cbn [foldl]. rewrite IH, filter_cons.
  destruct (decide (x = t)) as [->|Hne].
  - rewrite lookup_insert_eq. cbn. lia.
  - rewrite lookup_insert_ne by done. lia.
Qed.

Lemma Counter_lookup l t : default 0 (Counter l !! t) = term_count t l.
Proof. unfold Counter. by rewrite Counter_fold, lookup_empty. Qed.

Lemma saturation_pos self norm :
  (0 < k1 self)%R → (0 <= b self < 1)%R → (0 <= norm)%R → (0 < saturation self norm)%R.
Proof.
  intros Hk [Hb0 Hb1] Hn. unfold saturation.
  apply Rmult_lt_0_compat; [done|].
  assert (0 <= b self * norm)%R by by apply Rmult_le_pos. Lra.lra.
Qed.

(** The saturating fraction grows with the term frequency. *)
Lemma fraction_mono (x y c K : R) :
  (0 <= x <= y)%R → (0 < c)%R → (0 < K)%R →
  (x * c / (x + K) <= y * c / (y + K))%R.
Proof.
  intros [Hx Hxy] Hc HK.
  replace (x * c / (x + K))%R with (c - c * K * / (x + K))%R by (field; Lra.lra).
  replace (y * c / (y + K))%R with (c - c * K * / (y + K))%R by (field; Lra.lra).
  assert (/ (y + K) <= / (x + K))%R.
  { apply Rinv_le_contravar; Lra.lra. }
  assert (0 < c * K)%R by by apply Rmult_lt_0_compat.
  assert (c * K * / (y + K) <= c * K * / (x + K))%R.
  { apply Rmult_le_compat_l; Lra.lra. }
  Lra.lra.
Qed.

Lemma score_body_Some (self : BM25Ranker) (tfs : gmap pystr nat) (norm : R)
    (Q : list pystr) (t : pystr) (idf_t score : R) :
  idf self !! t = Some idf_t →
  (INR (default 0%nat (tfs !! t)) + saturation self norm ≠ 0)%R →
  score_body self tfs norm Q t score =
  Ok (score +
      (let ts := idf_t * (INR (default 0%nat (tfs !! t)) * (k1 self + 1)
                          / (INR (default 0%nat (tfs !! t)) + saturation self norm)
                          + delta self) in
       if bool_decide (t ∈ Q) then ts * 1.2 else ts))%R.
Proof.
  intros Hidf Hden. unfold score_body. rewrite Hidf.
  fold (saturation self norm). by rewrite truediv_ok.
Qed.

Lemma score_body_None (self : BM25Ranker) (tfs : gmap pystr nat) (norm : R)
    (Q : list pystr) (t : pystr) (score : R) :
  idf self !! t = None → score_body self tfs norm Q t score = Ok score.
Proof. intros Hidf. unfold score_body. by rewrite Hidf. Qed.

Lemma score_loop_mono (self : BM25Ranker) (cA cB : gmap pystr nat) (norm : R)
    (Q : list pystr) :
  (0 < k1 self)%R → (0 <= b self < 1)%R → (0 <= norm)%R → idf_nonneg self →
  (∀ t, default 0%nat (cA !! t) ≤ default 0%nat (cB !! t)) →
  ∀ q accA accB, (accA <= accB)%R →
    ∃ sA sB, for_ q (score_body self cA norm Q) accA = Ok sA
             ∧ for_ q (score_body self cB norm Q) accB = Ok sB
             ∧ (sA <= sB)%R.
Proof.
  intros Hk Hb Hn Hidf Hle q.
  pose proof (saturation_pos self norm Hk Hb Hn) as HK.
  induction q as [|t q IH]; intros accA accB Hacc.
  - exists accA, accB. done.
  - cbn [for_]. destruct (idf self !! t) as [v|] eqn:Ht.
    + pose proof (pos_INR (default 0%nat (cA !! t))) as HA.
      pose proof (pos_INR (default 0%nat (cB !! t))) as HB.
      rewrite !(score_body_Some _ _ _ _ _ v) by (done || Lra.lra). res_step.
      apply IH. specialize (Hidf _ _ Ht). specialize (Hle t). apply le_INR in Hle.
      pose proof (fraction_mono (INR (default 0%nat (cA !! t))) (INR (default 0%nat (cB !! t)))
                    (k1 self + 1) (saturation self norm)
                    (conj HA Hle) ltac:(Lra.lra) HK) as Hf.
      cbv zeta.
      assert (v * (INR (default 0%nat (cA !! t)) * (k1 self + 1)
                   / (INR (default 0%nat (cA !! t)) + saturation self norm) + delta self)
              <= v * (INR (default 0%nat (cB !! t)) * (k1 self + 1)
                   / (INR (default 0%nat (cB !! t)) + saturation self norm) + delta self))%R.
      { apply Rmult_le_compat_l; Lra.lra. }
      destruct (bool_decide (t ∈ Q)); Lra.lra.
    + rewrite !score_body_None by done. res_step. by apply IH.
Qed.

Lemma normalized_length_ok self doc_len :
  (0 < avg_doc_len self)%R →
  truediv (INR doc_len) (avg_doc_len self) = Ok (INR doc_len / avg_doc_len self)%R
  ∧ (0 <= INR doc_len / avg_doc_len self)%R.
Proof.
  intros Havg. split; [apply truediv_ok; Lra.lra|].
  apply Rmult_le_pos; [apply pos_INR|]. left. by apply Rinv_0_lt_compat.
Qed.

End Scoring.
End BM25Facts.

Module ScoreClaims.
Import BM25 BM25Spec BM25Facts LevenshteinSpec LevenshteinFacts.
Section S.
Context {ud : UnicodeData} {nltk : Nltk}.

(** C9. With the statistics of the ranker held fixed (IDF table, document
    lengths, average length; [k1 > 0], [0 <= b < 1], a positive average
    length and non-negative IDF weights), two pages scored at the same
    index, hence with the same length, are both given a score, and the page
    in which no term occurs less often does not score less. In particular a
    page with a query term does not score below the same page without it. *)
Theorem page_score_monotone (self : BM25Ranker) (pageA pageB query_terms : list pystr)
    (page_index : nat) :
  (0 < k1 self)%R → (0 <= b self < 1)%R →
  (0 < avg_doc_len self)%R → idf_nonneg self →
  page_index < length (doc_lens self) →
  (∀ t, term_count t pageA ≤ term_count t pageB) →
  ∃ sA sB,
    _calculate_page_score self pageA query_terms page_index = Ok sA ∧
    _calculate_page_score self pageB query_terms page_index = Ok sB ∧
    (sA <= sB)%R.
Proof.
  intros Hk Hb Havg Hidf Hi Hle. unfold _calculate_page_score.
  destruct (lookup_lt_is_Some_2 _ _ Hi) as [doc_len Hlen].
  rewrite (getitem_Some _ _ _ Hlen). res_step.
  destruct (normalized_length_ok self doc_len Havg) as [-> Hn]. res_step.
  apply score_loop_mono; try done; try Lra.lra.
  intros t. by rewrite !Counter_lookup.
Qed.
End S.
End ScoreClaims.

Module RankFacts.
Import BM25 BM25Spec BM25Facts LevenshteinSpec LevenshteinFacts RankSpec.

Lemma StronglySorted_sublist {A : Type} (R : A → A → Prop) (l1 l2 : list A) :
  l1 `sublist_of` l2 → StronglySorted R l2 → StronglySorted R l1.
Proof.
  induction 1 as [|x l1 l2 Hsub IH|x l1 l2 Hsub IH]; intros Hs; [done| |].
  - apply StronglySorted_cons in Hs as [Hall Hs]. apply StronglySorted_cons.
    split; [|by apply IH]. rewrite Forall_forall in *. intros y Hy.
    apply Hall. by eapply elem_of_sublist.
  - apply StronglySorted_cons in Hs as [_ Hs]. by apply IH.
Qed.

Lemma StronglySorted_rev {A : Type} (R : A → A → Prop) (l : list A) :
  StronglySorted R l → StronglySorted (flip R) (rev l).
Proof.
  induction 1 as [|x l Hs IH Hall]; [constructor|].
  cbn [rev]. apply StronglySorted_app. split_and!; [|done|repeat constructor].
  intros x1 x2 Hx1 ->%list_elem_of_singleton.
  rewrite Forall_forall in Hall. apply Hall. by rewrite <- Permutation_rev in Hx1.
Qed.

(** *** The stable instance of [np.argsort] *)

Lemma insert_idx_perm scores i l : Permutation (insert_idx scores i l) (i :: l).
Proof.
  induction l as [|j l IH]; [done|]. cbn [insert_idx].
  destruct (Rle_dec _ _); [done|]. rewrite IH. apply perm_swap.
Qed.

Lemma insert_idx_sorted scores i l :
  StronglySorted (flip (score_ge scores)) l →
  StronglySorted (flip (score_ge scores)) (insert_idx scores i l).
Proof.
  unfold flip, score_ge.
  induction 1 as [|j l Hs IH Hall]; cbn [insert_idx]; [repeat constructor|].
  destruct (Rle_dec (nth i scores 0%R) (nth j scores 0%R)) as [Hle|Hnle].
  - constructor; [by constructor|]. constructor; [done|].
    eapply Forall_impl; [exact Hall|]. cbn. intros k Hk. Lra.lra.
  - constructor; [done|]. rewrite insert_idx_perm. constructor; [Lra.lra|done].
Qed.

Lemma insertion_argsort_spec : argsort_spec insertion_argsort.
Proof.
  intros scores. unfold insertion_argsort.
  generalize (seq 0 (length scores)). intros l. split.
  - induction l as [|i l IH]; [done|]. cbn [foldr]. by rewrite insert_idx_perm, IH.
  - induction l as [|i l IH]; [constructor|]. cbn [foldr].
    by apply (insert_idx_sorted scores i).
Qed.

(** *** The policy *)

Lemma map_res_length {A B : Type} (f : A → Res B) l ys :
  map_res f l = Ok ys → length ys = length l.
Proof.
  revert ys. induction l as [|x l IH]; intros ys; cbn [map_res].
  - by intros [= <-].
  - destruct (f x); [|done]. res_step. destruct (map_res f l); [|done]. res_step.
    intros [= <-]. cbn. f_equal. by apply IH.
Qed.

Lemma nth_lookup_R (scores : list R) i s : scores !! i = Some s → nth i scores 0%R = s.
Proof. intros Hs. by apply nth_lookup_Some with (d:=0%R) in Hs. Qed.

Lemma above_spec scores thr l :
  (∀ i, i ∈ l → i < length scores) →
  ∃ r, above scores thr l = Ok r ∧ r `sublist_of` l
       ∧ ∀ i, i ∈ r → (thr < nth i scores 0)%R.
Proof.
  induction l as [|i l IH]; intros Hin.
  - exists []. split_and!; [done | done | by intros ? ?%elem_of_nil].
  - destruct IH as (r & Hr & Hsub & Hthr).
    { intros j Hj. apply Hin. by right. }
    destruct (lookup_lt_is_Some_2 scores i) as [s Hs]; [apply Hin; by left|].
    cbn [above]. rewrite (getitem_Some _ _ _ Hs), Hr. res_step.
    destruct (Rlt_dec thr s) as [Hlt|Hnlt].
    + exists (i :: r). split; [done|]. split; [by constructor|].
      intros j [->|Hj]%elem_of_cons; [by rewrite (nth_lookup_R _ _ _ Hs) | by apply Hthr].
    + exists r. split; [done|]. split; [by constructor|]. done.
Qed.

Lemma foldl_Rmax_spec l : ∀ x,
  (foldl Rmax x l = x ∨ foldl Rmax x l ∈ l)
  ∧ (x <= foldl Rmax x l)%R ∧ Forall (λ y, (y <= foldl Rmax x l)%R) l.
Proof.
  induction l as [|y l IH]; intros x; cbn [foldl].
  - split; [by left|]. split; [Lra.lra | constructor].
  - destruct (IH (Rmax x y)) as (Hin & Hle & Hall).
    pose proof (Rmax_l x y). pose proof (Rmax_r x y). split; [|split].
    + destruct Hin as [Heq|Hin]; [|right; by right].
      rewrite Heq. unfold Rmax. destruct (Rle_dec x y); [right; by left | by left].
    + Lra.lra.
    + constructor; [Lra.lra | done].
Qed.

Lemma max_list_spec scores :
  scores ≠ [] →
  ∃ m, max_list scores = Ok m ∧ m ∈ scores ∧ Forall (λ y, (y <= m)%R) scores.
Proof.
  destruct scores as [|x l]; [done|]. intros _. cbn [max_list].
  destruct (foldl_Rmax_spec l x) as (Hin & Hle & Hall).
  eexists. split; [done|]. split.
  - destruct Hin as [->|Hin]; [by left | by right].
  - by constructor.
Qed.

Lemma take_int_sublist {A : Type} k (l : list A) : take_int k l `sublist_of` l.
Proof. unfold take_int. destruct (k <? 0)%Z; apply sublist_take. Qed.

Section Policy.
Context {ud : UnicodeData} {nltk : Nltk} {numpy : Numpy}.

Lemma ranking_ok_of_sublist scores thr l :
  argsort_spec argsort →
  (∀ m, max_list scores = Ok m → thr = (m * 0.1)%R) →
  (scores = [] → l = []) →
  l `sublist_of` rev (argsort scores) →
  (∀ i, i ∈ l → (thr < nth i scores 0)%R) →
  ranking_ok scores l.
Proof.
  intros Hspec Hthr Hnil Hsub Habove. destruct (Hspec scores) as [Hperm Hsorted].
  unfold ranking_ok. split_and!.
  - eapply sublist_NoDup; [|exact Hsub]. rewrite <- Permutation_rev, Hperm. apply NoDup_seq.
  - intros i Hi. eapply elem_of_sublist in Hi; [|exact Hsub].
    rewrite <- Permutation_rev, Hperm in Hi. apply elem_of_seq in Hi. lia.
  - eapply StronglySorted_sublist; [exact Hsub|].
    by apply (StronglySorted_rev (λ i j, (nth i scores 0 <= nth j scores 0)%R)).
  - intros m Hm i Hi. rewrite <- (Hthr m Hm). by apply Habove.
  - intros Hzero. destruct scores as [|s scores]; [by apply Hnil|].
    destruct l as [|i l]; [done|]. exfalso.
    destruct (max_list_spec (s :: scores)) as (m & Hm & Hin & _); [done|].
    specialize (Habove i ltac:(by left)). rewrite (Hthr m Hm) in Habove.
    rewrite Forall_forall in Hzero. rewrite (Hzero m Hin) in Habove.
    assert (i < length (s :: scores)) as Hi.
    { assert (i ∈ rev (argsort (s :: scores))) as Hi
        by (eapply elem_of_sublist; [|exact Hsub]; by left).
      rewrite <- Permutation_rev, Hperm in Hi. apply elem_of_seq in Hi. lia. }
    destruct (lookup_lt_is_Some_2 _ _ Hi) as [si Hsi].
    rewrite (nth_lookup_R _ _ _ Hsi) in Habove.
    rewrite (Hzero si) in Habove; [Lra.lra|]. by eapply list_elem_of_lookup_2.
Qed.

Lemma rank_tokenized_spec self toks query top_k scores :
  argsort_spec argsort →
  page_scores self toks (_expand_query (_preprocess_text query true)) = Ok scores →
  ∃ l, rank_tokenized self toks query top_k = Ok l ∧ ranking_ok scores l.
Proof.
  intros Hspec Hscores. unfold rank_tokenized. rewrite Hscores. res_step.
  destruct (Hspec scores) as [Hperm _].
  assert (∃ thr, match scores with
                 | [] => Ok 0%R
                 | _ :: _ => max_list scores ≫= λ m : R, Ok (m * 0.1)%R
                 end = Ok thr
                 ∧ ∀ m, max_list scores = Ok m → thr = (m * 0.1)%R) as (thr & -> & Hthr).
  { destruct scores as [|s scores]; [by exists 0%R|].
    destruct (max_list_spec (s :: scores)) as (m & Hm & _); [done|].
    rewrite Hm. res_step. eexists. split; [done|]. by intros ? [= <-]. }
  res_step.
  destruct (above_spec scores thr (rev (argsort scores))) as (r & -> & Hsub & Habove).
  { intros i Hi. rewrite <- Permutation_rev, Hperm in Hi.
    apply elem_of_seq in Hi. lia. }
  res_step.
  assert (scores = [] → r = []) as Hnil.
  { intros ->. cbn in Hperm. apply Permutation_nil_r in Hperm. rewrite Hperm in Hsub.
    by apply sublist_nil_r in Hsub. }
  assert (∀ l, l `sublist_of` r → ranking_ok scores l) as Hok.
  { intros l Hl. apply (ranking_ok_of_sublist scores thr); try done.
    - intros ->. specialize (Hnil eq_refl). subst r. by apply sublist_nil_r in Hl.
    - by etrans.
    - intros i Hi. apply Habove. eapply elem_of_sublist; [exact Hi | exact Hl]. }
  destruct top_k as [k|]; [destruct (k <? _)%Z|]; eexists; (split; [done|]); apply Hok;
    [apply take_int_sublist | done | done].
Qed.

End Policy.
End RankFacts.

Module RankPagesFacts.
Import BM25 BM25Spec BM25Facts LevenshteinSpec LevenshteinFacts AlignFacts RankSpec RankFacts.

Section S.
Context {ud : UnicodeData} {nltk : Nltk} {numpy : Numpy}.

Lemma rank_pages_nil query top_k self : rank_pages [] query top_k self = (self, Ok []).
Proof. reflexivity. Qed.

Lemma rank_pages_run pages query top_k self :
  pages ≠ [] →
  ∃ m df,
    rank_pages pages query top_k self
      = (fitted self pages m df,
         rank_tokenized (fitted self pages m df) (page_terms <$> pages) query top_k)
    ∧ (∀ t, default 0 (df !! t) = doc_freq pages t)
    ∧ (∀ t, m !! t =
            if decide (t ∈ terms_of pages ∪ corpus_terms self)
            then Some (idf_value (length pages) (doc_freq pages t) t)
            else idf self !! t).
Proof.
  intros Hne. destruct pages as [|p pages]; [done|]. unfold rank_pages.
  destruct (fit_run (p :: pages) self) as (m & df & Hfit & Hdf & Hm).
  exists m, df. split; [|done]. rewrite bind_run, Hfit. unfold read, lift.
  by rewrite bind_run.
Qed.

Lemma score_loop_ok (self : BM25Ranker) (c : gmap pystr nat) (norm : R) (Q : list pystr) :
  (0 < k1 self)%R → (0 <= b self < 1)%R → (0 <= norm)%R →
  ∀ q acc, ∃ s, for_ q (score_body self c norm Q) acc = Ok s.
Proof.
  intros Hk Hb Hn q. pose proof (saturation_pos self norm Hk Hb Hn) as HK.
  induction q as [|t q IH]; intros acc; [by eexists|].
  cbn [for_]. destruct (idf self !! t) as [v|] eqn:Ht.
  - pose proof (pos_INR (default 0%nat (c !! t))).
    rewrite (score_body_Some _ _ _ _ _ v) by (done || Lra.lra). res_step. apply IH.
  - rewrite score_body_None by done. res_step. apply IH.
Qed.

Lemma page_score_ok self terms q i :
  (0 < k1 self)%R → (0 <= b self < 1)%R → (0 < avg_doc_len self)%R →
  i < length (doc_lens self) →
  ∃ s, _calculate_page_score self terms q i = Ok s.
Proof.
  intros Hk Hb Havg Hi. unfold _calculate_page_score.
  destruct (lookup_lt_is_Some_2 _ _ Hi) as [doc_len Hlen].
  rewrite (getitem_Some _ _ _ Hlen). res_step.
  destruct (normalized_length_ok self doc_len Havg) as [-> Hn]. res_step.
  by apply score_loop_ok.
Qed.

Lemma map_res_ok {A B : Type} (f : A → Res B) l :
  (∀ x, x ∈ l → ∃ y, f x = Ok y) → ∃ ys, map_res f l = Ok ys.
Proof.
  induction l as [|x l IH]; intros Hf; [by eexists|].
  cbn [map_res]. destruct (Hf x) as [y ->]; [by left|]. res_step.
  destruct IH as [ys ->]; [intros z Hz; apply Hf; by right|]. res_step. by eexists.
Qed.

Lemma elem_of_enumerate {A : Type} (l : list A) i x :
  (i, x) ∈ enumerate l → i < length l.
Proof.
  unfold enumerate. intros Hin. apply elem_of_zip_l in Hin.
  apply elem_of_seq in Hin. lia.
Qed.

Lemma page_scores_ok self toks q :
  (0 < k1 self)%R → (0 <= b self < 1)%R → (0 < avg_doc_len self)%R →
  length (doc_lens self) = length toks →
  ∃ scores, page_scores self toks q = Ok scores.
Proof.
  intros Hk Hb Havg Hlen. unfold page_scores. apply map_res_ok.
  intros [i terms] Hin. apply page_score_ok; try done.
  rewrite Hlen. by eapply elem_of_enumerate.
Qed.

Lemma page_scores_length self toks q scores :
  page_scores self toks q = Ok scores → length scores = length toks.
Proof.
  unfold page_scores. intros ->%map_res_length. unfold enumerate.
  rewrite length_zip_with, length_seq. lia.
Qed.

(** Average length of the pages of a fitted ranker. *)
Lemma sum_list_pos (l : list nat) : (∃ n, n ∈ l ∧ 0 < n) → 0 < sum_list l.
Proof.
  intros (n & Hin & Hn). induction l as [|x l IH]; [by apply elem_of_nil in Hin|].
  cbn. apply elem_of_cons in Hin as [<-|Hin]; [lia|]. specialize (IH Hin). lia.
Qed.

Lemma sum_list_zero (l : list nat) : Forall (λ n, n = 0) l → sum_list l = 0.
Proof. induction 1 as [|x l -> _ IH]; [done|]. by cbn. Qed.

Lemma fitted_avg_pos self pages m df :
  (∃ p, p ∈ pages ∧ page_terms p ≠ []) → (0 < avg_doc_len (fitted self pages m df))%R.
Proof.
  intros (p & Hp & Hne). cbn [avg_doc_len fitted].
  apply Rdiv_lt_0_compat.
  - apply (lt_INR 0). apply sum_list_pos. exists (length (page_terms p)). split.
    + apply list_elem_of_fmap. exists (page_terms p). split; [done|].
      apply list_elem_of_fmap. by exists p.
    + destruct (page_terms p); [done|cbn; lia].
  - apply (lt_INR 0). lia.
Qed.

Lemma fitted_avg_zero self pages m df :
  (∀ p, p ∈ pages → page_terms p = []) → avg_doc_len (fitted self pages m df) = 0%R.
Proof.
  intros Hall. cbn [avg_doc_len fitted]. rewrite sum_list_zero.
  - cbn. unfold Rdiv. apply Rmult_0_l.
  - apply Forall_forall. intros n (terms & -> & (p & -> & Hp)%list_elem_of_fmap)%list_elem_of_fmap.
    by rewrite (Hall p Hp).
Qed.

End S.
End RankPagesFacts.

Module RankClaims.
Import BM25 BM25Spec BM25Facts LevenshteinSpec LevenshteinFacts AlignFacts RankSpec RankFacts RankPagesFacts.

Section S.
Context {ud : UnicodeData} {nltk : Nltk} {numpy : Numpy}.

Lemma page_score_zero_division self terms q i :
  i < length (doc_lens self) → avg_doc_len self = 0%R →
  _calculate_page_score self terms q i = Raise ZeroDivisionError.
Proof.
  intros Hi Havg. unfold _calculate_page_score.
  destruct (lookup_lt_is_Some_2 (doc_lens self) i Hi) as [doc_len Hd].
  rewrite (getitem_Some _ _ _ Hd). res_step. by rewrite Havg, truediv_zero.
Qed.

Lemma page_scores_zero_division self p toks q :
  length (doc_lens self) = S (length toks) → avg_doc_len self = 0%R →
  page_scores self (p :: toks) q = Raise ZeroDivisionError.
Proof.
  intros Hlen Havg. unfold page_scores, enumerate. cbn [length seq zip_with map_res fst snd].
  rewrite page_score_zero_division; [done|lia|done].
Qed.

(** A corpus without any term: the average length is 0 and the length of
    the first page is divided by it. *)
Lemma rank_pages_raises pages query top_k self :
  pages ≠ [] → (∀ p, p ∈ pages → page_terms p = []) →
  ∃ self', rank_pages pages query top_k self = (self', Raise ZeroDivisionError).
Proof.
  intros Hne Hall. destruct (rank_pages_run pages query top_k self Hne) as (m & df & -> & _).
  eexists. f_equal. unfold rank_tokenized.
  destruct pages as [|p pages]; [done|]. cbn [fmap list_fmap].
  rewrite page_scores_zero_division; [done| |by apply fitted_avg_zero].
  cbn [doc_lens fitted fmap list_fmap length]. by rewrite !length_fmap.
Qed.

Lemma ranking_ok_nil scores : ranking_ok scores [].
Proof.
  unfold ranking_ok. split_and!.
  - apply NoDup_nil_2.
  - by intros ? ?%elem_of_nil.
  - constructor.
  - by intros ? _ ? ?%elem_of_nil.
  - done.
Qed.

(** What a call of [rank_pages] comes to. *)
Lemma rank_pages_outcome pages query top_k self :
  argsort_spec argsort →
  rank_pages [] query top_k self = (self, Ok []) ∧
  (∀ self' l, rank_pages pages query top_k self = (self', Ok l) →
     ∃ scores,
       (pages ≠ [] →
        page_scores self' (page_terms <$> pages) (expanded_query query) = Ok scores)
       ∧ length scores = length pages ∧ ranking_ok scores l) ∧
  ((0 < k1 self)%R → (0 <= b self < 1)%R → (∃ p, p ∈ pages ∧ page_terms p ≠ []) →
     ∃ self' l, rank_pages pages query top_k self = (self', Ok l)).
Proof.
  intros Hspec. split; [done|]. split.
  - intros self' l Hrun. destruct pages as [|p pages].
    + injection Hrun as <- <-. exists []. split; [done|]. split; [done|].
      apply ranking_ok_nil.
    + destruct (rank_pages_run (p :: pages) query top_k self) as (m & df & Hr & _); [done|].
      rewrite Hr in Hrun. pose proof (f_equal fst Hrun) as Hst.
      pose proof (f_equal snd Hrun) as Hrank. cbn [fst snd] in Hst, Hrank.
      subst self'. clear Hrun.
      destruct (page_scores (fitted self (p :: pages) m df) (page_terms <$> p :: pages)
                  (expanded_query query)) as [scores|e] eqn:Hs.
      * exists scores. split; [done|]. split.
        -- apply page_scores_length in Hs. by rewrite length_fmap in Hs.
        -- destruct (rank_tokenized_spec _ _ query top_k scores Hspec Hs) as (l' & Hl' & Hok).
           rewrite Hl' in Hrank. by injection Hrank as <-.
      * exfalso. revert Hrank. unfold rank_tokenized. unfold expanded_query in Hs.
        by rewrite Hs.
  - intros Hk Hb Hterms. destruct Hterms as (p & Hp & Hterm).
    assert (pages ≠ []) as Hne by (intros ->; by apply elem_of_nil in Hp).
    destruct (rank_pages_run pages query top_k self Hne) as (m & df & -> & _).
    destruct (page_scores_ok (fitted self pages m df) (page_terms <$> pages)
                (expanded_query query)) as [scores Hs]; try done.
    { apply fitted_avg_pos. by exists p. }
    { cbn [doc_lens fitted]. by rewrite !length_fmap. }
    destruct (rank_tokenized_spec _ _ query top_k scores Hspec Hs) as (l & -> & _).
    by eexists _, _.
Qed.

(** Scores of a query that has no term in the IDF table. *)
Lemma score_loop_no_idf (self : BM25Ranker) (c : gmap pystr nat) (norm : R)
    (Q q : list pystr) acc :
  (∀ t, t ∈ q → idf self !! t = None) → for_ q (score_body self c norm Q) acc = Ok acc.
Proof.
  revert acc. induction q as [|t q IH]; intros acc Hq; [done|].
  cbn [for_]. rewrite score_body_None by (apply Hq; by left). res_step.
  apply IH. intros u Hu. apply Hq. by right.
Qed.

Lemma page_score_no_idf self terms q i s :
  (∀ t, t ∈ q → idf self !! t = None) →
  _calculate_page_score self terms q i = Ok s → s = 0%R.
Proof.
  intros Hq. unfold _calculate_page_score.
  destruct (getitem (doc_lens self) i); res_step; [|done].
  destruct (truediv _ _); res_step; [|done].
  rewrite score_loop_no_idf by done. by intros [= <-].
Qed.

Lemma map_res_Forall {A B : Type} (f : A → Res B) (P : B → Prop) l ys :
  (∀ x y, f x = Ok y → P y) → map_res f l = Ok ys → Forall P ys.
Proof.
  intros Hf. revert ys. induction l as [|x l IH]; intros ys; cbn [map_res].
  - intros [= <-]. constructor.
  - destruct (f x) as [y|] eqn:Hy; res_step; [|done].
    destruct (map_res f l) as [ys'|]; res_step; [|done].
    intros [= <-]. constructor; [by eapply Hf | by apply IH].
Qed.

Lemma page_scores_no_idf self toks q scores :
  (∀ t, t ∈ q → idf self !! t = None) →
  page_scores self toks q = Ok scores → Forall (λ s, s = 0%R) scores.
Proof.
  intros Hq. unfold page_scores. apply map_res_Forall.
  intros [i terms] s. by apply page_score_no_idf.
Qed.

(** C3, as amended. In [VeritasCrewBuilder.build], when the number of pages
    is at most [BM25_TOP_K], the selected indices are [list(range(len(pages)))]
    in order, and the ranker is neither called nor modified. *)
Theorem top_pages_bypass BM25_TOP_K pages search_query ranker :
  (Z.of_nat (length pages) <= BM25_TOP_K)%Z →
  Agents.top_pages_indices BM25_TOP_K pages search_query ranker
  = (ranker, Ok (seq 0 (length pages))).
Proof.
  intros Hle. unfold Agents.top_pages_indices.
  destruct (Z.leb_spec (Z.of_nat (length pages)) BM25_TOP_K); [done|lia].
Qed.


(** *** Weights of the fitted table *)

Lemma domain_table_pos : Forall (λ tw : pystr * Q, (0 < tw.2)%Q) domain_table.
Proof. repeat (constructor; [reflexivity|]). constructor. Qed.

Lemma domain_terms_pos t w : domain_terms !! t = Some w → (0 < Q2R w)%R.
Proof.
  unfold domain_terms. intros Hin%elem_of_list_to_map_2.
  rewrite <- RMicromega.Q2R_0. apply Qlt_Rlt.
  pose proof domain_table_pos as Hall. rewrite Forall_forall in Hall.
  apply (Hall (t, w) Hin).
Qed.

Lemma idf_value_pos (N df : nat) t : df ≤ N → (0 < idf_value N df t)%R.
Proof.
  intros Hle. unfold idf_value.
  assert (0 < ln ((INR N - INR df + 0.5) / (INR df + 0.5) + 1.0))%R as Hln.
  { rewrite <- ln_1. apply ln_increasing; [Lra.lra|].
    apply le_INR in Hle. pose proof (pos_INR df).
    assert (0 < (INR N - INR df + 0.5) / (INR df + 0.5))%R; [|Lra.lra].
    apply Rdiv_lt_0_compat; Lra.lra. }
  destruct (domain_terms !! t) as [w|] eqn:Hw; [|done].
  apply Rmult_lt_0_compat; [done|]. by eapply domain_terms_pos.
Qed.

Lemma fitted_idf_pos self pages m df :
  idf_in_corpus self →
  (∀ t, m !! t =
        if decide (t ∈ terms_of pages ∪ corpus_terms self)
        then Some (idf_value (length pages) (doc_freq pages t) t)
        else idf self !! t) →
  idf_in_corpus (fitted self pages m df)
  ∧ ∀ t v, idf (fitted self pages m df) !! t = Some v → (0 < v)%R.
Proof.
  intros Hinv Hm. split.
  - intros t [v Hv]. cbn [idf corpus_terms fitted] in *. rewrite Hm in Hv.
    destruct (decide _) as [Hin|Hnin]; [done|].
    exfalso. apply Hnin. apply elem_of_union_r, Hinv. by eexists.
  - intros t v. cbn [idf fitted]. rewrite Hm.
    destruct (decide _) as [Hin|Hnin].
    + intros [= <-]. apply idf_value_pos, doc_freq_le.
    + intros Hv. exfalso. apply Hnin, elem_of_union_r, Hinv. by eexists.
Qed.

(** *** Two runs used against the claims *)

(** No term of the query is known: every page scores 0 and none is kept. *)
Lemma rank_pages_unknown_query pages query top_k self :
  argsort_spec argsort →
  (0 < k1 self)%R → (0 <= b self < 1)%R →
  (∃ p, p ∈ pages ∧ page_terms p ≠ []) →
  (∀ t, t ∈ expanded_query query →
        (t ∉ terms_of pages ∪ corpus_terms self) ∧ idf self !! t = None) →
  (rank_pages pages query top_k self).2 = Ok [].
Proof.
  intros Hspec Hk Hb Hterms Hunknown.
  destruct (rank_pages_outcome pages query top_k self Hspec) as (_ & Hok & Hret).
  destruct (Hret Hk Hb Hterms) as (self' & l & Hrun). rewrite Hrun. cbn [snd]. f_equal.
  destruct (Hok _ _ Hrun) as (scores & Hs & _ & Hrank).
  assert (pages ≠ []) as Hne.
  { destruct Hterms as (p & Hp & _). intros ->. by apply elem_of_nil in Hp. }
  specialize (Hs Hne). apply Hrank. eapply page_scores_no_idf; [|exact Hs].
  intros t Ht. destruct (Hunknown t Ht) as [Hnin Hnone].
  destruct (rank_pages_run pages query top_k self Hne) as (m & df & Hr & _ & Hm).
  rewrite Hr in Hrun. apply (f_equal fst) in Hrun. cbn [fst] in Hrun. subst self'.
  cbn [idf fitted]. rewrite Hm. by rewrite decide_False.
Qed.

Lemma rank_single_positive self toks query c :
  argsort_spec argsort →
  page_scores self toks (expanded_query query) = Ok [c] → (0 < c)%R →
  rank_tokenized self toks query None = Ok [0].
Proof.
  intros Hspec Hs Hc. unfold rank_tokenized. unfold expanded_query in Hs. rewrite Hs.
  res_step. destruct (Hspec [c]) as [Hperm _]. cbn [length seq] in Hperm.
  apply Permutation_singleton_r in Hperm. rewrite Hperm. cbn [rev app max_list foldl].
  res_step. cbn [above]. unfold getitem. cbn [lookup list_lookup]. res_step.
  destruct (Rlt_dec (c * 0.1) c); [done | Lra.lra].
Qed.

Lemma page_score_single_term self terms t i v :
  (0 < k1 self)%R → (0 <= b self < 1)%R → (0 < delta self)%R →
  (0 < avg_doc_len self)%R → i < length (doc_lens self) →
  idf self !! t = Some v → (0 < v)%R →
  ∃ s, _calculate_page_score self terms [t] i = Ok s ∧ (0 < s)%R.
Proof.
  intros Hk Hb Hd Havg Hi Ht Hv. unfold _calculate_page_score.
  destruct (lookup_lt_is_Some_2 _ _ Hi) as [doc_len Hlen].
  rewrite (getitem_Some _ _ _ Hlen). res_step.
  destruct (normalized_length_ok self doc_len Havg) as [-> Hn]. res_step.
  pose proof (saturation_pos self _ Hk Hb Hn) as HK.
  pose proof (pos_INR (default 0%nat (Counter terms !! t))) as Htf.
  cbn [for_]. rewrite (score_body_Some _ _ _ _ _ v) by (done || Lra.lra). res_step.
  eexists. split; [done|]. cbv zeta.
  set (tf := INR (default 0%nat (Counter terms !! t))) in *.
  assert (0 <= tf * (k1 self + 1) / (tf + saturation self (INR doc_len / avg_doc_len self)))%R.
  { apply Rmult_le_pos; [apply Rmult_le_pos; Lra.lra|].
    left. apply Rinv_0_lt_compat. Lra.lra. }
  assert (0 < v * (tf * (k1 self + 1)
                   / (tf + saturation self (INR doc_len / avg_doc_len self)) + delta self))%R.
  { apply Rmult_lt_0_compat; Lra.lra. }
  destruct (bool_decide _); Lra.lra.
Qed.

(** A query term met in an earlier corpus still has a weight: the only
    page of a one-page corpus that does not contain it is kept. *)
Lemma rank_pages_stale_term p query t self :
  argsort_spec argsort →
  (0 < k1 self)%R → (0 <= b self < 1)%R → (0 < delta self)%R →
  page_terms p ≠ [] → expanded_query query = [t] → t ∈ corpus_terms self →
  (rank_pages [p] query None self).2 = Ok [0].
Proof.
  intros Hspec Hk Hb Hd Hp Hq Ht.
  destruct (rank_pages_run [p] query None self) as (m & df & -> & _ & Hm); [done|].
  cbn [snd]. set (st := fitted self [p] m df).
  assert (idf st !! t = Some (idf_value 1 (doc_freq [p] t) t)) as Hidf.
  { cbn [idf st fitted]. rewrite Hm. rewrite decide_True; [done|]. by apply elem_of_union_r. }
  destruct (page_score_single_term st (page_terms p) t 0
              (idf_value 1 (doc_freq [p] t) t) Hk Hb Hd) as (c & Hc & Hpos);
    try exact Hidf.
  - apply fitted_avg_pos. exists p. split; [by left|done].
  - cbn. lia.
  - apply idf_value_pos. apply (doc_freq_le [p]).
  - apply (rank_single_positive st _ query c Hspec); [|done].
    rewrite Hq. unfold page_scores, enumerate. cbn [fmap list_fmap length seq zip_with map_res fst snd].
    rewrite Hc. done.
Qed.

(** C1, where the code departs from it. [rank_pages] is fatal on a corpus
    that is not empty and whose pages all tokenize to zero terms (empty or
    stop-word-only pages): it raises [ZeroDivisionError], whatever the
    query, the limit and the state of the ranker. *)
Theorem rank_pages_zero_division pages query top_k self :
  pages ≠ [] → (∀ p, p ∈ pages → page_terms p = []) →
  ∃ self', rank_pages pages query top_k self = (self', Raise ZeroDivisionError).
Proof. exact (rank_pages_raises pages query top_k self). Qed.

(** C4. On an empty corpus [rank_pages] returns [[]]. Whenever it returns a
    list, the list has no duplicates, holds indices of pages only, is sorted
    by decreasing score, keeps only pages whose score is strictly above
    [max(scores) * 0.1], and is empty when every page scores 0. It does
    return a list when some page has a term (for [k1 > 0] and
    [0 <= b < 1]); when the corpus is not empty and no page has a term it
    raises [ZeroDivisionError] instead. *)
Theorem rank_pages_policy pages query top_k self :
  argsort_spec argsort →
  rank_pages [] query top_k self = (self, Ok []) ∧
  (∀ self' l, rank_pages pages query top_k self = (self', Ok l) →
     ∃ scores,
       (pages ≠ [] →
        page_scores self' (page_terms <$> pages) (expanded_query query) = Ok scores)
       ∧ length scores = length pages ∧ ranking_ok scores l) ∧
  ((0 < k1 self)%R → (0 <= b self < 1)%R → (∃ p, p ∈ pages ∧ page_terms p ≠ []) →
     ∃ self' l, rank_pages pages query top_k self = (self', Ok l)) ∧
  (pages ≠ [] → (∀ p, p ∈ pages → page_terms p = []) →
     ∃ self', rank_pages pages query top_k self = (self', Raise ZeroDivisionError)).
Proof.
  intros Hspec.
  destruct (rank_pages_outcome pages query top_k self Hspec) as (Hnil & Hok & Hret).
  split_and!; [exact Hnil | exact Hok | exact Hret | apply rank_pages_raises].
Qed.

End S.
End RankClaims.

Module RankExamples.
Import BM25 BM25Spec BM25Facts LevenshteinSpec LevenshteinFacts AlignFacts RankSpec RankFacts RankPagesFacts RankClaims.
#[local] Existing Instances Plain.unicode Plain.nltk Plain.numpy.

(** Decides a closed membership by running it. *)
Ltac by_compute :=
  lazymatch goal with
  | |- ¬ ?P => apply (bool_decide_eq_false_1 P); vm_compute; reflexivity
  | |- ?P → False => apply (bool_decide_eq_false_1 P); vm_compute; reflexivity
  | |- ?P => apply (bool_decide_eq_true_1 P); vm_compute; reflexivity
  end.

Lemma terms_chat : page_terms (py "chat") = [py "chat"].
Proof. vm_compute. reflexivity. Qed.
Lemma terms_chien : page_terms (py "chien") = [py "chien"].
Proof. vm_compute. reflexivity. Qed.
Lemma terms_blank : page_terms (py " ") = [].
Proof. vm_compute. reflexivity. Qed.
Lemma terms_stop_words : page_terms (py "le la les") = [].
Proof. vm_compute. reflexivity. Qed.
Lemma query_chien : expanded_query (py "chien") = [py "chien"].
Proof. vm_compute. reflexivity. Qed.
Lemma query_oiseau : expanded_query (py "oiseau") = [py "oiseau"].
Proof. vm_compute. reflexivity. Qed.

Lemma plain_argsort_spec : argsort_spec (@argsort Plain.numpy).
Proof. exact insertion_argsort_spec. Qed.

(** C1, at the corpus of a blank page and a page of stop words. *)
Lemma rank_pages_zero_division_blank_pages :
  [py " "; py "le la les"] ≠ [] ∧
  (∀ p, p ∈ [py " "; py "le la les"] → page_terms p = []) ∧
  ∃ self', rank_pages [py " "; py "le la les"] (py "chien") None default_ranker
           = (self', Raise ZeroDivisionError).
Proof.
  assert (∀ p, p ∈ [py " "; py "le la les"] → page_terms p = []) as H.
  { intros p [->| ->%list_elem_of_singleton]%elem_of_cons;
      [exact terms_blank | exact terms_stop_words]. }
  split; [done|]. split; [exact H|].
  exact (rank_pages_zero_division [py " "; py "le la les"] (py "chien") None
           default_ranker ltac:(done) H).
Defined.

(** C3 fails on [rank_pages]: with two pages and a limit of 5, a query
    that has no term in the corpus gives the empty list, not [[0, 1]]. *)
Lemma rank_pages_has_no_bypass :
  (Z.of_nat (length [py "chat"; py "chien"]) <= 5)%Z ∧
  (rank_pages [py "chat"; py "chien"] (py "oiseau") (Some 5%Z) default_ranker).2 = Ok [] ∧
  (rank_pages [py "chat"; py "chien"] (py "oiseau") (Some 5%Z) default_ranker).2
    ≠ Ok (seq 0 (length [py "chat"; py "chien"])).
Proof.
  assert ((rank_pages [py "chat"; py "chien"] (py "oiseau") (Some 5%Z) default_ranker).2
          = Ok []) as Hrun.
  { apply rank_pages_unknown_query.
    - exact plain_argsort_spec.
    - cbn. Lra.lra.
    - cbn. Lra.lra.
    - exists (py "chat"). split; [by left|]. by rewrite terms_chat.
    - rewrite query_oiseau. intros t ->%list_elem_of_singleton. split; [|done].
      cbn [corpus_terms default_ranker init terms_of foldr]. rewrite terms_chat, terms_chien.
      by_compute. }
  split; [cbn; lia|]. split; [exact Hrun|]. rewrite Hrun. discriminate.
Qed.

(** C2, where the code departs from it. After a call on the corpus
    ["chien"], the term stays in [corpus_terms] and keeps a weight in the
    IDF table; the same call on the corpus ["chat"] with the query "chien"
    then returns [[0]], and [[]] on a new ranker. *)
Theorem rank_pages_depends_on_earlier_calls :
  let earlier := (rank_pages [py "chien"] (py "chien") None default_ranker).1 in
  (rank_pages [py "chat"] (py "chien") None default_ranker).2 = Ok [] ∧
  (rank_pages [py "chat"] (py "chien") None earlier).2 = Ok [0].
Proof.
  intros earlier. split.
  - apply rank_pages_unknown_query.
    + exact plain_argsort_spec.
    + cbn. Lra.lra.
    + cbn. Lra.lra.
    + exists (py "chat"). split; [by left|]. by rewrite terms_chat.
    + rewrite query_chien. intros t ->%list_elem_of_singleton. split; [|done].
      cbn [corpus_terms default_ranker init terms_of foldr]. rewrite terms_chat.
      by_compute.
  - destruct (rank_pages_run [py "chien"] (py "chien") None default_ranker)
      as (m & df & Hr & _); [done|].
    subst earlier. rewrite Hr. cbn [fst].
    apply (rank_pages_stale_term _ _ (py "chien")).
    + exact plain_argsort_spec.
    + cbn. Lra.lra.
    + cbn. Lra.lra.
    + cbn. Lra.lra.
    + by rewrite terms_chat.
    + exact query_chien.
    + cbn [corpus_terms fitted default_ranker init terms_of foldr]. rewrite terms_chien.
      by_compute.
Qed.

End RankExamples.

Module AlignClaims.
Import Levenshtein LevenshteinSpec LevenshteinFacts AlignFacts.

Lemma map_res_each {A B : Type} (f : A → Res B) (P : B → Prop) l :
  (∀ x, ∃ y, f x = Ok y ∧ P y) → ∃ ys, map_res f l = Ok ys ∧ Forall P ys.
Proof.
  intros Hf. induction l as [|x l (ys & Hys & Hall)]; [by exists []|].
  destruct (Hf x) as (y & Hy & HP). exists (y :: ys).
  cbn [map_res]. rewrite Hy. res_step. rewrite Hys. res_step. split; [done|by constructor].
Qed.

(** C5. [align_response] returns, and each record it returns satisfies
    [record_ok]: its similarity is the best ratio of its sentence against
    the source sentences and lies in [[0, 1]]; it is aligned exactly when
    that best ratio reaches the threshold; its source is present exactly
    when the best ratio reaches the threshold or 0.4, and is then a source
    sentence of that best ratio. *)
Theorem align_response_records `{SentenceTokenizer} (response : pystr)
    (source_sentences : list pystr) (threshold : Q) :
  ∃ records,
    align_response response source_sentences threshold = Ok records ∧
    Forall (record_ok source_sentences threshold) records.
Proof.
  unfold align_response.
  destruct response as [|c response]; [by exists []|].
  destruct source_sentences as [|s0 sources]; [by exists []|].
  apply map_res_each. intros g.
  destruct (align_sentence_spec (s0 :: sources) threshold g) as (r & Hr & _ & Hok); [done|].
  by exists r.
Qed.

(** C8. With an empty response, or with no source sentence,
    [align_response] returns the empty list and does not raise. *)
Theorem align_response_empty `{SentenceTokenizer} (text : pystr)
    (sources : list pystr) (threshold : Q) :
  align_response [] sources threshold = Ok [] ∧
  align_response text [] threshold = Ok [].
Proof. split; [done|]. by destruct text. Qed.

End AlignClaims.

Module BuilderClaims.
Import Levenshtein LevenshteinSpec LevenshteinFacts AlignFacts BuilderSpec BuilderFacts.

(** C6 fails as stated: a record with [aligned = true] whose source is
    absent or empty is left out, and when no other record is aligned the
    fallback path is taken. *)
Lemma build_is_not_the_claimed_answer :
  (let records := [record_of None 1 true; record_of (Some (py "Phrase source")) 0.5 false] in
   build_factual_response records = py "Phrase source." ∧
   claimed_answer records = py ".") ∧
  (let records := [record_of (Some []) 1 true; record_of (Some (py "Phrase source")) 1 true] in
   build_factual_response records = py "Phrase source." ∧
   claimed_answer records = py ". Phrase source.").
Proof. vm_compute. repeat split. Qed.

Lemma parts_are_sources (rs : list AlignmentRecord) (parts : list pystr)
    (chosen : list AlignmentRecord) :
  Some <$> parts = source <$> chosen → chosen ⊆ rs →
  Forall (λ p, ∃ r, r ∈ rs ∧ source r = Some p) parts.
Proof.
  revert chosen. induction parts as [|p parts IH]; intros [|r chosen]; try done.
  intros [= Hp Hrest] Hsub. constructor.
  - exists r. split; [apply Hsub; by left | done].
  - apply (IH chosen Hrest). intros x Hx. apply Hsub. by right.
Qed.

(** C6, as amended. The answer is built from the records that are aligned
    and have a non-empty source, in the order of the list; when there is
    none, from the first five, by decreasing similarity (records of equal
    similarity in their original order), of the records with a non-empty
    source and a similarity of at least 0.3. The sources of the chosen
    records are joined with ". " and a final full stop; with no chosen
    record the answer is the refusal. Every joined part is the source of a
    record. *)
Theorem build_factual_response_spec (records : list AlignmentRecord) :
  let primary := filter (λ r, grounded r) records in
  let candidates := filter (λ r, qualifies r) records in
  ∃ (sorted chosen : list AlignmentRecord) (parts : list pystr),
    Permutation sorted candidates ∧
    StronglySorted sim_ge sorted ∧
    (∀ q, filter (λ r, Qeq_bool (similarity r) q = true) sorted
          = filter (λ r, Qeq_bool (similarity r) q = true) candidates) ∧
    chosen = (if decide (primary = []) then take 5 sorted else primary) ∧
    Some <$> parts = source <$> chosen ∧
    Forall (λ p, ∃ r, r ∈ records ∧ source r = Some p) parts ∧
    build_factual_response records =
      (if decide (chosen = []) then refusal else str_join (py ". ") parts ++ py ".").
Proof.
  intros primary candidates.
  set (chosen := if decide (primary = []) then take 5 (sort_records candidates) else primary).
  exists (sort_records candidates), chosen, (answer_parts records).
  assert (Some <$> answer_parts records = source <$> chosen) as Hparts.
  { unfold chosen. destruct (decide (primary = [])) as [Hnil|Hne];
      [by apply answer_parts_fallback | by apply answer_parts_primary]. }
  assert (chosen ⊆ records) as Hsub.
  { intros r Hr. unfold chosen in Hr. destruct (decide (primary = [])).
    - assert (r ∈ sort_records candidates) as Hr'
        by (eapply elem_of_sublist; [exact Hr | apply sublist_take]).
      rewrite sort_records_perm in Hr'. by apply list_elem_of_filter in Hr' as [_ ?].
    - by apply list_elem_of_filter in Hr as [_ ?]. }
  split_and!; try done.
  - apply sort_records_perm.
  - apply sort_records_sorted.
  - intros q. apply sort_records_stable.
  - by apply (parts_are_sources _ _ _ Hparts).
  - rewrite build_of_parts. clearbody chosen.
    destruct (answer_parts records) as [|p parts] eqn:Hp.
    + symmetry in Hparts. apply fmap_nil_inv in Hparts. by rewrite Hparts, decide_True.
    + destruct (decide (chosen = [])) as [Hnil|]; [|done]. by rewrite Hnil in Hparts.
Qed.

(** C10 fails as stated: an aligned record whose source is the empty
    string contributes nothing, and of six records that qualify for the
    fallback only five contribute. *)
Lemma some_records_do_not_contribute :
  (let records := [record_of (Some []) 1 true] in
   length (filter (λ r, aligned r = true ∧ source r = Some []) records) = 1 ∧
   length (filter (λ p, p = []) (answer_parts records)) = 0 ∧
   build_factual_response records = refusal) ∧
  (let records := replicate 6 (record_of (Some (py "Phrase source")) 0.5 false) in
   length (filter (λ r, is_Some (source r) ∧ Qle_bool 0.3 (similarity r) = true) records) = 6 ∧
   length (answer_parts records) = 5).
Proof. vm_compute. repeat split. Qed.

Lemma count_fmap_Some (s : pystr) (parts : list pystr) (chosen : list AlignmentRecord) :
  Some <$> parts = source <$> chosen →
  length (filter (λ p, p = s) parts) = length (filter (λ r, source r = Some s) chosen).
Proof.
  revert chosen. induction parts as [|p parts IH]; intros [|r chosen]; try done.
  intros [= Hp Hrest]. rewrite !filter_cons, <- Hp.
  destruct (decide (p = s)) as [->|Hne].
  - rewrite decide_True by done. cbn. f_equal. by apply IH.
  - rewrite decide_False by congruence. by apply IH.
Qed.

Lemma filter_grounded_source (s : pystr) (rs : list AlignmentRecord) :
  s ≠ [] →
  filter (λ r, source r = Some s) (filter (λ r, grounded r) rs)
  = filter (λ r, aligned r = true ∧ source r = Some s) rs.
Proof.
  intros Hs. rewrite list_filter_filter. apply list_filter_iff. intros r.
  unfold grounded. split.
  - intros [Hsrc Hg]. apply Is_true_true, andb_true_iff in Hg as [Hal _]. done.
  - intros [Hal Hsrc]. split; [done|]. rewrite Hal, Hsrc. by destruct s.
Qed.

(** C10, as amended. Nothing is deduplicated: a non-empty sentence carried
    by [k >= 1] aligned records is [k] times among the joined parts; on the
    fallback path the parts are the sources of the first five records, by
    decreasing similarity, among those that qualify, one part for each, so
    there are [min(5, n)] parts for [n] qualifying records. *)
Theorem build_keeps_duplicates (records : list AlignmentRecord) (s : pystr) :
  s ≠ [] →
  let k := length (filter (λ r, aligned r = true ∧ source r = Some s) records) in
  (0 < k →
     length (filter (λ p, p = s) (answer_parts records)) = k ∧
     build_factual_response records
       = str_join (py ". ") (answer_parts records) ++ py ".") ∧
  (filter (λ r, grounded r) records = [] →
     length (answer_parts records)
       = 5 `min` length (filter (λ r, qualifies r) records) ∧
     ∃ sorted, Permutation sorted (filter (λ r, qualifies r) records) ∧
               StronglySorted sim_ge sorted ∧
               Some <$> answer_parts records = source <$> take 5 sorted).
Proof.
  intros Hs k. split.
  - intros Hk.
    assert (filter (λ r, grounded r) records ≠ []) as Hne.
    { intros Hnil. subst k. rewrite <- (filter_grounded_source s) in Hk by done.
      rewrite Hnil in Hk. cbn in Hk. lia. }
    pose proof (answer_parts_primary records Hne) as Hparts. split.
    + rewrite (count_fmap_Some s _ _ Hparts). by rewrite filter_grounded_source.
    + rewrite build_of_parts. destruct (answer_parts records); [|done].
      symmetry in Hparts. by apply fmap_nil_inv in Hparts.
  - intros Hnil. pose proof (answer_parts_fallback records Hnil) as Hparts. split.
    + apply (f_equal length) in Hparts. rewrite !length_fmap, length_take in Hparts.
      rewrite Hparts. by rewrite sort_records_perm.
    + exists (sort_records (filter (λ r, qualifies r) records)).
      split; [apply sort_records_perm|]. split; [apply sort_records_sorted | done].
Qed.

(** C10 (amended), at two aligned records with the same source. *)
Lemma build_keeps_duplicates_twice :
  py "Phrase source" ≠ [] ∧
  let records := [record_of (Some (py "Phrase source")) 0.9 true; record_of None 0.1 false;
                  record_of (Some (py "Phrase source")) 0.8 true] in
  length (filter (λ p, p = py "Phrase source") (answer_parts records)) = 2 ∧
  build_factual_response records = py "Phrase source. Phrase source.".
Proof.
  split; [done|]. intros records.
  destruct (build_keeps_duplicates records (py "Phrase source") ltac:(done)) as [H _].
  destruct (H ltac:(vm_compute; lia)) as [H1 H2]. split.
  - rewrite H1. vm_compute. reflexivity.
  - vm_compute. reflexivity.
Defined.

End BuilderClaims.

Module Witnesses.
Import BM25 BM25Spec BM25Facts LevenshteinSpec LevenshteinFacts AlignFacts RankSpec RankFacts RankPagesFacts RankClaims RankExamples ScoreClaims.
#[local] Existing Instances Plain.unicode Plain.nltk Plain.numpy.

Lemma terms_chat_chien : page_terms (py "chat chien") = [py "chat"; py "chien"; py "chat_chien"].
Proof. vm_compute. reflexivity. Qed.

(** C3 (amended), at a corpus of two pages and the default limit of 20. *)
Lemma top_pages_bypass_two_pages :
  (Z.of_nat (length [py "chat"; py "chien"]) <= 20)%Z ∧
  Agents.top_pages_indices 20 [py "chat"; py "chien"] (py "oiseau") default_ranker
  = (default_ranker, Ok [0; 1]).
Proof.
  assert (Z.of_nat (length [py "chat"; py "chien"]) <= 20)%Z as H by (cbn; lia).
  split; [exact H|].
  exact (top_pages_bypass 20 [py "chat"; py "chien"] (py "oiseau") default_ranker H).
Defined.

(** C4, at a corpus of two pages on a new ranker with the default parameters. *)
Lemma rank_pages_policy_two_pages :
  argsort_spec (@argsort Plain.numpy) ∧
  (0 < k1 default_ranker)%R ∧ (0 <= b default_ranker < 1)%R ∧
  (∃ p, p ∈ [py "chat"; py "chat chien"] ∧ page_terms p ≠ []) ∧
  ∃ self' l scores,
    rank_pages [py "chat"; py "chat chien"] (py "chien") None default_ranker = (self', Ok l) ∧
    page_scores self' (page_terms <$> [py "chat"; py "chat chien"])
      (expanded_query (py "chien")) = Ok scores ∧
    ranking_ok scores l.
Proof.
  assert (0 < k1 default_ranker)%R as Hk by (cbn; Lra.lra).
  assert (0 <= b default_ranker < 1)%R as Hb by (cbn; Lra.lra).
  assert (∃ p, p ∈ [py "chat"; py "chat chien"] ∧ page_terms p ≠ []) as Hp.
  { exists (py "chat"). split; [by left|]. by rewrite terms_chat. }
  split; [exact plain_argsort_spec|]. split; [exact Hk|]. split; [exact Hb|].
  split; [exact Hp|].
  destruct (rank_pages_policy [py "chat"; py "chat chien"] (py "chien") None
              default_ranker plain_argsort_spec) as (_ & Hok & Hret & _).
  destruct (Hret Hk Hb Hp) as (self' & l & Hrun).
  destruct (Hok self' l Hrun) as (scores & Hs & _ & Hrank).
  exists self', l, scores. split; [exact Hrun|]. split; [by apply Hs | exact Hrank].
Defined.

(** C9, at the ranker fitted on two pages: a page with one more occurrence
    of the query term than another of the same length does not score less. *)
Lemma page_score_monotone_fitted :
  let self := (fit [py "chat"; py "chat chien"] default_ranker).1 in
  (0 < k1 self)%R ∧ (0 <= b self < 1)%R ∧ (0 < avg_doc_len self)%R ∧ idf_nonneg self ∧
  0 < length (doc_lens self) ∧
  (∀ t, term_count t [py "chat"] ≤ term_count t [py "chat"; py "chien"]) ∧
  ∃ sA sB,
    _calculate_page_score self [py "chat"] [py "chien"] 0 = Ok sA ∧
    _calculate_page_score self [py "chat"; py "chien"] [py "chien"] 0 = Ok sB ∧
    (sA <= sB)%R.
Proof.
  destruct (fit_run [py "chat"; py "chat chien"] default_ranker) as (m & df & Hfit & _ & Hm).
  rewrite Hfit. cbn [fst]. set (self := fitted _ _ m df).
  assert (0 < k1 self)%R as Hk by (cbn; Lra.lra).
  assert (0 <= b self < 1)%R as Hb by (cbn; Lra.lra).
  assert (0 < avg_doc_len self)%R as Havg.
  { apply fitted_avg_pos. exists (py "chat"). split; [by left|]. by rewrite terms_chat. }
  assert (idf_nonneg self) as Hidf.
  { intros t v Hv. left. eapply (fitted_idf_pos default_ranker); [|exact Hm|exact Hv].
    intros u [w Hw]. cbn in Hw. by rewrite lookup_empty in Hw. }
  assert (0 < length (doc_lens self)) as Hi by (cbn; lia).
  assert (∀ t, term_count t [py "chat"] ≤ term_count t [py "chat"; py "chien"]) as Hle.
  { intros t. unfold term_count. rewrite !filter_cons, !filter_nil.
    repeat case_decide; cbn; lia. }
  split; [exact Hk|]. split; [exact Hb|]. split; [exact Havg|]. split; [exact Hidf|].
  split; [exact Hi|]. split; [exact Hle|].
  exact (page_score_monotone self [py "chat"] [py "chat"; py "chien"] [py "chien"] 0
           Hk Hb Havg Hidf Hi Hle).
Defined.

End Witnesses.

Module MetricFacts.
Import Levenshtein LevenshteinSpec LevenshteinFacts AlignFacts.

Lemma lev_0_l s1 s2 j : lev s1 s2 0 j = j.
Proof. done. Qed.

(** The table never falls below the difference of its indices. *)
Lemma lev_ge_diff s1 s2 i : ∀ j, i ≤ lev s1 s2 i j + j ∧ j ≤ lev s1 s2 i j + i.
Proof.
  induction i as [|i IHi]; intros j.
  - rewrite lev_0_l. lia.
  - induction j as [|j IHj].
    + rewrite lev_0_r. lia.
    + rewrite lev_S_S. unfold min3.
      pose proof (IHi (S j)). pose proof (IHi j).
      case_decide; lia.
Qed.

(** One more character on either side costs at most one edit. *)
Lemma lev_step_l s1 s2 i j : lev s1 s2 (S i) j ≤ lev s1 s2 i j + 1.
Proof.
  destruct j as [|j].
  - rewrite !lev_0_r. lia.
  - rewrite lev_S_S. unfold min3. lia.
Qed.

Lemma lev_step_r s1 s2 i j : lev s1 s2 i (S j) ≤ lev s1 s2 i j + 1.
Proof. rewrite (lev_sym s1 s2 i (S j)), (lev_sym s1 s2 i j). apply lev_step_l. Qed.

Lemma lev_step_diag s1 s2 i j :
  lev s1 s2 (S i) (S j) ≤ lev s1 s2 i j + (if decide (s1 !! i = s2 !! j) then 0 else 1).
Proof. rewrite lev_S_S. unfold min3. lia. Qed.

Lemma lev_triangle (a b c : pystr) i :
  ∀ j k, lev a c i k ≤ lev a b i j + lev b c j k.
Proof.
  induction i as [|i IHi]; intros j k.
  - rewrite !lev_0_l. pose proof (lev_ge_diff b c j k). lia.
  - revert k. induction j as [|j IHj]; intros k.
    + rewrite lev_0_r, lev_0_l. pose proof (lev_le_max a c (S i) k). lia.
    + induction k as [|k IHk].
      * rewrite !lev_0_r. pose proof (lev_ge_diff a b (S i) (S j)). lia.
      * pose proof (IHi (S j) (S k)). pose proof (IHi j (S k)). pose proof (IHi j k).
        pose proof (IHj (S k)). pose proof (IHj k).
        pose proof (lev_step_l a c i (S k)). pose proof (lev_step_r a c (S i) k).
        pose proof (lev_step_diag a c i k).
        pose proof (lev_S_S a b i j) as Eab. pose proof (lev_S_S b c j k) as Ebc.
        unfold min3 in Eab, Ebc.
        repeat case_decide; try lia; congruence.
Qed.

(** A cell is 0 only on the diagonal, over equal prefixes. *)
Lemma lev_zero_prefix s1 s2 i : ∀ j,
  i ≤ length s1 → j ≤ length s2 → lev s1 s2 i j = 0 → i = j ∧ take i s1 = take j s2.
Proof.
  induction i as [|i IHi]; intros j Hi Hj H0.
  - rewrite lev_0_l in H0. subst j. by rewrite !take_0.
  - destruct j as [|j]; [by rewrite lev_0_r in H0|].
    rewrite lev_S_S in H0. unfold min3 in H0.
    case_decide as Heq; [|lia].
    destruct (IHi j) as [-> Htake]; [lia | lia | lia |].
    split; [done|].
    destruct (lookup_lt_is_Some_2 s1 j) as [x Hx]; [lia|].
    assert (Hx2 : s2 !! j = Some x) by (exact (eq_trans (eq_sym Heq) Hx)).
    by rewrite (take_S_r s1 j x Hx), (take_S_r s2 j x Hx2), Htake.
Qed.

Lemma lev_zero_iff s1 s2 : lev s1 s2 (length s1) (length s2) = 0 ↔ s1 = s2.
Proof.
  split.
  - intros H0. destruct (lev_zero_prefix s1 s2 _ _ (le_n _) (le_n _) H0) as [_ Heq].
    by rewrite !firstn_all in Heq.
  - intros ->. apply lev_diag.
Qed.

Lemma ratio_one_iff s1 s2 : (ratio s1 s2 == 1)%Q ↔ s1 = s2.
Proof.
  split; [|intros ->; apply ratio_refl].
  unfold ratio. case_decide as Hm.
  - intros _. destruct s1, s2; simpl in Hm; try lia. done.
  - intros H1. apply lev_zero_iff.
    set (d := lev s1 s2 (length s1) (length s2)) in *.
    set (m := length s1 `max` length s2) in *.
    assert (Hm0 : ¬ (inject_Z (Z.of_nat m) == 0)%Q).
    { unfold Qeq. simpl. lia. }
    assert (Hd : (inject_Z (Z.of_nat d) / inject_Z (Z.of_nat m) == 0)%Q) by lra.
    assert (Hd' : (inject_Z (Z.of_nat d) == 0)%Q).
    { rewrite <- (Qmult_div_r (inject_Z (Z.of_nat d)) _ Hm0), Hd. ring. }
    unfold Qeq in Hd'. simpl in Hd'. lia.
Qed.





End MetricFacts.

Module MetricProps.
Import Levenshtein LevenshteinSpec LevenshteinFacts AlignFacts MetricFacts.

(** X1. [levenshtein_distance] always returns, and the distance lies between
    the difference of the two lengths and the greater of them. *)
Theorem levenshtein_distance_bounds (s1 s2 : pystr) :
  ∃ d, levenshtein_distance s1 s2 = Ok d ∧
       length s1 - length s2 ≤ d ∧ length s2 - length s1 ≤ d ∧
       d ≤ length s1 `max` length s2.
Proof.
  exists (lev s1 s2 (length s1) (length s2)).
  split; [apply levenshtein_distance_lev|].
  pose proof (lev_ge_diff s1 s2 (length s1) (length s2)).
  pose proof (lev_le_max s1 s2 (length s1) (length s2)). lia.
Qed.

(** X2. The distance is 0 exactly for equal strings. *)
Theorem levenshtein_distance_zero_iff (s1 s2 : pystr) :
  levenshtein_distance s1 s2 = Ok 0 ↔ s1 = s2.
Proof.
  rewrite levenshtein_distance_lev. rewrite <- lev_zero_iff.
  split; [by intros [= ->] | by intros ->].
Qed.

(** X3. Triangle inequality: going through a third string never shortens
    the distance. *)
Theorem levenshtein_distance_triangle (a b c : pystr) :
  ∃ dac dab dbc,
    levenshtein_distance a c = Ok dac ∧ levenshtein_distance a b = Ok dab ∧
    levenshtein_distance b c = Ok dbc ∧ dac ≤ dab + dbc.
Proof.
  eexists _, _, _. rewrite !levenshtein_distance_lev.
  split_and!; [done..|]. apply lev_triangle.
Qed.

(** X4. The similarity ratio is 1 exactly for equal strings. *)
Theorem levenshtein_ratio_one_iff (s1 s2 : pystr) :
  ∃ r, levenshtein_ratio s1 s2 = Ok r ∧ ((r == 1)%Q ↔ s1 = s2).
Proof.
  exists (ratio s1 s2). split; [apply levenshtein_ratio_eq | apply ratio_one_iff].
Qed.


End MetricProps.

Module TextFacts.
Import Levenshtein TextSpec.

(** *** [strip] *)

Lemma lstrip_split s :
  ∃ l, s = l ++ lstrip s ∧ Forall (λ c, isspace c = true) l.
Proof.
  induction s as [|c s (l & Hl & Hall)]; simpl.
  - by exists [].
  - destruct (isspace c) eqn:Hc.
    + exists (c :: l). split; [by rewrite <- app_comm_cons, <- Hl | by constructor].
    + by exists [].
Qed.

Lemma lstrip_head s c : head (lstrip s) = Some c → isspace c = false.
Proof.
  induction s as [|x s IH]; simpl; [done|].
  destruct (isspace x) eqn:Hx; [done|]. simpl. by intros [= <-].
Qed.

Lemma lstrip_id s : (∀ c, head s = Some c → isspace c = false) → lstrip s = s.
Proof. destruct s as [|c s]; simpl; [done|]. intros H. by rewrite (H c). Qed.

Lemma lstrip_idem s : lstrip (lstrip s) = lstrip s.
Proof. apply lstrip_id, lstrip_head. Qed.

Lemma last_app_ne {A : Type} (l1 l2 : list A) : l2 ≠ [] → last (l1 ++ l2) = last l2.
Proof.
  intros Hne. destruct l2 as [|x l2 _] using rev_ind; [done|].
  by rewrite app_assoc, !last_snoc.
Qed.

Lemma head_rev {A : Type} (l : list A) : head (rev l) = last l.
Proof.
  destruct l as [|x l _] using rev_ind; [done|].
  by rewrite rev_unit, last_snoc.
Qed.

Lemma last_rev {A : Type} (l : list A) : last (rev l) = head l.
Proof. by rewrite <- head_rev, rev_involutive. Qed.

(** What [strip] removes is white space, at both ends. *)
Lemma strip_split s :
  ∃ l r, s = l ++ strip s ++ r ∧ Forall (λ c, isspace c = true) l
         ∧ Forall (λ c, isspace c = true) r.
Proof.
  unfold strip.
  destruct (lstrip_split s) as (l & Hl & Hall).
  destruct (lstrip_split (rev (lstrip s))) as (r & Hr & Hallr).
  exists l, (rev r). split_and!; [| done | by apply Forall_rev].
  rewrite <- rev_app_distr, <- Hr, rev_involutive. done.
Qed.

Lemma strip_no_outer_space s : no_outer_space (strip s).
Proof.
  unfold strip, no_outer_space. rewrite last_rev, head_rev.
  split; [|apply lstrip_head].
  intros c Hc.
  destruct (lstrip_split (rev (lstrip s))) as (r & Hr & Hallr).
  set (u := lstrip (rev (lstrip s))) in *.
  assert (Hne : u ≠ []) by (by intros Hu; rewrite Hu in Hc).
  apply (lstrip_head s). rewrite <- last_rev, Hr, last_app_ne by done. done.
Qed.

Lemma strip_id s : no_outer_space s → strip s = s.
Proof.
  intros [Hh Hl]. unfold strip.
  rewrite (lstrip_id s) by done.
  rewrite (lstrip_id (rev s)), rev_involutive; [done|].
  intros c. rewrite head_rev. apply Hl.
Qed.

Lemma strip_idem s : strip (strip s) = strip s.
Proof. apply strip_id, strip_no_outer_space. Qed.

(** *** The sentence filter *)

Lemma long_sentences_Forall l :
  Forall (λ s, 10 < length s ∧ no_outer_space s) (long_sentences l).
Proof.
  unfold long_sentences. apply Forall_fmap, Forall_forall.
  intros s [Hs _]%list_elem_of_filter. simpl. split; [done | apply strip_no_outer_space].
Qed.

Lemma long_sentences_id l :
  Forall (λ s, 10 < length s ∧ no_outer_space s) l → long_sentences l = l.
Proof.
  unfold long_sentences. induction 1 as [|s l [Hlen Hs] _ IH]; [done|].
  rewrite filter_cons_True by (by rewrite strip_id).
  rewrite fmap_cons, IH, strip_id; done.
Qed.

Lemma long_sentences_idem l : long_sentences (long_sentences l) = long_sentences l.
Proof. apply long_sentences_id, long_sentences_Forall. Qed.

(** *** Single spacing *)

Lemma spaced_weaken s : spaced true s → spaced false s.
Proof. destruct s as [|c s]; simpl; [done|]. destruct (isspace c); [by intros (_ & ? & _) | done]. Qed.

Lemma spaced_any b s : spaced b s → spaced false s.
Proof. destruct b; [apply spaced_weaken | done]. Qed.

Lemma collapse_spaced b s : spaced b (collapse_spaces b s).
Proof.
  revert b. induction s as [|c s IH]; intros b; simpl; [done|].
  destruct (isspace c) eqn:Hc.
  - destruct b; [apply IH|]. simpl. split_and!; [done | done | apply IH].
  - simpl. rewrite Hc. apply IH.
Qed.

Lemma punct_not_space c : ispunct_close c = true → isspace c = false.
Proof.
  unfold ispunct_close. intros H%bool_decide_eq_true.
  assert (Hp : py ",.;:!?)" = [44; 46; 59; 58; 33; 63; 41]%N) by (vm_compute; reflexivity).
  rewrite Hp in H. clear Hp.
  repeat (apply elem_of_cons in H as [->|H]; [reflexivity|]).
  by apply elem_of_nil in H.
Qed.

Lemma drop_spaced s : ∀ b, spaced b s → spaced b (drop_space_before_punct s).
Proof.
  induction s as [|c s IH]; intros b; simpl; [done|].
  destruct (isspace c) eqn:Hc; simpl.
  - intros (-> & -> & Hs).
    destruct (from_option ispunct_close false (head (lstrip s))); simpl.
    + apply IH. by apply spaced_weaken.
    + split_and!; [done | done | by apply IH].
  - intros Hs. rewrite Hc. by apply IH.
Qed.

Lemma add_spaced s : ∀ b, spaced b s → spaced b (add_space_after_punct s).
Proof.
  induction s as [|c s IH]; intros b; simpl; [done|].
  destruct (ispunct_close c && from_option (λ d, negb (isspace d)) false (head s)) eqn:Hp.
  - apply andb_true_iff in Hp as [Hc Hd].
    pose proof (punct_not_space c Hc) as Hsp. simpl. rewrite !Hsp.
    intros Hs. split_and!; [done | done |]. apply IH.
    destruct s as [|d s]; simpl in *; [done|].
    apply negb_true_iff in Hd. by rewrite Hd in *.
  - simpl. destruct (isspace c).
    + intros (-> & -> & Hs). split_and!; [done | done | by apply IH].
    + intros Hs. by apply IH.
Qed.

Lemma spaced_app_l s t : ∀ b, spaced b (s ++ t) → spaced b s.
Proof.
  induction s as [|c s IH]; intros b; simpl; [done|].
  destruct (isspace c).
  - intros (-> & -> & Hs). split_and!; [done | done | by apply IH].
  - apply IH.
Qed.

Lemma spaced_app_r s t : ∀ b, spaced b (s ++ t) → spaced false t.
Proof.
  induction s as [|c s IH]; intros b; simpl; [apply spaced_any|].
  destruct (isspace c).
  - intros (_ & _ & Hs). by apply IH in Hs.
  - apply IH.
Qed.

Lemma strip_spaced s b : spaced b s → spaced false (strip s).
Proof.
  destruct (strip_split s) as (l & r & Hs & _ & _).
  intros H. rewrite Hs in H. apply spaced_app_r in H. by apply spaced_app_l in H.
Qed.

(** What [spaced] says, on the list itself. *)
Lemma spaced_plain b s c : spaced b s → c ∈ s → isspace c = true → c = 32%N.
Proof.
  revert b. induction s as [|x s IH]; intros b Hs Hc Hsp; [by apply elem_of_nil in Hc|].
  simpl in Hs. apply elem_of_cons in Hc as [->|Hc].
  - rewrite Hsp in Hs. by destruct Hs.
  - destruct (isspace x); [destruct Hs as (_ & _ & Hs)|]; by eapply IH.
Qed.

Lemma spaced_no_double b s : spaced b s → no_double_space s.
Proof.
  intros Hs s1 c d s2 -> [Hc Hd].
  apply spaced_app_r in Hs. simpl in Hs. rewrite Hc, Hd in Hs.
  by destruct Hs as (_ & _ & _ & ? & _).
Qed.

(** *** Punctuation *)

Lemma add_head s : head (add_space_after_punct s) = head s.
Proof.
  destruct s as [|c s]; simpl; [done|].
  by destruct (ispunct_close c && from_option (λ d, negb (isspace d)) false (head s)).
Qed.

Lemma add_punct_spaced s : punct_spaced (add_space_after_punct s).
Proof.
  induction s as [|c s IH]; simpl; [done|].
  destruct (ispunct_close c && from_option (λ d, negb (isspace d)) false (head s)) eqn:Hp.
  - simpl. split; [by intros _ d [= <-]|].
    split; [|done]. by intros [=]%punct_not_space.
  - simpl. split; [|done]. intros Hc d. rewrite add_head. intros Hd.
    rewrite Hc, Hd in Hp. simpl in Hp. by apply negb_false_iff in Hp.
Qed.

Lemma punct_spaced_app_r s t : punct_spaced (s ++ t) → punct_spaced t.
Proof. induction s as [|c s IH]; simpl; [done|]. intros [_ H]. by apply IH. Qed.

Lemma punct_spaced_app_l s t : punct_spaced (s ++ t) → punct_spaced s.
Proof.
  induction s as [|c s IH]; simpl; [done|]. intros [Hc H]. split; [|by apply IH].
  intros Hp d Hd. apply Hc; [done|]. by destruct s.
Qed.

Lemma strip_punct_spaced s : punct_spaced s → punct_spaced (strip s).
Proof.
  destruct (strip_split s) as (l & r & Hs & _ & _).
  intros H. rewrite Hs in H. apply punct_spaced_app_r in H. by apply punct_spaced_app_l in H.
Qed.

Lemma punct_spaced_next s s1 c d s2 :
  punct_spaced s → s = s1 ++ c :: d :: s2 → ispunct_close c = true → isspace d = true.
Proof.
  intros H -> Hc. apply punct_spaced_app_r in H. simpl in H.
  destruct H as [H _]. by apply (H Hc d).
Qed.

(** *** [clean_text] *)

Lemma clean_text_spaced text : spaced false (clean_text text).
Proof.
  unfold clean_text. eapply strip_spaced.
  apply add_spaced, drop_spaced, collapse_spaced.
Qed.

Lemma clean_text_punct_spaced text : punct_spaced (clean_text text).
Proof. unfold clean_text. apply strip_punct_spaced, add_punct_spaced. Qed.

(** *** [replace] *)

Lemma replace_absent (c : pychar) (new s : pystr) : c ∉ s → replace [c] new s = s.
Proof.
  unfold replace. induction s as [|x s IH]; simpl; [done|].
  intros Hc. apply not_elem_of_cons in Hc as [Hx Hs].
  unfold startswith. rewrite bool_decide_eq_false_2.
  - by rewrite IH.
  - intros [k Hk]. simpl in Hk. congruence.
Qed.

End TextFacts.

Module TextProps.
Import Levenshtein TextSpec TextFacts.

(** X6. The text [clean_text] of [levenshtein.py] returns has no white
    space at either end, no two white-space characters in a row, and no
    white-space character other than the plain space. *)
Theorem clean_text_single_spaced (text : pystr) :
  no_outer_space (clean_text text) ∧
  no_double_space (clean_text text) ∧
  (∀ c, c ∈ clean_text text → isspace c = true → c = 32%N).
Proof.
  split_and!.
  - apply strip_no_outer_space.
  - eapply spaced_no_double, clean_text_spaced.
  - intros c. eapply spaced_plain, clean_text_spaced.
Qed.

(** X7. In the text [clean_text] returns, each of the marks [,.;:!?)] is
    the last character or is followed by a plain space. *)
Theorem clean_text_space_after_punct (text s1 s2 : pystr) (c d : pychar) :
  clean_text text = s1 ++ c :: d :: s2 → ispunct_close c = true → d = 32%N.
Proof.
  intros Hs Hc.
  assert (Hd : isspace d = true).
  { eapply punct_spaced_next; [apply clean_text_punct_spaced | exact Hs | exact Hc]. }
  eapply spaced_plain; [apply clean_text_spaced | | exact Hd].
  rewrite Hs. set_solver.
Qed.

(** A text where the mark is followed by a letter. *)
Lemma clean_text_space_after_punct_comma :
  clean_text (py "a,b") = py "a" ++ 44%N :: 32%N :: py "b" ∧
  ispunct_close 44%N = true ∧ 32%N = 32%N.
Proof.
  assert (H1 : clean_text (py "a,b") = py "a" ++ 44%N :: 32%N :: py "b")
    by (vm_compute; reflexivity).
  assert (H2 : ispunct_close 44%N = true) by (vm_compute; reflexivity).
  split_and!; [exact H1 | exact H2 |].
  exact (clean_text_space_after_punct (py "a,b") (py "a") (py "b") 44%N 32%N H1 H2).
Defined.

(** X8. The filter [[s.strip() for s in l if len(s.strip()) > 10]] returns
    sentences of more than 10 characters with no white space at either end,
    and applying it a second time, as [align_response] does to the sentences
    of its fallback split, changes nothing. *)
Theorem long_sentences_spec (l : list pystr) :
  Forall (λ s, 10 < length s ∧ no_outer_space s) (long_sentences l) ∧
  long_sentences (long_sentences l) = long_sentences l.
Proof. split; [apply long_sentences_Forall | apply long_sentences_idem]. Qed.

End TextProps.

Module GroundingFacts.
Import Levenshtein LevenshteinSpec LevenshteinFacts AlignFacts BuilderSpec BuilderFacts.
Import TextSpec TextFacts MetricFacts.

Lemma map_res_Forall2 {A B : Type} (f : A → Res B) (P : A → B → Prop) l :
  (∀ x, ∃ y, f x = Ok y ∧ P x y) → ∃ ys, map_res f l = Ok ys ∧ Forall2 P l ys.
Proof.
  intros Hf. induction l as [|x l (ys & Hys & Hall)]; [by exists []|].
  destruct (Hf x) as (y & Hy & HP). exists (y :: ys).
  cbn [map_res]. rewrite Hy. res_step. rewrite Hys. res_step. split; [done | by constructor].
Qed.

(** The records of [align_response]: one for each sentence that passes the
    filter, in order, and each as the alignment policy says. *)
Lemma align_response_run `{SentenceTokenizer} response sources threshold :
  ∃ records sentences,
    align_response response sources threshold = Ok records ∧
    generated <$> records = long_sentences sentences ∧
    Forall (record_ok sources threshold) records.
Proof.
  unfold align_response.
  destruct response as [|c response]; [by exists [], []|].
  destruct sources as [|s0 sources]; [by exists [], []|].
  match goal with |- context [map_res _ (long_sentences ?l)] => set (sentences := l) end.
  destruct (map_res_Forall2 (align_sentence (s0 :: sources) threshold)
              (λ g r, generated r = g ∧ record_ok (s0 :: sources) threshold r)
              (long_sentences sentences)) as (records & Hrun & Hall).
  { intros g. destruct (align_sentence_spec (s0 :: sources) threshold g) as (r & Hr & Hg & Hok);
      [done|]. by exists r. }
  exists records, sentences. split_and!; [done | |].
  - clear Hrun. induction Hall as [|g r gs rs [Hg _] _ IH]; [done|].
    by rewrite fmap_cons, Hg, IH.
  - clear Hrun. induction Hall as [|g r gs rs [_ Hok] _ IH]; by constructor.
Qed.

Lemma align_response_generated `{SentenceTokenizer} response sources threshold records :
  align_response response sources threshold = Ok records →
  Forall (record_ok sources threshold) records ∧
  Forall (λ r, 10 < length (generated r) ∧ no_outer_space (generated r)) records.
Proof.
  destruct (align_response_run response sources threshold)
    as (records' & sentences & -> & Hgen & Hok).
  intros [= <-]. split; [done|].
  pose proof (long_sentences_Forall sentences) as Hlong. rewrite <- Hgen in Hlong.
  by apply Forall_fmap in Hlong.
Qed.

(** A sentence of the sources is its own best match. *)
Lemma record_of_quotation sources threshold r :
  record_ok sources threshold r → generated r ∈ sources → (threshold <= 1)%Q →
  aligned r = true ∧ source r = Some (generated r) ∧ (similarity r == 1)%Q.
Proof.
  intros (Hsim & Hbest & Hal & Hsrc & Hsome & Hup) Hin Hthr.
  assert (H1 : (best_ratio (generated r) sources == 1)%Q).
  { apply Qle_antisym; [apply best_ratio_bounds|].
    rewrite <- (ratio_refl (generated r)). by apply Hup. }
  assert (Hthr' : (threshold <= best_ratio (generated r) sources)%Q) by (by rewrite H1).
  split_and!.
  - by apply Hal.
  - destruct Hsrc as [_ Hsrc]. destruct (Hsrc (or_introl Hthr')) as [src Hs].
    rewrite Hs. f_equal. symmetry. apply ratio_one_iff.
    destruct (Hsome src Hs) as [_ Hr]. by rewrite Hr.
  - by rewrite Hbest.
Qed.

(** The parts of the answer are sources of the records. *)
Lemma answer_parts_sources rs :
  Forall (λ p, ∃ r, r ∈ rs ∧ source r = Some p) (answer_parts rs).
Proof.
  destruct (decide (filter (λ r, grounded r) rs = [])) as [Hnil|Hne].
  - eapply BuilderClaims.parts_are_sources; [by apply answer_parts_fallback|].
    intros r Hr. apply subseteq_take in Hr.
    rewrite (sort_records_perm _) in Hr.
    by apply list_elem_of_filter in Hr as [_ Hr].
  - eapply BuilderClaims.parts_are_sources; [by apply answer_parts_primary|].
    intros r Hr. by apply list_elem_of_filter in Hr as [_ Hr].
Qed.






End GroundingFacts.

Module GroundingProps.
Import Levenshtein LevenshteinSpec LevenshteinFacts AlignFacts BuilderSpec BuilderFacts.
Import TextSpec TextFacts MetricFacts GroundingFacts Veritas.

(** X9. In the records of [align_response], a sentence of the response that
    is itself one of the source sentences is aligned, with this very
    sentence as its source and similarity 1, for any threshold up to 1. *)
Theorem align_response_quotation `{SentenceTokenizer} (response : pystr)
    (source_sentences : list pystr) (threshold : Q) (records : list AlignmentRecord)
    (r : AlignmentRecord) :
  align_response response source_sentences threshold = Ok records →
  r ∈ records → generated r ∈ source_sentences → (threshold <= 1)%Q →
  aligned r = true ∧ source r = Some (generated r) ∧ (similarity r == 1)%Q.
Proof.
  intros Hrun Hr Hin Hthr.
  destruct (align_response_generated _ _ _ _ Hrun) as [Hok _].
  rewrite Forall_forall in Hok. by eapply record_of_quotation; [apply Hok | |].
Qed.

(** A response that quotes the second of two source sentences. *)
Lemma align_response_quotation_second_source :
  let sources := [py "Le chien court vite"; py "Le chat dort sur le lit"] in
  ∃ r, @align_response Plain.sentences (py "Le chat dort sur le lit") sources 0.75 = Ok [r] ∧
       generated r ∈ sources ∧ (0.75 <= 1)%Q ∧
       aligned r = true ∧ source r = Some (generated r) ∧ (similarity r == 1)%Q.
Proof.
  intros sources.
  assert (Hrun : ∃ r, @align_response Plain.sentences (py "Le chat dort sur le lit") sources 0.75
                      = Ok [r] ∧ generated r = py "Le chat dort sur le lit").
  { eexists. split; vm_compute; reflexivity. }
  destruct Hrun as (r & Hrun & Hgen). exists r.
  assert (Hin : generated r ∈ sources)
    by (rewrite Hgen; apply list_elem_of_further, list_elem_of_here).
  assert (Hthr : (0.75 <= 1)%Q) by (by apply Qle_bool_iff).
  split; [exact Hrun|]. split; [exact Hin|]. split; [exact Hthr|].
  apply (@align_response_quotation Plain.sentences (py "Le chat dort sur le lit") sources 0.75
           [r] r Hrun); [apply list_elem_of_here | exact Hin | exact Hthr].
Defined.


(** X11. The last step of [Veritas.answer_question] always returns, and its
    answer is either the refusal or sentences of [selected_sentences]
    joined with [". "] and closed by a full stop: no other text can reach
    the answer. *)
Theorem factual_answer_grounded `{SentenceTokenizer} (raw_answer : pystr)
    (selected_sentences : list pystr) (MIN_SIMILARITY_THRESHOLD : Q) :
  ∃ answer records,
    factual_answer raw_answer selected_sentences MIN_SIMILARITY_THRESHOLD
      = Ok (answer, records) ∧
    (answer = refusal ∨
     ∃ parts, parts ≠ [] ∧ answer = str_join (py ". ") parts ++ py "." ∧
              Forall (λ p, p ∈ selected_sentences) parts).
Proof.
  unfold factual_answer.
  destruct (align_response_run raw_answer selected_sentences MIN_SIMILARITY_THRESHOLD)
    as (records & sentences & -> & _ & Hok).
  res_step. eexists _, records. split; [done|].
  rewrite build_of_parts.
  pose proof (answer_parts_sources records) as Hparts.
  destruct (answer_parts records) as [|p parts] eqn:Hp; [by left|].
  right. exists (p :: parts). split_and!; [done | done |].
  eapply Forall_impl; [exact Hparts|]. intros q (r & Hr & Hq). simpl.
  rewrite Forall_forall in Hok. destruct (Hok r Hr) as (_ & _ & _ & _ & Hsome & _).
  by destruct (Hsome q Hq).
Qed.



End GroundingProps.

Module ScoreFacts.
Import BM25 BM25Spec BM25Facts LevenshteinSpec LevenshteinFacts AlignFacts RankSpec RankFacts RankPagesFacts RankClaims ScoreSpec.

Section S.
Context {ud : UnicodeData} {nltk : Nltk} {numpy : Numpy}.

(** The loop of [_calculate_page_score] adds 1.2 times the BM25+ sum: every
    term of the loop is in [query_terms]. *)
Lemma score_loop_value (self : BM25Ranker) (terms : list pystr) (norm : R) (Q : list pystr) :
  (0 < saturation self norm)%R →
  ∀ (q : list pystr) (acc : R), q ⊆ Q →
    for_ q (score_body self (Counter terms) norm Q) acc
    = Ok (acc + 1.2 * bm25_plus self terms norm q)%R.
Proof.
  intros HK q. induction q as [|t q IH]; intros acc Hsub.
  - cbn. f_equal. Lra.lra.
  - cbn [for_]. unfold bm25_plus. cbn [foldr]. fold (bm25_plus self terms norm q).
    unfold term_weight. destruct (idf self !! t) as [v|] eqn:Ht.
    + pose proof (pos_INR (term_count t terms)).
      rewrite (score_body_Some _ _ _ _ _ v) by (done || rewrite Counter_lookup; Lra.lra).
      res_step. rewrite IH by set_solver.
      rewrite bool_decide_eq_true_2 by set_solver. rewrite Counter_lookup.
      cbv zeta. f_equal. Lra.lra.
    + rewrite score_body_None by done. res_step. rewrite IH by set_solver.
      f_equal. Lra.lra.
Qed.

Lemma page_score_value self terms q i s :
  (0 < k1 self)%R → (0 <= b self < 1)%R → (0 < avg_doc_len self)%R →
  _calculate_page_score self terms q i = Ok s →
  ∃ doc_len, doc_lens self !! i = Some doc_len ∧
    s = (1.2 * bm25_plus self terms (INR doc_len / avg_doc_len self) q)%R.
Proof.
  intros Hk Hb Havg. unfold _calculate_page_score, getitem.
  destruct (doc_lens self !! i) as [doc_len|]; [|done]. res_step.
  destruct (normalized_length_ok self doc_len Havg) as [-> Hn]. res_step.
  rewrite score_loop_value; [|by apply saturation_pos | done].
  intros [= <-]. exists doc_len. split; [done | Lra.lra].
Qed.

Lemma unit_fraction_R (x K : R) : (0 <= x)%R → (0 < K)%R → (0 <= x / (x + K) <= 1)%R.
Proof.
  intros Hx HK.
  assert (0 < / (x + K))%R by (apply Rinv_0_lt_compat; Lra.lra).
  split.
  - apply Rmult_le_pos; Lra.lra.
  - replace (x / (x + K))%R with (1 - K * / (x + K))%R by (field; Lra.lra).
    assert (0 <= K * / (x + K))%R by (apply Rmult_le_pos; Lra.lra). Lra.lra.
Qed.

Lemma term_weight_bounds self terms norm t :
  (0 < k1 self)%R → (0 < saturation self norm)%R → (0 <= delta self)%R → idf_nonneg self →
  (0 <= default 0 (idf self !! t))%R ∧
  (default 0 (idf self !! t) * delta self <= term_weight self terms norm t)%R ∧
  (term_weight self terms norm t <= default 0 (idf self !! t) * (k1 self + 1 + delta self))%R.
Proof.
  intros Hk HK Hd Hidf. unfold term_weight.
  destruct (idf self !! t) as [v|] eqn:Ht; cbv zeta; cbn [default from_option];
    unfold Datatypes.id; [|Lra.lra].
  pose proof (Hidf t v Ht) as Hv.
  pose proof (pos_INR (term_count t terms)) as Htf.
  set (tf := INR (term_count t terms)) in *.
  destruct (unit_fraction_R tf (saturation self norm) Htf HK) as [H0 H1].
  replace (tf * (k1 self + 1) / (tf + saturation self norm))%R
    with ((k1 self + 1) * (tf / (tf + saturation self norm)))%R by (field; Lra.lra).
  set (u := (tf / (tf + saturation self norm))%R) in *.
  assert (0 <= (k1 self + 1) * u <= k1 self + 1)%R.
  { split; [apply Rmult_le_pos; Lra.lra|].
    rewrite <- (Rmult_1_r (k1 self + 1)) at 2. apply Rmult_le_compat_l; Lra.lra. }
  clearbody u. split; [done|]. split; apply Rmult_le_compat_l; Lra.lra.
Qed.

Lemma bm25_plus_bounds self terms norm q :
  (0 < k1 self)%R → (0 < saturation self norm)%R → (0 <= delta self)%R → idf_nonneg self →
  (0 <= query_idf self q)%R ∧
  (query_idf self q * delta self <= bm25_plus self terms norm q)%R ∧
  (bm25_plus self terms norm q <= query_idf self q * (k1 self + 1 + delta self))%R.
Proof.
  intros Hk HK Hd Hidf. induction q as [|t q (IH0 & IH1 & IH2)]; cbn.
  - Lra.lra.
  - destruct (term_weight_bounds self terms norm t Hk HK Hd Hidf) as (H0 & H1 & H2).
    fold (bm25_plus self terms norm q). fold (query_idf self q). Lra.lra.
Qed.

Lemma page_score_bounds self terms q i s :
  (0 < k1 self)%R → (0 <= b self < 1)%R → (0 <= delta self)%R →
  (0 < avg_doc_len self)%R → idf_nonneg self →
  _calculate_page_score self terms q i = Ok s →
  (1.2 * delta self * query_idf self q <= s)%R ∧
  (s <= 1.2 * (k1 self + 1 + delta self) * query_idf self q)%R.
Proof.
  intros Hk Hb Hd Havg Hidf Hs.
  destruct (page_score_value self terms q i s Hk Hb Havg Hs) as (doc_len & _ & ->).
  destruct (normalized_length_ok self doc_len Havg) as [_ Hn].
  destruct (bm25_plus_bounds self terms (INR doc_len / avg_doc_len self) q Hk
              (saturation_pos self _ Hk Hb Hn) Hd Hidf) as (H0 & H1 & H2).
  Lra.lra.
Qed.

Lemma page_scores_bounds self toks q scores :
  (0 < k1 self)%R → (0 <= b self < 1)%R → (0 <= delta self)%R →
  (0 < avg_doc_len self)%R → idf_nonneg self →
  page_scores self toks q = Ok scores →
  Forall (λ s, (1.2 * delta self * query_idf self q <= s)%R ∧
               (s <= 1.2 * (k1 self + 1 + delta self) * query_idf self q)%R) scores.
Proof.
  intros Hk Hb Hd Havg Hidf. unfold page_scores. apply map_res_Forall.
  intros [i terms] s. by apply page_score_bounds.
Qed.

Lemma above_all scores thr l :
  (∀ i, i ∈ l → ∃ s, scores !! i = Some s ∧ (thr < s)%R) → above scores thr l = Ok l.
Proof.
  induction l as [|i l IH]; intros Hall; [done|].
  cbn [above]. destruct (Hall i) as (s & Hs & Hlt); [by left|].
  rewrite (getitem_Some _ _ _ Hs). res_step. rewrite IH by (intros j Hj; apply Hall; by right).
  res_step. by destruct (Rlt_dec thr s).
Qed.

(** With a BM25+ floor [delta] large enough against [k1], the cut at a
    tenth of the best score removes no page, unless every score is 0. *)
Lemma rank_tokenized_all_or_none self toks query :
  argsort_spec argsort →
  (0 < k1 self)%R → (0 <= b self < 1)%R → (0 < delta self)%R →
  (k1 self + 1 < 9 * delta self)%R →
  (0 < avg_doc_len self)%R → idf_nonneg self →
  length (doc_lens self) = length toks →
  ∃ l, rank_tokenized self toks query None = Ok l ∧
       ((l = [] ∧ query_idf self (expanded_query query) = 0%R) ∨
        (Permutation l (seq 0 (length toks)) ∧ (0 < query_idf self (expanded_query query))%R)).
Proof.
  intros Hspec Hk Hb Hd Hkd Havg Hidf Hlen.
  destruct (page_scores_ok self toks (expanded_query query) Hk Hb Havg Hlen) as [scores Hs].
  pose proof (page_scores_bounds self toks _ scores Hk Hb (Rlt_le _ _ Hd) Havg Hidf Hs) as Hbd.
  pose proof (page_scores_length _ _ _ _ Hs) as Hlens.
  set (W := query_idf self (expanded_query query)) in *.
  assert (0 <= W)%R as HW.
  { destruct (bm25_plus_bounds self [] 0 (expanded_query query) Hk) as (H0 & _); try done.
    - apply saturation_pos; [done | done | Lra.lra].
    - Lra.lra. }
  destruct (Rle_lt_or_eq_dec 0 W HW) as [Hpos|Hzero].
  - (* some weight: every page is above the cut *)
    unfold rank_tokenized. fold (expanded_query query). rewrite Hs. res_step.
    destruct (Hspec scores) as [Hperm _].
    assert (∃ thr, match scores with
                   | [] => Ok 0%R
                   | _ :: _ => max_list scores ≫= λ m : R, Ok (m * 0.1)%R
                   end = Ok thr
                   ∧ (thr < 1.2 * delta self * W)%R) as (thr & -> & Hthr).
    { destruct scores as [|s scores]; [exists 0%R; split; [done | Lra.nra]|].
      destruct (max_list_spec (s :: scores)) as (m & Hm & Hin & _); [done|].
      rewrite Hm. res_step. eexists. split; [done|].
      rewrite Forall_forall in Hbd. destruct (Hbd m Hin) as [_ Hup]. Lra.nra. }
    res_step. rewrite above_all.
    + res_step. eexists. split; [done|]. right. split; [|done].
      by rewrite <- Permutation_rev, Hperm, Hlens.
    + intros i Hi. rewrite <- Permutation_rev, Hperm in Hi. apply elem_of_seq in Hi.
      destruct (lookup_lt_is_Some_2 scores i) as [s Hsi]; [lia|].
      exists s. split; [done|].
      rewrite Forall_forall in Hbd. destruct (Hbd s) as [Hlow _]; [by eapply list_elem_of_lookup_2|].
      Lra.lra.
  - (* no weight: every score is 0 *)
    destruct (rank_tokenized_spec self toks query None scores Hspec Hs) as (l & Hl & Hok).
    exists l. split; [done|]. left. split; [|done].
    destruct Hok as (_ & _ & _ & _ & Hnone). apply Hnone.
    eapply Forall_impl; [exact Hbd|]. intros s [H1 H2].
    rewrite <- Hzero in H1, H2. Lra.lra.
Qed.

End S.
End ScoreFacts.

Module RankerFacts.
Import BM25 BM25Spec BM25Facts LevenshteinSpec LevenshteinFacts AlignFacts RankSpec RankFacts RankPagesFacts RankClaims ScoreSpec ScoreFacts.

Section S.
Context {ud : UnicodeData} {nltk : Nltk} {numpy : Numpy}.

(** *** [rank_pages] on a ranker whose IDF keys are corpus terms *)

Lemma fitted_idf_nonneg self pages m df :
  idf_in_corpus self →
  (∀ t, m !! t =
        if decide (t ∈ terms_of pages ∪ corpus_terms self)
        then Some (idf_value (length pages) (doc_freq pages t) t)
        else idf self !! t) →
  idf_nonneg (fitted self pages m df).
Proof.
  intros Hinv Hm t v Hv. left.
  by eapply (fitted_idf_pos self pages m df Hinv Hm).
Qed.

Lemma rank_pages_all_or_none pages query self :
  argsort_spec argsort →
  (0 < k1 self)%R → (0 <= b self < 1)%R → (0 < delta self)%R →
  (k1 self + 1 < 9 * delta self)%R → idf_in_corpus self →
  (∃ p, p ∈ pages ∧ page_terms p ≠ []) →
  ∃ self' l,
    rank_pages pages query None self = (self', Ok l) ∧
    ((l = [] ∧ query_idf self' (expanded_query query) = 0%R) ∨
     (Permutation l (seq 0 (length pages)) ∧ (0 < query_idf self' (expanded_query query))%R)).
Proof.
  intros Hspec Hk Hb Hd Hkd Hinv (p & Hp & Hterms).
  assert (pages ≠ []) as Hne by (intros ->; by apply elem_of_nil in Hp).
  destruct (rank_pages_run pages query None self Hne) as (m & df & -> & _ & Hm).
  destruct (rank_tokenized_all_or_none (fitted self pages m df) (page_terms <$> pages) query)
    as (l & Hl & Hcase); try done.
  - apply fitted_avg_pos. by exists p.
  - by apply fitted_idf_nonneg.
  - cbn [doc_lens fitted]. by rewrite !length_fmap.
  - exists (fitted self pages m df), l. split; [by rewrite Hl|].
    by rewrite length_fmap in Hcase.
Qed.

(** *** The IDF weights *)

Lemma idf_arg_eq (N df : nat) :
  ((INR N - INR df + 0.5) / (INR df + 0.5) + 1.0 = (INR N + 1) * / (INR df + 0.5))%R.
Proof.
  pose proof (pos_INR df).
  remember (INR df + 0.5)%R as x eqn:Hx.
  replace (INR N - INR df + 0.5)%R with (INR N + 1 - x)%R by Lra.lra.
  replace 1.0%R with 1%R by Lra.lra.
  assert (0 < x)%R by Lra.lra. clear Hx. field. Lra.lra.
Qed.

Lemma idf_value_decreasing (N df1 df2 : nat) (t1 t2 : pystr) :
  df1 < df2 → domain_terms !! t1 = domain_terms !! t2 →
  (idf_value N df2 t2 < idf_value N df1 t1)%R.
Proof.
  intros Hlt Hdom. unfold idf_value. rewrite Hdom, !idf_arg_eq.
  pose proof (pos_INR N). pose proof (pos_INR df1). apply lt_INR in Hlt.
  assert (ln ((INR N + 1) * / (INR df2 + 0.5)) < ln ((INR N + 1) * / (INR df1 + 0.5)))%R as Hln.
  { apply ln_increasing.
    - apply Rmult_lt_0_compat; [Lra.lra|]. apply Rinv_0_lt_compat. Lra.lra.
    - apply Rmult_lt_compat_l; [Lra.lra|]. apply Rinv_lt_contravar; [|Lra.lra].
      apply Rmult_lt_0_compat; Lra.lra. }
  destruct (domain_terms !! t2) as [w|] eqn:Hw; [|done].
  apply Rmult_lt_compat_r; [by eapply domain_terms_pos | done].
Qed.

Lemma doc_freq_pos pages t : 0 < doc_freq pages t → t ∈ terms_of pages.
Proof.
  induction pages as [|p pages IH]; [cbn; lia|].
  rewrite doc_freq_cons. cbn [terms_of foldr]. fold (terms_of pages).
  case_decide as Hin; [set_solver|]. intros H. set_solver.
Qed.

(** *** [_expand_query] *)

(** The expansions one query term brings. *)
Lemma expand_inner (term term_stem : pystr) (table : list (pystr * list pystr)) :
  ∀ acc,
    foldl (λ expanded_terms (entry : pystr * list pystr),
             if bool_decide (term = entry.1) || bool_decide (term_stem = stem entry.1)
             then expanded_terms ++ entry.2 else expanded_terms) acc table
    = acc ++ foldl (λ expanded_terms (entry : pystr * list pystr),
             if bool_decide (term = entry.1) || bool_decide (term_stem = stem entry.1)
             then expanded_terms ++ entry.2 else expanded_terms) [] table.
Proof.
  induction table as [|entry table IH]; intros acc; cbn [foldl].
  - by rewrite app_nil_r.
  - rewrite IH. symmetry. rewrite IH. symmetry.
    destruct (_ || _); [by rewrite app_assoc | by rewrite app_nil_l].
Qed.

Lemma expand_inner_elem (term term_stem : pystr) (table : list (pystr * list pystr)) t :
  t ∈ foldl (λ expanded_terms (entry : pystr * list pystr),
             if bool_decide (term = entry.1) || bool_decide (term_stem = stem entry.1)
             then expanded_terms ++ entry.2 else expanded_terms) [] table →
  ∃ entry, entry ∈ table ∧ t ∈ entry.2.
Proof.
  induction table as [|entry table IH]; cbn [foldl]; [by intros ?%elem_of_nil|].
  rewrite expand_inner. intros [Hin|Hin]%elem_of_app.
  - exists entry. split; [by left|]. destruct (_ || _); [done | by apply elem_of_nil in Hin].
  - destruct (IH Hin) as (e & He & Ht). exists e. split; [by right | done].
Qed.

Lemma expand_inner_key (term term_stem : pystr) (table : list (pystr * list pystr)) exps t :
  (term, exps) ∈ table → t ∈ exps →
  t ∈ foldl (λ expanded_terms (entry : pystr * list pystr),
             if bool_decide (term = entry.1) || bool_decide (term_stem = stem entry.1)
             then expanded_terms ++ entry.2 else expanded_terms) [] table.
Proof.
  induction table as [|entry table IH]; [by intros ?%elem_of_nil|].
  cbn [foldl]. rewrite expand_inner. intros [<-|Hin]%elem_of_cons Ht.
  - apply elem_of_app. left. cbn [fst snd]. by rewrite bool_decide_eq_true_2.
  - apply elem_of_app. right. by apply IH.
Qed.

Lemma expand_outer (f : pystr → list pystr) (q : list pystr) : ∀ acc,
  foldl (λ expanded_terms term, expanded_terms ++ f term) acc q = acc ++ mjoin (f <$> q).
Proof.
  induction q as [|t q IH]; intros acc; cbn.
  - by rewrite app_nil_r.
  - by rewrite IH, app_assoc.
Qed.

Lemma expand_query_run (query_terms : list pystr) :
  ∃ extra,
    _expand_query query_terms = query_terms ++ extra ∧
    (∀ t, t ∈ extra → ∃ entry, entry ∈ expansion_map ∧ t ∈ entry.2) ∧
    (∀ key exps t, (key, exps) ∈ expansion_map → key ∈ query_terms → t ∈ exps → t ∈ extra).
Proof.
  unfold _expand_query.
  set (E := λ term : pystr,
    foldl (λ expanded_terms (entry : pystr * list pystr),
             if bool_decide (term = entry.1)
                || bool_decide ((if bool_decide (term ∈ dom domain_terms) then stem term else term)
                                = stem entry.1)
             then expanded_terms ++ entry.2 else expanded_terms) [] expansion_map).
  exists (mjoin (E <$> query_terms)). split_and!.
  - rewrite <- expand_outer. generalize query_terms at 1 3.
    induction query_terms as [|t q IH]; intros acc; cbn [foldl]; [done|].
    rewrite expand_inner. apply IH.
  - intros t (l & Hl & (term & -> & _)%list_elem_of_fmap)%list_elem_of_join.
    by eapply expand_inner_elem.
  - intros key exps t Hkey Hin Ht. apply list_elem_of_join. exists (E key).
    split; [|by apply list_elem_of_fmap_2].
    by eapply expand_inner_key.
Qed.

(** *** [top_k] *)

Lemma rank_tokenized_top_k self toks query (k : Z) :
  (0 <= k)%Z →
  rank_tokenized self toks query (Some k)
  = (rank_tokenized self toks query None ≫= λ l, Ok (take (Z.to_nat k) l)).
Proof.
  intros Hk. unfold rank_tokenized.
  destruct (page_scores _ _ _) as [scores|e]; [|done]. res_step.
  destruct (match scores with [] => _ | _ => _ end) as [thr|e]; [|done]. res_step.
  destruct (above _ _ _) as [l|e]; [|done]. res_step.
  destruct (k <? Z.of_nat (length l))%Z eqn:Hlt.
  - unfold take_int. by destruct (k <? 0)%Z eqn:H0; [lia|].
  - by rewrite take_ge by lia.
Qed.

Lemma rank_pages_top_k_run pages query (k : Z) self :
  (0 <= k)%Z →
  (rank_pages pages query (Some k) self).1 = (rank_pages pages query None self).1 ∧
  (rank_pages pages query (Some k) self).2
  = ((rank_pages pages query None self).2 ≫= λ l, Ok (take (Z.to_nat k) l)).
Proof.
  intros Hk. destruct pages as [|p pages].
  - rewrite !rank_pages_nil. cbn. by rewrite take_nil.
  - destruct (fit_run (p :: pages) self) as (m & df & Hfit & _).
    unfold rank_pages. rewrite !bind_run, Hfit. unfold read, lift. rewrite !bind_run.
    cbn [fst snd]. split; [done|]. by apply rank_tokenized_top_k.
Qed.

Lemma rank_tokenized_negative_top_k self toks query (k : Z) :
  (k < 0)%Z →
  rank_tokenized self toks query (Some k)
  = (rank_tokenized self toks query None ≫= λ l, Ok (take (length l - Z.to_nat (- k)) l)).
Proof.
  intros Hk. unfold rank_tokenized.
  destruct (page_scores _ _ _) as [scores|e]; [|done]. res_step.
  destruct (match scores with [] => _ | _ => _ end) as [thr|e]; [|done]. res_step.
  destruct (above _ _ _) as [l|e]; [|done]. res_step.
  rewrite (proj2 (Z.ltb_lt k (Z.of_nat (length l)))) by lia.
  unfold take_int. rewrite (proj2 (Z.ltb_lt k 0)) by lia.
  do 2 f_equal. lia.
Qed.

(** *** What the ranking reads of the ranker *)

Lemma rank_tokenized_ext self1 self2 toks query top_k :
  k1 self1 = k1 self2 → b self1 = b self2 → delta self1 = delta self2 →
  idf self1 = idf self2 → doc_lens self1 = doc_lens self2 →
  avg_doc_len self1 = avg_doc_len self2 →
  rank_tokenized self1 toks query top_k = rank_tokenized self2 toks query top_k.
Proof.
  intros Hk Hb Hd Hidf Hlens Havg.
  unfold rank_tokenized, page_scores, _calculate_page_score, score_body.
  by rewrite Hk, Hb, Hd, Hidf, Hlens, Havg.
Qed.

Lemma refit_idf (self : BM25Ranker) (pages : list pystr) (m1 m2 : gmap pystr R) :
  (∀ t, m1 !! t =
        if decide (t ∈ terms_of pages ∪ corpus_terms self)
        then Some (idf_value (length pages) (doc_freq pages t) t)
        else idf self !! t) →
  (∀ t, m2 !! t =
        if decide (t ∈ terms_of pages ∪ (terms_of pages ∪ corpus_terms self))
        then Some (idf_value (length pages) (doc_freq pages t) t)
        else m1 !! t) →
  m2 = m1.
Proof.
  intros H1 H2. apply map_eq. intros t. rewrite H2, H1.
  repeat case_decide; try done; set_solver.
Qed.

(** *** Bigrams *)

Lemma bigrams_length (tokens : list pystr) : length (bigrams tokens) = length tokens - 1.
Proof.
  induction tokens as [|t1 [|t2 tokens] IH]; [done | done |].
  cbn [bigrams length] in *. lia.
Qed.

Lemma bigrams_lookup (tokens : list pystr) : ∀ i t1 t2,
  tokens !! i = Some t1 → tokens !! S i = Some t2 →
  bigrams tokens !! i = Some (t1 ++ py "_" ++ t2).
Proof.
  induction tokens as [|x [|y tokens] IH]; intros i t1 t2; [done | by destruct i |].
  destruct i as [|i]; cbn [bigrams].
  - by intros [= <-] [= <-].
  - intros H1 H2. apply (IH i t1 t2 H1 H2).
Qed.

End S.
End RankerFacts.

Module RankerProps.
Import BM25 BM25Spec BM25Facts LevenshteinSpec LevenshteinFacts AlignFacts RankSpec RankFacts RankPagesFacts RankClaims ScoreSpec ScoreFacts RankerFacts.

Section S.
Context {ud : UnicodeData} {nltk : Nltk} {numpy : Numpy}.

(** X13. [_calculate_page_score] returns 1.2 times the BM25+ sum over the
    query terms: the test [term in query_terms] holds for every term of the
    loop, so that the factor 1.2 applies to all of them. *)
Theorem page_score_is_boosted_bm25 (self : BM25Ranker) (page_terms query_terms : list pystr)
    (page_index : nat) :
  (0 < k1 self)%R → (0 <= b self < 1)%R → (0 < avg_doc_len self)%R →
  page_index < length (doc_lens self) →
  ∃ doc_len,
    doc_lens self !! page_index = Some doc_len ∧
    _calculate_page_score self page_terms query_terms page_index
    = Ok (1.2 * bm25_plus self page_terms (INR doc_len / avg_doc_len self) query_terms)%R.
Proof.
  intros Hk Hb Havg Hi.
  destruct (page_score_ok self page_terms query_terms page_index Hk Hb Havg Hi) as [s Hs].
  destruct (page_score_value _ _ _ _ _ Hk Hb Havg Hs) as (doc_len & Hlen & ->).
  by exists doc_len.
Qed.

(** X14. Whatever the page contains, its score lies between
    [1.2 * delta * W] and [1.2 * (k1 + 1 + delta) * W], where [W] is the sum
    of the IDF weights of the query terms: the floor [delta] gives every
    page a share of the weight of each query term. *)
Theorem page_score_floor_and_ceiling (self : BM25Ranker) (page_terms query_terms : list pystr)
    (page_index : nat) :
  (0 < k1 self)%R → (0 <= b self < 1)%R → (0 <= delta self)%R →
  (0 < avg_doc_len self)%R → idf_nonneg self →
  page_index < length (doc_lens self) →
  ∃ s, _calculate_page_score self page_terms query_terms page_index = Ok s ∧
       (1.2 * delta self * query_idf self query_terms <= s)%R ∧
       (s <= 1.2 * (k1 self + 1 + delta self) * query_idf self query_terms)%R.
Proof.
  intros Hk Hb Hd Havg Hidf Hi.
  destruct (page_score_ok self page_terms query_terms page_index Hk Hb Havg Hi) as [s Hs].
  exists s. split; [done|]. by eapply page_score_bounds.
Qed.

(** X15. When [k1 + 1 < 9 * delta], as with the default parameters, the cut
    at a tenth of the best score never separates pages: [rank_pages] with no
    [top_k] returns either no page, when no query term has a weight, or
    every page of the corpus. *)
Theorem rank_pages_keeps_all_or_none (pages : list pystr) (query : pystr)
    (self : BM25Ranker) :
  argsort_spec argsort →
  (0 < k1 self)%R → (0 <= b self < 1)%R → (0 < delta self)%R →
  (k1 self + 1 < 9 * delta self)%R → idf_in_corpus self →
  (∃ p, p ∈ pages ∧ BM25Spec.page_terms p ≠ []) →
  ∃ self' l,
    rank_pages pages query None self = (self', Ok l) ∧
    ((l = [] ∧ query_idf self' (expanded_query query) = 0%R) ∨
     (Permutation l (seq 0 (length pages)) ∧ (0 < query_idf self' (expanded_query query))%R)).
Proof. apply rank_pages_all_or_none. Qed.

(** X16. [fit] never raises. It leaves [k1], [b] and [delta] as they are,
    records the number of pages, the length of each term list and, for each
    term, the number of pages that contain it; it adds the terms of the
    pages to [corpus_terms] without removing any, and gives every term of
    [corpus_terms] a strictly positive IDF weight computed from the new
    counts, also when the term occurs in every page. *)
Theorem fit_postcondition (pages : list pystr) (self : BM25Ranker) :
  ∃ self',
    fit pages self = (self', Ok (BM25Spec.page_terms <$> pages)) ∧
    k1 self' = k1 self ∧ b self' = b self ∧ delta self' = delta self ∧
    total_docs self' = length pages ∧
    doc_lens self' = length <$> (BM25Spec.page_terms <$> pages) ∧
    (∀ t, default 0 (doc_freqs self' !! t) = doc_freq pages t) ∧
    corpus_terms self' = terms_of pages ∪ corpus_terms self ∧
    (∀ t, t ∈ corpus_terms self' →
          idf self' !! t = Some (idf_value (length pages) (doc_freq pages t) t)
          ∧ (0 < idf_value (length pages) (doc_freq pages t) t)%R) ∧
    (∀ t, t ∉ corpus_terms self' → idf self' !! t = idf self !! t).
Proof.
  destruct (fit_run pages self) as (m & df & Hfit & Hdf & Hm).
  exists (fitted self pages m df). split_and!; try done.
  - intros t Ht. cbn [idf corpus_terms fitted] in *. rewrite Hm, decide_True by done.
    split; [done|]. apply idf_value_pos, doc_freq_le.
  - intros t Ht. cbn [idf corpus_terms fitted] in *. by rewrite Hm, decide_False.
Qed.

(** X17. After [fit], of two terms of the corpus with the same domain boost
    (or none), the one that occurs in fewer pages has the greater IDF
    weight. *)
Theorem idf_rarer_term_weighs_more (pages : list pystr) (self : BM25Ranker) (t1 t2 : pystr) :
  0 < doc_freq pages t1 < doc_freq pages t2 →
  domain_terms !! t1 = domain_terms !! t2 →
  ∃ v1 v2, idf (fit pages self).1 !! t1 = Some v1 ∧
           idf (fit pages self).1 !! t2 = Some v2 ∧ (v2 < v1)%R.
Proof.
  intros [H1 H12] Hdom.
  destruct (fit_run pages self) as (m & df & -> & _ & Hm). cbn [fst idf fitted].
  eexists _, _. rewrite !Hm, !decide_True.
  - split_and!; [done | done |]. by apply idf_value_decreasing.
  - apply elem_of_union_l, doc_freq_pos. lia.
  - by apply elem_of_union_l, doc_freq_pos.
Qed.

(** X18. [_expand_query] only adds: the result is the query terms followed
    by terms of the expansion table, and a query term that is a key of the
    table brings all the expansions of that key. *)
Theorem expand_query_additive (query_terms : list pystr) :
  ∃ extra,
    _expand_query query_terms = query_terms ++ extra ∧
    (∀ t, t ∈ extra → ∃ entry, entry ∈ expansion_map ∧ t ∈ entry.2) ∧
    (∀ key exps t, (key, exps) ∈ expansion_map → key ∈ query_terms → t ∈ exps → t ∈ extra).
Proof. apply expand_query_run. Qed.

(** X19. For [top_k >= 0], [rank_pages] returns the first [top_k] indices
    of the ranking it returns without [top_k], and leaves the ranker in the
    same state. *)
Theorem rank_pages_top_k_prefix (pages : list pystr) (query : pystr) (k : Z)
    (self : BM25Ranker) :
  (0 <= k)%Z →
  (rank_pages pages query (Some k) self).1 = (rank_pages pages query None self).1 ∧
  (rank_pages pages query (Some k) self).2
  = ((rank_pages pages query None self).2 ≫= λ l, Ok (take (Z.to_nat k) l)).
Proof.
  apply rank_pages_top_k_run.
Qed.

(** X29. A negative [top_k] is not rejected: [rank_pages] then drops the
    last [-top_k] indices of the ranking it returns without [top_k], that
    is the pages ranked lowest, and returns nothing when there are not
    more than that. *)
Theorem rank_pages_negative_top_k (pages : list pystr) (query : pystr) (k : Z)
    (self : BM25Ranker) :
  (k < 0)%Z →
  (rank_pages pages query (Some k) self).2
  = ((rank_pages pages query None self).2
     ≫= λ l, Ok (take (length l - Z.to_nat (- k)) l)).
Proof.
  intros Hk. destruct pages as [|p pages].
  - by rewrite !rank_pages_nil.
  - destruct (fit_run (p :: pages) self) as (m & df & Hfit & _).
    unfold rank_pages. rewrite !bind_run, Hfit. unfold read, lift. rewrite !bind_run.
    cbn [snd]. by apply rank_tokenized_negative_top_k.
Qed.

(** X20. Ranking the same pages for the same query a second time, on the
    ranker the first call left, gives the same result. *)
Theorem rank_pages_repeat (pages : list pystr) (query : pystr) (top_k : option Z)
    (self : BM25Ranker) :
  (rank_pages pages query top_k (rank_pages pages query top_k self).1).2
  = (rank_pages pages query top_k self).2.
Proof.
  destruct pages as [|p pages]; [by rewrite !rank_pages_nil|].
  destruct (rank_pages_run (p :: pages) query top_k self) as (m1 & df1 & -> & _ & Hm1); [done|].
  cbn [fst snd].
  destruct (rank_pages_run (p :: pages) query top_k (fitted self (p :: pages) m1 df1))
    as (m2 & df2 & -> & _ & Hm2); [done|].
  cbn [fst snd]. apply rank_tokenized_ext; try done.
  cbn [idf fitted corpus_terms] in *. by eapply refit_idf.
Qed.

(** X21. [rank_pages] leaves the ranker untouched for an empty list of
    pages and otherwise in the state [fit] gives it, also when the ranking
    raises; in no case does it change [k1], [b] or [delta], remove a term
    from [corpus_terms] or a key from the IDF table. *)
Theorem rank_pages_state (pages : list pystr) (query : pystr) (top_k : option Z)
    (self : BM25Ranker) :
  let self' := (rank_pages pages query top_k self).1 in
  (pages = [] → self' = self) ∧
  (pages ≠ [] → self' = (fit pages self).1) ∧
  k1 self' = k1 self ∧ b self' = b self ∧ delta self' = delta self ∧
  corpus_terms self ⊆ corpus_terms self' ∧
  (∀ t, is_Some (idf self !! t) → is_Some (idf self' !! t)).
Proof.
  intros self'. subst self'. destruct pages as [|p pages].
  - rewrite rank_pages_nil. cbn [fst]. by split_and!.
  - destruct (fit_run (p :: pages) self) as (m & df & Hfit & _ & Hm).
    unfold rank_pages. rewrite bind_run, Hfit. unfold read, lift. rewrite bind_run.
    cbn [fst]. split_and!; try done.
    + cbn [corpus_terms fitted]. set_solver.
    + intros t Ht. cbn [idf fitted]. rewrite Hm. by case_decide.
Qed.

(** X22. With [0 <= BM25_TOP_K], the page selection of
    [VeritasCrewBuilder.build] never yields more than [BM25_TOP_K] indices;
    they are distinct indices of pages. It yields a result as soon as one
    page has a term. *)
Theorem top_pages_indices_bounded (BM25_TOP_K : Z) (pages : list pystr)
    (search_query : pystr) (ranker : BM25Ranker) :
  argsort_spec argsort → (0 <= BM25_TOP_K)%Z →
  (∀ ranker' l,
     Agents.top_pages_indices BM25_TOP_K pages search_query ranker = (ranker', Ok l) →
     (Z.of_nat (length l) <= BM25_TOP_K)%Z ∧ NoDup l ∧ ∀ i, i ∈ l → i < length pages) ∧
  ((0 < k1 ranker)%R → (0 <= b ranker < 1)%R →
   (∃ p, p ∈ pages ∧ BM25Spec.page_terms p ≠ []) →
   ∃ ranker' l,
     Agents.top_pages_indices BM25_TOP_K pages search_query ranker = (ranker', Ok l)).
Proof.
  intros Hspec HK. unfold Agents.top_pages_indices.
  destruct (Z.of_nat (length pages) <=? BM25_TOP_K)%Z eqn:Hle.
  - split; [|by eexists _, _]. intros ranker' l [= <- <-]. rewrite length_seq. split_and!.
    + lia.
    + apply NoDup_seq.
    + intros i Hi%elem_of_seq. lia.
  - destruct (rank_pages_outcome pages search_query (Some BM25_TOP_K) ranker Hspec)
      as (_ & Hok & Hret).
    split; [|exact Hret]. intros ranker' l Hrun.
    destruct (Hok ranker' l Hrun) as (scores & _ & Hlen & (Hnd & Hin & _)).
    split_and!; [| done | by rewrite <- Hlen].
    destruct (rank_pages_top_k_run pages search_query BM25_TOP_K ranker HK) as [_ Hk].
    rewrite Hrun in Hk. cbn [snd] in Hk.
    destruct (rank_pages pages search_query None ranker).2 as [full|e]; [|done].
    cbn in Hk. injection Hk as ->. rewrite length_take. lia.
Qed.

(** X23. The terms [_preprocess_text] returns are the kept tokens followed
    by their bigrams: one bigram [t1_t2] for each pair of consecutive
    tokens, hence none for a single token. Without stemming, no kept token
    is a stop word, a single character or a number. *)
Theorem preprocess_text_shape (text : pystr) (use_stemming : bool) :
  ∃ tokens,
    _preprocess_text text use_stemming = tokens ++ bigrams tokens ∧
    length (bigrams tokens) = length tokens - 1 ∧
    (∀ i t1 t2, tokens !! i = Some t1 → tokens !! S i = Some t2 →
                bigrams tokens !! i = Some (t1 ++ py "_" ++ t2)) ∧
    (use_stemming = false →
     Forall (λ t, (t ∉ stop_words) ∧ 1 < length t ∧ isdigit t = false) tokens).
Proof.
  unfold _preprocess_text.
  match goal with |- context [?l ++ bigrams ?l] => exists l end.
  split_and!; [done | apply bigrams_length | apply bigrams_lookup |].
  intros ->. apply Forall_forall. intros t Ht. apply list_elem_of_filter in Ht as [Ht _].
  tauto.
Qed.

End S.
End RankerProps.

Module RankerExamples.
Import BM25 BM25Spec BM25Facts LevenshteinSpec LevenshteinFacts AlignFacts RankSpec RankFacts RankPagesFacts RankClaims RankExamples ScoreSpec ScoreFacts RankerFacts RankerProps.
#[local] Existing Instances Plain.unicode Plain.nltk Plain.numpy.

(** The ranker fitted on two small pages. *)
Lemma two_pages_ranker :
  let self := (fit [py "chat"; py "chat chien"] default_ranker).1 in
  (0 < k1 self)%R ∧ (0 <= b self < 1)%R ∧ (0 <= delta self)%R ∧
  (0 < avg_doc_len self)%R ∧ idf_nonneg self ∧ 1 < length (doc_lens self).
Proof.
  destruct (fit_run [py "chat"; py "chat chien"] default_ranker) as (m & df & Hfit & _ & Hm).
  rewrite Hfit. cbn [fst]. set (self := fitted _ _ m df).
  split_and!.
  - cbn. Lra.lra.
  - cbn. Lra.lra.
  - cbn. Lra.lra.
  - cbn. Lra.lra.
  - apply fitted_avg_pos. exists (py "chat"). split; [by left|]. by rewrite terms_chat.
  - apply fitted_idf_nonneg; [|exact Hm].
    intros u [w Hw]. cbn in Hw. by rewrite lookup_empty in Hw.
  - cbn. lia.
Qed.

Lemma default_ranker_idf_in_corpus : idf_in_corpus default_ranker.
Proof. intros u [w Hw]. cbn in Hw. by rewrite lookup_empty in Hw. Qed.

Lemma page_with_terms : ∃ p, p ∈ [py "chat"; py "chat chien"] ∧ page_terms p ≠ [].
Proof. exists (py "chat"). split; [by left|]. by rewrite terms_chat. Qed.

(** X13, at the second page of the ranker fitted on two pages. *)
Lemma page_score_is_boosted_bm25_second_page :
  let self := (fit [py "chat"; py "chat chien"] default_ranker).1 in
  (0 < k1 self)%R ∧ (0 <= b self < 1)%R ∧ (0 < avg_doc_len self)%R ∧
  1 < length (doc_lens self) ∧
  ∃ doc_len,
    doc_lens self !! 1 = Some doc_len ∧
    _calculate_page_score self [py "chat"; py "chien"; py "chat_chien"] [py "chien"] 1
    = Ok (1.2 * bm25_plus self [py "chat"; py "chien"; py "chat_chien"]
                  (INR doc_len / avg_doc_len self) [py "chien"])%R.
Proof.
  intros self. destruct two_pages_ranker as (Hk & Hb & _ & Havg & _ & Hi).
  split; [exact Hk|]. split; [exact Hb|]. split; [exact Havg|]. split; [exact Hi|].
  exact (page_score_is_boosted_bm25 self [py "chat"; py "chien"; py "chat_chien"]
           [py "chien"] 1 Hk Hb Havg Hi).
Defined.

(** X14, at the same page. *)
Lemma page_score_floor_and_ceiling_second_page :
  let self := (fit [py "chat"; py "chat chien"] default_ranker).1 in
  (0 < k1 self)%R ∧ (0 <= b self < 1)%R ∧ (0 <= delta self)%R ∧
  (0 < avg_doc_len self)%R ∧ idf_nonneg self ∧ 1 < length (doc_lens self) ∧
  ∃ s, _calculate_page_score self [py "chat"; py "chien"; py "chat_chien"] [py "chien"] 1
       = Ok s ∧
       (1.2 * delta self * query_idf self [py "chien"] <= s)%R ∧
       (s <= 1.2 * (k1 self + 1 + delta self) * query_idf self [py "chien"])%R.
Proof.
  intros self. destruct two_pages_ranker as (Hk & Hb & Hd & Havg & Hidf & Hi).
  split; [exact Hk|]. split; [exact Hb|]. split; [exact Hd|]. split; [exact Havg|].
  split; [exact Hidf|]. split; [exact Hi|].
  exact (page_score_floor_and_ceiling self [py "chat"; py "chien"; py "chat_chien"]
           [py "chien"] 1 Hk Hb Hd Havg Hidf Hi).
Defined.

(** X15, at a new ranker with the default parameters. *)
Lemma rank_pages_keeps_all_or_none_default :
  argsort_spec (@argsort Plain.numpy) ∧
  (0 < k1 default_ranker)%R ∧ (0 <= b default_ranker < 1)%R ∧ (0 < delta default_ranker)%R ∧
  (k1 default_ranker + 1 < 9 * delta default_ranker)%R ∧ idf_in_corpus default_ranker ∧
  (∃ p, p ∈ [py "chat"; py "chat chien"] ∧ page_terms p ≠ []) ∧
  ∃ self' l,
    rank_pages [py "chat"; py "chat chien"] (py "chien") None default_ranker = (self', Ok l) ∧
    ((l = [] ∧ query_idf self' (expanded_query (py "chien")) = 0%R) ∨
     (Permutation l (seq 0 (length [py "chat"; py "chat chien"]))
      ∧ (0 < query_idf self' (expanded_query (py "chien")))%R)).
Proof.
  assert (0 < k1 default_ranker)%R as Hk by (cbn; Lra.lra).
  assert (0 <= b default_ranker < 1)%R as Hb by (cbn; Lra.lra).
  assert (0 < delta default_ranker)%R as Hd by (cbn; Lra.lra).
  assert (k1 default_ranker + 1 < 9 * delta default_ranker)%R as Hkd by (cbn; Lra.lra).
  split; [exact plain_argsort_spec|]. split; [exact Hk|]. split; [exact Hb|].
  split; [exact Hd|]. split; [exact Hkd|]. split; [exact default_ranker_idf_in_corpus|].
  split; [exact page_with_terms|].
  exact (rank_pages_keeps_all_or_none [py "chat"; py "chat chien"] (py "chien") default_ranker
           plain_argsort_spec Hk Hb Hd Hkd default_ranker_idf_in_corpus page_with_terms).
Defined.

(** X17: [chien] occurs in one page, [chat] in both. *)
Lemma idf_rarer_term_weighs_more_chien :
  0 < doc_freq [py "chat"; py "chat chien"] (py "chien")
    < doc_freq [py "chat"; py "chat chien"] (py "chat") ∧
  domain_terms !! py "chien" = domain_terms !! py "chat" ∧
  ∃ v1 v2, idf (fit [py "chat"; py "chat chien"] default_ranker).1 !! py "chien" = Some v1 ∧
           idf (fit [py "chat"; py "chat chien"] default_ranker).1 !! py "chat" = Some v2 ∧
           (v2 < v1)%R.
Proof.
  assert (0 < doc_freq [py "chat"; py "chat chien"] (py "chien")
            < doc_freq [py "chat"; py "chat chien"] (py "chat")) as Hdf.
  { assert (doc_freq [py "chat"; py "chat chien"] (py "chien") = 1) as -> by (vm_compute; reflexivity).
    assert (doc_freq [py "chat"; py "chat chien"] (py "chat") = 2) as -> by (vm_compute; reflexivity).
    lia. }
  assert (domain_terms !! py "chien" = domain_terms !! py "chat") as Hdom
    by (vm_compute; reflexivity).
  split; [exact Hdf|]. split; [exact Hdom|].
  exact (idf_rarer_term_weighs_more [py "chat"; py "chat chien"] default_ranker
           (py "chien") (py "chat") Hdf Hdom).
Defined.

(** X19, with [top_k = 1]. *)
Lemma rank_pages_top_k_prefix_one :
  (0 <= 1)%Z ∧
  (rank_pages [py "chat"; py "chat chien"] (py "chien") (Some 1%Z) default_ranker).1
  = (rank_pages [py "chat"; py "chat chien"] (py "chien") None default_ranker).1 ∧
  (rank_pages [py "chat"; py "chat chien"] (py "chien") (Some 1%Z) default_ranker).2
  = ((rank_pages [py "chat"; py "chat chien"] (py "chien") None default_ranker).2
     ≫= λ l, Ok (take (Z.to_nat 1) l)).
Proof.
  assert (0 <= 1)%Z as Hk by lia.
  split; [exact Hk|].
  exact (rank_pages_top_k_prefix [py "chat"; py "chat chien"] (py "chien") 1 default_ranker Hk).
Defined.

(** X29, with [top_k = -1]. *)
Lemma rank_pages_negative_top_k_minus_one :
  (-1 < 0)%Z ∧
  (rank_pages [py "chat"; py "chat chien"] (py "chien") (Some (-1)%Z) default_ranker).2
  = ((rank_pages [py "chat"; py "chat chien"] (py "chien") None default_ranker).2
     ≫= λ l, Ok (take (length l - Z.to_nat (- -1)) l)).
Proof.
  assert (-1 < 0)%Z as Hk by lia.
  split; [exact Hk|].
  exact (rank_pages_negative_top_k [py "chat"; py "chat chien"] (py "chien") (-1)
           default_ranker Hk).
Defined.

(** X22, with a limit of one page for two pages. *)
Lemma top_pages_indices_bounded_one :
  argsort_spec (@argsort Plain.numpy) ∧ (0 <= 1)%Z ∧
  (∀ ranker' l,
     Agents.top_pages_indices 1 [py "chat"; py "chat chien"] (py "chien") default_ranker
       = (ranker', Ok l) →
     (Z.of_nat (length l) <= 1)%Z ∧ NoDup l
     ∧ ∀ i, i ∈ l → i < length [py "chat"; py "chat chien"]) ∧
  ((0 < k1 default_ranker)%R → (0 <= b default_ranker < 1)%R →
   (∃ p, p ∈ [py "chat"; py "chat chien"] ∧ page_terms p ≠ []) →
   ∃ ranker' l,
     Agents.top_pages_indices 1 [py "chat"; py "chat chien"] (py "chien") default_ranker
       = (ranker', Ok l)).
Proof.
  assert (0 <= 1)%Z as HK by lia.
  split; [exact plain_argsort_spec|]. split; [exact HK|].
  exact (top_pages_indices_bounded 1 [py "chat"; py "chat chien"] (py "chien") default_ranker
           plain_argsort_spec HK).
Defined.

End RankerExamples.

Module PdfFacts.
Import Levenshtein PdfParser Veritas TextSpec TextFacts.

(** *** Duplicates *)

Lemma unique_fold (l : list pystr) : ∀ acc,
  NoDup acc →
  ∃ added,
    foldl (λ unique s, if bool_decide (s ∈ unique) then unique else unique ++ [s]) acc l
    = acc ++ added ∧
    NoDup (acc ++ added) ∧ added `sublist_of` l ∧
    (∀ x, x ∈ added → x ∈ l) ∧ (∀ x, x ∈ l → x ∈ acc ++ added).
Proof.
  induction l as [|s l IH]; intros acc Hnd; cbn [foldl].
  - exists []. rewrite app_nil_r. split_and!; [done | done | done | done |].
    by intros x ?%elem_of_nil.
  - case_bool_decide as Hs.
    + destruct (IH acc Hnd) as (added & -> & Hnd' & Hsub & Hin & Hall).
      exists added. split_and!; [done | done | by apply sublist_cons | |].
      * intros x Hx. right. by apply Hin.
      * intros x [->|Hx]%elem_of_cons; [apply elem_of_app; by left | by apply Hall].
    + destruct (IH (acc ++ [s])) as (added & -> & Hnd' & Hsub & Hin & Hall).
      { apply NoDup_app. split_and!; [done | | apply NoDup_singleton].
        intros x Hx ->%list_elem_of_singleton. done. }
      exists (s :: added). rewrite <- app_assoc in *. cbn [app] in *.
      split_and!; [done | done | by apply sublist_skip | |].
      * intros x [->|Hx]%elem_of_cons; [by left | right; by apply Hin].
      * intros x [->|Hx]%elem_of_cons; [|by apply Hall].
        apply elem_of_app. right. by left.
Qed.

Lemma unique_fold_nodup (l : list pystr) : ∀ acc,
  NoDup (acc ++ l) →
  foldl (λ unique s, if bool_decide (s ∈ unique) then unique else unique ++ [s]) acc l
  = acc ++ l.
Proof.
  induction l as [|s l IH]; intros acc Hnd; cbn [foldl]; [by rewrite app_nil_r|].
  rewrite bool_decide_eq_false_2.
  - rewrite IH; rewrite <- app_assoc; done.
  - apply NoDup_app in Hnd as (_ & Hdisj & _). intros Hs. apply (Hdisj s Hs). by left.
Qed.

Lemma unique_sentences_run (l : list pystr) :
  NoDup (unique_sentences l) ∧ unique_sentences l `sublist_of` l ∧
  (∀ s, s ∈ unique_sentences l ↔ s ∈ l) ∧
  (NoDup l → unique_sentences l = l).
Proof.
  split_and!; [| | |apply (unique_fold_nodup l [])];
    unfold unique_sentences;
    destruct (unique_fold l [] (NoDup_nil_2)) as (added & -> & Hnd & Hsub & Hin & Hall);
    cbn [app] in *; [done | done |].
  intros s. split; [apply Hin | apply Hall].
Qed.

(** *** The dictionary *)

Lemma dict_set_fresh {V : Type} (d : dict V) k v :
  k ∉ d.*1 → dict_set d k v = d ++ [(k, v)].
Proof.
  induction d as [|[k' v'] d IH]; cbn; [done|].
  intros Hk. apply not_elem_of_cons in Hk as [Hne Hk].
  rewrite decide_False by done. by rewrite IH.
Qed.

Lemma dict_get_elem {V : Type} (d : dict V) k v : dict_get d k = Some v → (k, v) ∈ d.
Proof.
  induction d as [|[k' v'] d IH]; cbn; [done|].
  case_decide as Hk; [intros [= <-]; subst; by left | intros H; right; by apply IH].
Qed.

Lemma dict_get_lookup {V : Type} (d : dict V) i k v :
  NoDup d.*1 → d !! i = Some (k, v) → dict_get d k = Some v.
Proof.
  revert i. induction d as [|[k' v'] d IH]; intros i Hnd Hi; [done|].
  cbn in *. apply NoDup_cons in Hnd as [Hk' Hnd].
  destruct i as [|i]; cbn in Hi.
  - injection Hi as -> ->. by rewrite decide_True.
  - rewrite decide_False; [by eapply IH|].
    intros ->. apply Hk'. apply list_elem_of_fmap. exists (k, v).
    split; [done | by eapply list_elem_of_lookup_2].
Qed.

Lemma foldl_app_join {A B : Type} (f : A → list B) (l : list A) : ∀ acc,
  foldl (λ acc x, acc ++ f x) acc l = acc ++ mjoin (f <$> l).
Proof.
  induction l as [|x l IH]; intros acc; cbn.
  - by rewrite app_nil_r.
  - by rewrite IH, app_assoc.
Qed.

(** *** [split_pages_into_sentences] *)

Section Split.
Context `{SentenceTokenizer}.

Lemma split_page_Some (i : nat) (p : pystr) (d : dict (list pystr)) (ss : list pystr) :
  sent_tokenize p = Some ss →
  split_page (i, p) d
  = Some (dict_set d (Z.of_nat i) (unique_sentences (long_sentences ss))).
Proof. unfold split_page. cbn [fst snd]. by intros ->. Qed.

Lemma split_loop (pages : list pystr) : ∀ (a : nat) (sentences : list (list pystr))
    (d : dict (list pystr)),
  Forall2 (λ p ss, sent_tokenize p = Some ss) pages sentences →
  d.*1 = Z.of_nat <$> seq 0 a →
  for_opt (zip (seq a (length pages)) pages) split_page d
  = Some (d ++ zip (Z.of_nat <$> seq a (length pages))
                   ((λ ss, unique_sentences (long_sentences ss)) <$> sentences)).
Proof.
  induction pages as [|p pages IH]; intros a sentences d Hall Hkeys.
  - apply Forall2_nil_inv_l in Hall as ->. cbn. by rewrite app_nil_r.
  - apply Forall2_cons_inv_l in Hall as (ss & sentences' & Hp & Hall & ->).
    cbn [length seq zip zip_with for_opt]. rewrite (split_page_Some a p d ss Hp).
    cbn [mbind option_bind].
    rewrite dict_set_fresh.
    + rewrite IH with (sentences := sentences'); [|done|].
      * cbn. by rewrite <- app_assoc.
      * by rewrite fmap_app, Hkeys, seq_S, fmap_app.
    + rewrite Hkeys. intros (j & Hj & Hin%elem_of_seq)%list_elem_of_fmap. lia.
Qed.

Lemma for_opt_None {A S : Type} (body : A → S → option S) (l : list A) x :
  x ∈ l → (∀ s, body x s = None) → ∀ s, for_opt l body s = None.
Proof.
  induction l as [|y l IH]; [by intros ?%elem_of_nil|].
  intros [->|Hx]%elem_of_cons Hnone s; cbn [for_opt].
  - by rewrite Hnone.
  - destruct (body y s); [by apply IH | done].
Qed.

Lemma tokenize_all (pages : list pystr) :
  (∃ sentences, Forall2 (λ p ss, sent_tokenize p = Some ss) pages sentences) ∨
  (∃ p, p ∈ pages ∧ sent_tokenize p = None).
Proof.
  induction pages as [|p pages [[sentences Hall]|(q & Hq & Hnone)]].
  - left. by exists [].
  - destruct (sent_tokenize p) as [ss|] eqn:Hp.
    + left. exists (ss :: sentences). by constructor.
    + right. exists p. split; [by left | done].
  - right. exists q. split; [by right | done].
Qed.

Lemma split_run (pages : list pystr) (sentences : list (list pystr)) :
  Forall2 (λ p ss, sent_tokenize p = Some ss) pages sentences →
  split_pages_into_sentences pages
  = Some (zip (Z.of_nat <$> seq 0 (length pages))
              ((λ ss, unique_sentences (long_sentences ss)) <$> sentences)).
Proof.
  intros Hall. unfold split_pages_into_sentences, enumerate.
  by rewrite (split_loop pages 0 sentences []).
Qed.

Lemma split_none (pages : list pystr) :
  (∃ p, p ∈ pages ∧ sent_tokenize p = None) → split_pages_into_sentences pages = None.
Proof.
  intros (p & Hp & Hnone). unfold split_pages_into_sentences, enumerate.
  apply list_elem_of_lookup in Hp as [i Hi].
  apply (for_opt_None _ _ (i, p)).
  - apply list_elem_of_lookup. exists i. apply lookup_zip_with_Some.
    exists i, p. split_and!; [done | | done].
    apply lookup_seq. split; [done|]. by eapply lookup_lt_Some.
  - intros d. unfold split_page. cbn [fst snd]. by rewrite Hnone.
Qed.

Lemma split_some (pages : list pystr) (d : dict (list pystr)) :
  split_pages_into_sentences pages = Some d →
  d.*1 = Z.of_nat <$> seq 0 (length pages) ∧
  Forall (λ kv, NoDup kv.2 ∧ Forall (λ s, 10 < length s ∧ no_outer_space s) kv.2) d.
Proof.
  intros Hd. destruct (tokenize_all pages) as [[sentences Hall]|Hnone].
  - rewrite (split_run pages sentences Hall) in Hd. injection Hd as <-.
    pose proof (Forall2_length _ _ _ Hall) as Hlen. split.
    + rewrite fst_zip; [done|]. rewrite !length_fmap, length_seq. lia.
    + apply Forall_forall. intros [k v] Hkv. apply elem_of_zip_r in Hkv. cbn [snd] in *.
      apply list_elem_of_fmap in Hkv as (ss & -> & _).
      destruct (unique_sentences_run (long_sentences ss)) as (Hnd & _ & Hin & _).
      split; [done|]. apply Forall_forall. intros s Hs%Hin.
      pose proof (long_sentences_Forall ss) as Hlong. rewrite Forall_forall in Hlong.
      by apply Hlong.
  - by rewrite (split_none pages Hnone) in Hd.
Qed.

End Split.

(** *** [collect_sentences] *)

Lemma collect_fold (d : dict (list pystr)) (idxs : list Z) : ∀ acc,
  foldl (λ all_sentences page_idx,
           match dict_get d page_idx with
           | Some sentences => all_sentences ++ sentences
           | None => all_sentences
           end) acc idxs
  = acc ++ mjoin (omap (dict_get d) idxs).
Proof.
  induction idxs as [|k idxs IH]; intros acc; cbn [foldl omap].
  - cbn. by rewrite app_nil_r.
  - rewrite IH. cbn [omap list_omap].
    destruct (dict_get d k) as [ss|]; [|done].
    cbn. by rewrite app_assoc.
Qed.

(** *** [clean_text] of [pdf_parser.py] *)

Lemma collapse_no_other_space (s : pystr) (c : pychar) :
  isspace c = true → c ≠ 32%N → c ∉ collapse_spaces false s.
Proof.
  intros Hc Hne Hin. apply Hne.
  by eapply spaced_plain; [apply (collapse_spaced false s) | |].
Qed.

Lemma pdf_clean_text_eq `{TextRepair} (text : pystr) :
  clean_text text true = strip (collapse_spaces false (fix_text text)).
Proof.
  unfold clean_text, space_replacements. cbn [foldl fst snd].
  rewrite (replace_absent 160%N) by (by apply collapse_no_other_space).
  by rewrite (replace_absent 8239%N) by (by apply collapse_no_other_space).
Qed.

End PdfFacts.

Module PdfProps.
Import Levenshtein PdfParser Veritas TextSpec TextFacts PdfFacts.

(** X24. The loop that removes the duplicate sentences of a page keeps each
    sentence once, in the order of the page, and drops nothing else; a list
    without duplicates is returned as it is. *)
Theorem unique_sentences_spec (sentences : list pystr) :
  NoDup (unique_sentences sentences) ∧
  unique_sentences sentences `sublist_of` sentences ∧
  (∀ s, s ∈ unique_sentences sentences ↔ s ∈ sentences) ∧
  (NoDup sentences → unique_sentences sentences = sentences).
Proof. apply unique_sentences_run. Qed.

(** X25. [split_pages_into_sentences] gives, when [sent_tokenize] returns
    for every page, one entry per page, keyed 0, 1, ... in the order of the
    pages, holding the sentences of the page that pass the length filter,
    without duplicates; the exception of [sent_tokenize] on any page leaves
    the function. Every sentence stored has more than 10 characters and no
    white space at either end. *)
Theorem split_pages_into_sentences_spec `{SentenceTokenizer} (pages : list pystr) :
  (∀ sentences, Forall2 (λ p ss, sent_tokenize p = Some ss) pages sentences →
     split_pages_into_sentences pages
     = Some (zip (Z.of_nat <$> seq 0 (length pages))
                 ((λ ss, unique_sentences (long_sentences ss)) <$> sentences))) ∧
  ((∃ p, p ∈ pages ∧ sent_tokenize p = None) → split_pages_into_sentences pages = None) ∧
  (∀ d, split_pages_into_sentences pages = Some d →
     d.*1 = Z.of_nat <$> seq 0 (length pages) ∧
     Forall (λ kv, NoDup kv.2 ∧ Forall (λ s, 10 < length s ∧ no_outer_space s) kv.2) d).
Proof. split_and!; [apply split_run | apply split_none | apply split_some]. Qed.

(** X26. [extract_all_sentences] numbers the pages that have text: the keys
    are 0, 1, ... over the extracted texts that are not blank, so that a
    blank page shifts the numbers of the pages after it. The flat list is
    the concatenation of the lists of the pages in that order, and every
    sentence in it has more than 10 characters and no white space at either
    end. *)
Theorem extract_all_sentences_spec `{TextRepair} `{SentenceTokenizer}
    (extracted all_sentences : list pystr) (sentences_by_page : dict (list pystr)) :
  extract_all_sentences extracted = Some (all_sentences, sentences_by_page) →
  sentences_by_page.*1
    = Z.of_nat <$> seq 0 (length (filter (λ text, strip text ≠ []) extracted)) ∧
  all_sentences = mjoin sentences_by_page.*2 ∧
  Forall (λ s, 10 < length s ∧ no_outer_space s) all_sentences.
Proof.
  unfold extract_all_sentences.
  destruct (split_pages_into_sentences _) as [d|] eqn:Hd; [|done].
  cbn. intros [= <- <-].
  destruct (split_some _ _ Hd) as [Hkeys Hall].
  unfold extract_text_by_page in Hkeys. rewrite length_fmap in Hkeys.
  rewrite (foldl_app_join snd d []). cbn [app].
  split_and!; [done | done |].
  apply Forall_forall. intros s (ss & Hs & (kv & -> & Hkv)%list_elem_of_fmap)%list_elem_of_join.
  rewrite Forall_forall in Hall. destruct (Hall kv Hkv) as [_ Hlong].
  rewrite Forall_forall in Hlong. by apply Hlong.
Qed.

(** Three extracted texts, the second blank. *)
Lemma extract_all_sentences_blank_page :
  let extracted := [py "Le chat dort sur le lit. Oui."; py "  ";
                    py "Le chien court dans le jardin. Le chien court dans le jardin."] in
  let all_sentences := [py "Le chat dort sur le lit"; py "Le chien court dans le jardin"] in
  let sentences_by_page := [(0%Z, [py "Le chat dort sur le lit"]);
                            (1%Z, [py "Le chien court dans le jardin"])] in
  @extract_all_sentences PlainText.repair PlainText.full_stops extracted
    = Some (all_sentences, sentences_by_page) ∧
  sentences_by_page.*1
    = Z.of_nat <$> seq 0 (length (filter (λ text, strip text ≠ []) extracted)) ∧
  all_sentences = mjoin sentences_by_page.*2 ∧
  Forall (λ s, 10 < length s ∧ no_outer_space s) all_sentences.
Proof.
  intros extracted all_sentences sentences_by_page.
  assert (@extract_all_sentences PlainText.repair PlainText.full_stops extracted
          = Some (all_sentences, sentences_by_page)) as Hrun by (vm_compute; reflexivity).
  split; [exact Hrun|].
  exact (@extract_all_sentences_spec PlainText.repair PlainText.full_stops extracted
           all_sentences sentences_by_page Hrun).
Defined.

(** X27. The sentences collected for the selected pages are the lists of
    the selected indices that are keys of [sentences_by_page], in the order
    of the selection: an index that is no key is skipped, an index selected
    twice contributes twice, and every sentence collected is stored under
    a selected key. *)
Theorem collect_sentences_spec (sentences_by_page : dict (list pystr))
    (selected_pages_indices : list Z) :
  collect_sentences sentences_by_page selected_pages_indices
    = mjoin (omap (dict_get sentences_by_page) selected_pages_indices) ∧
  ∀ s, s ∈ collect_sentences sentences_by_page selected_pages_indices →
       ∃ k ss, k ∈ selected_pages_indices ∧ (k, ss) ∈ sentences_by_page ∧ s ∈ ss.
Proof.
  unfold collect_sentences. rewrite collect_fold. cbn [app]. split; [done|].
  intros s (ss & Hs & (k & Hk & Hget)%list_elem_of_omap)%list_elem_of_join.
  exists k, ss. split_and!; [done | by apply dict_get_elem | done].
Qed.

(** X28. [clean_text] of [pdf_parser.py], with the accents kept, returns the
    repaired text with each run of white space collapsed to one plain space
    and the ends stripped: its two replacements of no-break spaces never
    apply, since the collapse has already removed them. *)
Theorem pdf_clean_text_spec `{TextRepair} (text : pystr) :
  clean_text text true = strip (collapse_spaces false (fix_text text)) ∧
  no_outer_space (clean_text text true) ∧
  no_double_space (clean_text text true) ∧
  (∀ c, c ∈ clean_text text true → isspace c = true → c = 32%N).
Proof.
  rewrite pdf_clean_text_eq. split_and!; [done | apply strip_no_outer_space | |].
  - eapply spaced_no_double, strip_spaced, collapse_spaced.
  - intros c. eapply spaced_plain, strip_spaced, collapse_spaced.
Qed.

End PdfProps.
